(** * Style hook of the block editor: variable references, inline styles
      and the cascade of style layers

    A shallow embedding of [src/unnamed/part_000] (the [style] hook of the
    block editor) together with the parts of lodash it calls
    ([startsWith], [has], [get], [reduce], [merge]).  The code is modelled
    twice: on plain data, where a style layer is the value it holds, and on
    a heap of objects with identity, where [merge] writes in place; the
    second model is shown to compute what the first computes and to leave
    its inputs alone.

    Scope of the data model.  Style layers are plain data: nested plain
    objects whose leaves are primitives.  Property names are ordinary
    names (not names of members inherited from [Object.prototype]), so
    that JavaScript's [key in object] coincides with an own-property
    test.  Numbers are integers (the only number the code inspects is the
    heading [level]); arrays, functions and class instances do not occur
    in a style layer and are not modelled.  Strings are sequences of
    bytes; every character the code looks at ("var:", "|") is ASCII, so
    the byte view and JavaScript's UTF-16 view cut a string at the same
    places. *)

From Stdlib Require Import String Ascii List ZArith QArith Bool Lia.
From stdpp Require Import base list strings.
Import ListNotations.

Local Open Scope string_scope.
Local Open Scope list_scope.

(** ** JavaScript strings *)

Module JsString.

(** [s.slice(n)] for a non-negative [n]. *)
Fixpoint slice (n : nat) (s : string) : string :=
  match n, s with
  | O, _ => s
  | S _, EmptyString => EmptyString
  | S k, String _ s' => slice k s'
  end.

(** lodash [startsWith(string, target)] at position 0:
    [string.slice(0, target.length) == target]. *)
Definition startsWith (s target : string) : bool :=
  String.eqb (substring 0 (String.length target) s) target.

(** [s.split(sep)] for a non-empty separator: the pieces between the
    successive occurrences of [sep], scanned from the left.  [skip]
    counts the characters of a separator occurrence still to be passed
    over. *)
Fixpoint split_from (sep : string) (skip : nat) (s : string) : list string :=
  match s with
  | EmptyString => [EmptyString]
  | String c s' =>
      match skip with
      | S k => split_from sep k s'
      | O =>
          if String.prefix sep s
          then EmptyString :: split_from sep (String.length sep - 1) s'
          else match split_from sep 0 s' with
               | [] => [String c EmptyString]
               | seg :: segs => String c seg :: segs
               end
      end
  end.

Definition split (sep s : string) : list string := split_from sep 0 s.

(** [segments.join(sep)]. *)
Fixpoint join (sep : string) (segments : list string) : string :=
  match segments with
  | [] => EmptyString
  | [x] => x
  | x :: rest => x ++ sep ++ join sep rest
  end.

(** A string in which the character [c] does not occur. *)
Fixpoint free_of (c : ascii) (s : string) : bool :=
  match s with
  | EmptyString => true
  | String d s' => negb (Ascii.eqb d c) && free_of c s'
  end.

End JsString.

(** ** Values *)

Inductive prim : Type :=
| PUndefined
| PNull
| PBool (b : bool)
| PNum (n : Z)
| PStr (s : string).

#[warnings="-register-all"]
Inductive value : Type :=
| Prim (p : prim)
| Obj (entries : list (string * value)).

(** A plain object: its own properties in insertion order. *)
Abbreviation object := (list (string * value)).

Abbreviation Str s := (Prim (PStr s)).
Abbreviation Num n := (Prim (PNum n)).
Abbreviation undefined := (Prim PUndefined).

(** Induction over a value and, for an object, over its properties. *)
Fixpoint value_rect' (P : value -> Type) (Q : object -> Type)
    (HPrim : forall p, P (Prim p))
    (HObj : forall o, Q o -> P (Obj o))
    (HNil : Q [])
    (HCons : forall k v o, P v -> Q o -> Q ((k, v) :: o))
    (v : value) {struct v} : P v :=
  match v with
  | Prim p => HPrim p
  | Obj o =>
      HObj o
        ((fix go (o : object) : Q o :=
            match o with
            | [] => HNil
            | (k, v') :: o' =>
                HCons k v' o' (value_rect' P Q HPrim HObj HNil HCons v') (go o')
            end) o)
  end.

(** ** Plain objects *)

Module JsObject.

(** [object[key]] for an own property; [None] when there is none.  The
    type [V] of property values is [value] for plain data and a reference or
    a primitive for objects in the heap. *)
Fixpoint getOwn {V : Type} (key : string) (o : list (string * V)) : option V :=
  match o with
  | [] => None
  | (k, v) :: o' => if String.eqb k key then Some v else getOwn key o'
  end.

Definition hasOwn {V : Type} (key : string) (o : list (string * V)) : bool :=
  match getOwn key o with Some _ => true | None => false end.

(** [object[key] = v]: an existing property keeps its place, a new one
    is added last. *)
Fixpoint setOwn {V : Type} (key : string) (v : V) (o : list (string * V))
  : list (string * V) :=
  match o with
  | [] => [(key, v)]
  | (k, w) :: o' =>
      if String.eqb k key then (k, v) :: o' else (k, w) :: setOwn key v o'
  end.

Definition keys {V : Type} (o : list (string * V)) : list string := o.*1.

(** lodash [has(object, path)] for a path given as an array of keys:
    every step must find an own property.  A primitive has none of the
    keys this module asks for. *)
Fixpoint has (v : value) (path : list string) : bool :=
  match path with
  | [] => false
  | key :: rest =>
      match v with
      | Obj o =>
          match getOwn key o with
          | Some v' => match rest with [] => true | _ => has v' rest end
          | None => false
          end
      | Prim _ => false
      end
  end.

(** lodash [get(object, path)]: [undefined] when the path does not
    resolve. *)
Fixpoint get (v : value) (path : list string) : value :=
  match path with
  | [] => undefined
  | key :: rest =>
      match v with
      | Obj o =>
          match getOwn key o with
          | Some v' => match rest with [] => v' | _ => get v' rest end
          | None => undefined
          end
      | Prim _ => undefined
      end
  end.

End JsObject.

(** ** [compileStyleValue] *)

Definition VARIABLE_REFERENCE_PREFIX : string := "var:".
Definition VARIABLE_PATH_SEPARATOR_TOKEN_ATTRIBUTE : string := "|".
Definition VARIABLE_PATH_SEPARATOR_TOKEN_STYLE : string := "--".

(** The one character of the attribute separator. *)
Definition bar : ascii := "|"%char.

(** lodash's [startsWith] first converts its argument to a string; the
    conversion of [undefined] and [null] is the empty string, of a boolean
    "true" or "false", of a number its decimal form and of a plain object
    "[object Object]", none of which starts with "var:".  Only a string can
    take the first branch. *)
Definition compileStyleValue (uncompiledValue : value) : value :=
  match uncompiledValue with
  | Prim (PStr s) =>
      if JsString.startsWith s VARIABLE_REFERENCE_PREFIX then
        let variable :=
          JsString.join VARIABLE_PATH_SEPARATOR_TOKEN_STYLE
            (JsString.split VARIABLE_PATH_SEPARATOR_TOKEN_ATTRIBUTE
               (JsString.slice (String.length VARIABLE_REFERENCE_PREFIX) s)) in
        Str ("var(--wp--" ++ variable ++ ")")
      else uncompiledValue
  | _ => uncompiledValue
  end.

(** ** [getInlineStyles] *)

Definition mappings : list (string * list string) :=
  [ ("lineHeight", ["typography"; "lineHeight"]);
    ("fontSize", ["typography"; "fontSize"]);
    ("background", ["color"; "gradient"]);
    ("backgroundColor", ["color"; "background"]);
    ("color", ["color"; "text"]);
    ("--wp--color--link", ["color"; "link"]) ].

(** One turn of the [forEach] over [Object.entries( mappings )]. *)
Definition inlineStyleStep (styles : value) (output : object)
    (entry : string * list string) : object :=
  let '(styleKey, objectKey) := entry in
  if JsObject.has styles objectKey
  then JsObject.setOwn styleKey
         (compileStyleValue (JsObject.get styles objectKey)) output
  else output.

(** The default parameter [styles = {}] replaces [undefined] only. *)
Definition getInlineStyles (styles : value) : object :=
  let styles := match styles with undefined => Obj [] | _ => styles end in
  fold_left (inlineStyleStep styles) mappings [].

(** ** lodash [merge] on plain data *)

Module Lodash.
Import JsObject.

(** [eq(a, b)] (SameValueZero) between an existing property value and a
    primitive. *)
Definition prim_eqb (a b : prim) : bool :=
  match a, b with
  | PUndefined, PUndefined => true
  | PNull, PNull => true
  | PBool x, PBool y => Bool.eqb x y
  | PNum x, PNum y => Z.eqb x y
  | PStr x, PStr y => String.eqb x y
  | _, _ => false
  end.

Definition eq_prim (objValue : option value) (p : prim) : bool :=
  match objValue with
  | Some (Prim q) => prim_eqb q p
  | Some (Obj _) => false
  | None => prim_eqb PUndefined p
  end.

(** [assignMergeValue(object, key, value)]: an [undefined] value is
    assigned only when the key is not in the object; any other value is
    assigned unless the object already holds it.  An object value here is
    always the [newValue] of [baseMergeDeep]; when it is the object the
    destination already holds (merged in place) the assignment is
    skipped, which leaves the same contents as assigning it. *)
Definition assignMergeValue (obj : object) (key : string) (v : value)
  : object :=
  match v with
  | Prim PUndefined =>
      if hasOwn key obj then obj else setOwn key v obj
  | Prim p =>
      if eq_prim (getOwn key obj) p then obj else setOwn key v obj
  | Obj _ => setOwn key v obj
  end.

(** The object [baseMergeDeep] merges a plain source object into: the
    destination's own value when that is an object, a new empty object
    otherwise. *)
Definition mergeTarget (objValue : option value) : object :=
  match objValue with
  | Some (Obj o) => o
  | _ => []
  end.

(** The value a source property leaves at its key: a primitive is taken
    as it is, a plain object is merged, property by property, into
    [mergeTarget]. *)
Fixpoint baseMergeDeep (objValue : option value) (srcValue : value)
  {struct srcValue} : value :=
  match srcValue with
  | Prim _ => srcValue
  | Obj source =>
      Obj (fold_left
             (fun obj kv =>
                assignMergeValue obj (fst kv)
                  (baseMergeDeep (getOwn (fst kv) obj) (snd kv)))
             source (mergeTarget objValue))
  end.

(** One turn of [baseFor(source, ...)] in [baseMerge]. *)
Definition mergeStep (obj : object) (kv : string * value) : object :=
  assignMergeValue obj (fst kv)
    (baseMergeDeep (getOwn (fst kv) obj) (snd kv)).

Definition baseMerge (obj source : object) : object :=
  fold_left mergeStep source obj.

(** [merge(object, ...sources)]; a source that is [undefined] is passed
    over. *)
Definition mergeSource (obj : object) (source : option object)
  : object :=
  match source with
  | Some s => baseMerge obj s
  | None => obj
  end.

Definition merge (obj : object) (sources : list (option object))
  : object :=
  fold_left mergeSource sources obj.

End Lodash.

(** ** [withBlockControls]: the merged style of a block *)

Inductive outcome (A : Type) : Type :=
| Returns (a : A)
| TypeError.
Arguments Returns {A} a.
Arguments TypeError {A}.

Definition bind {A B : Type} (m : outcome A) (f : A -> outcome B) : outcome B :=
  match m with
  | Returns a => f a
  | TypeError => TypeError
  end.

(** [props.attributes]: the two attributes the hook reads.  A style layer
    is of type [L]: plain data ([object]) where only its contents matter, a
    reference into the heap where the identity of objects matters. *)
Record AttributesOf (L : Type) : Type := {
  level : value;
  style : option L
}.
Arguments level {L} _.
Arguments style {L} _.

(** [props] of the block's edit component. *)
Record PropsOf (L : Type) : Type := {
  name : string;
  attributes : AttributesOf L
}.
Arguments name {L} _.
Arguments attributes {L} _.

(** An entry of [__experimentalGlobalStyles]. *)
Record GlobalStylesEntryOf (L : Type) : Type := {
  styles : option L
}.
Arguments styles {L} _.

(** [__experimentalGlobalStyles]: its entries in enumeration order, or
    [None] when the setting is [undefined]. *)
Abbreviation GlobalStylesOf L := (option (list (string * GlobalStylesEntryOf L))).

Abbreviation Attributes := (AttributesOf object).
Abbreviation Props := (PropsOf object).
Abbreviation GlobalStylesEntry := (GlobalStylesEntryOf object).
Abbreviation GlobalStyles := (GlobalStylesOf object).

Definition strictEqNum (v : value) (n : Z) : bool :=
  match v with
  | Prim (PNum m) => Z.eqb m n
  | _ => false
  end.

Definition selectorMapping {L : Type} : list (string * (AttributesOf L -> bool)) :=
  [ ("core/heading/h1", fun a => strictEqNum (level a) 1);
    ("core/heading/h2", fun a => strictEqNum (level a) 2);
    ("core/heading/h3", fun a => strictEqNum (level a) 3);
    ("core/heading/h4", fun a => strictEqNum (level a) 4);
    ("core/heading/h5", fun a => strictEqNum (level a) 5);
    ("core/heading/h6", fun a => strictEqNum (level a) 6) ].

(** [selectorMapping[ selector ]]: the entry the table itself holds for
    the selector.  A selector here extends a block name such as
    "core/heading", which no name of a member inherited from
    [Object.prototype] does. *)
Fixpoint lookupPredicate {L : Type} (selector : string)
    (table : list (string * (AttributesOf L -> bool)))
  : option (AttributesOf L -> bool) :=
  match table with
  | [] => None
  | (k, f) :: rest =>
      if String.eqb k selector then Some f else lookupPredicate selector rest
  end.

(** The condition of the reducer:
    [selector === blockName ||
     ( selector.startsWith( blockName ) &&
       selectorMapping[ selector ]( props.attributes ) )].
    Calling an absent entry of [selectorMapping] raises a [TypeError]. *)
Definition selectorMatches {L : Type} (props : PropsOf L) (selector : string)
  : outcome bool :=
  if String.eqb selector (name props) then Returns true
  else if JsString.startsWith selector (name props) then
    match lookupPredicate selector selectorMapping with
    | Some predicate => Returns (predicate (attributes props))
    | None => TypeError
    end
  else Returns false.

(** The reducer passed to lodash [reduce]. *)
Definition reducer (props : Props) (accumulator : object)
    (entry : string * GlobalStylesEntry) : outcome object :=
  let '(selector, value) := entry in
  bind (selectorMatches props selector) (fun matched =>
    if matched
    then Returns (Lodash.merge accumulator [styles value])
    else Returns accumulator).

(** lodash [reduce(collection, iteratee, accumulator)] over the own
    properties of an object; a throwing iteratee ends the reduction. *)
Fixpoint reduce {A B : Type} (iteratee : B -> string * A -> outcome B)
    (collection : list (string * A)) (accumulator : B) : outcome B :=
  match collection with
  | [] => Returns accumulator
  | entry :: rest =>
      bind (iteratee accumulator entry) (reduce iteratee rest)
  end.

Definition globalBlockSpecificStyles (props : Props)
    (__experimentalGlobalStyles : GlobalStyles) : outcome object :=
  match __experimentalGlobalStyles with
  | Some entries => reduce (reducer props) entries []
  | None => Returns []
  end.

(** [x || {}] for a layer that may be [undefined]. *)
Definition orEmpty (x : option object) : object :=
  match x with Some o => o | None => [] end.

(** [__experimentalGlobalStyles?.global?.styles]. *)
Fixpoint entryOf {L : Type} (key : string)
    (entries : list (string * GlobalStylesEntryOf L))
  : option (GlobalStylesEntryOf L) :=
  match entries with
  | [] => None
  | (k, e) :: rest => if String.eqb k key then Some e else entryOf key rest
  end.

Definition globalLayer {L : Type} (__experimentalGlobalStyles : GlobalStylesOf L)
  : option L :=
  match __experimentalGlobalStyles with
  | Some entries =>
      match entryOf "global" entries with
      | Some e => styles e
      | None => None
      end
  | None => None
  end.

(** The callback of [useMemo] in [withBlockControls]: the effective style
    of the block ([computeEffectiveStyle] in the specification).  Its four
    inputs are the block ([props]), the selector map and the global layer
    (both in [__experimentalGlobalStyles]) and the style inherited through
    [GlobalStylesContext]. *)
Definition globalStylesBlock (props : Props)
    (__experimentalGlobalStyles : GlobalStyles)
    (globalStylesContext : option object) : outcome object :=
  bind (globalBlockSpecificStyles props __experimentalGlobalStyles)
    (fun specific =>
       Returns
         (Lodash.merge []
            [ Some (orEmpty (globalLayer __experimentalGlobalStyles));
              Some (orEmpty globalStylesContext);
              Some specific;
              Some (orEmpty (style (attributes props))) ])).

(** ** Layers as data: well-formed objects, leaves and silence *)

(** The keys of an object are pairwise distinct, at every depth. *)
Fixpoint wf (v : value) : bool :=
  match v with
  | Prim _ => true
  | Obj o => bool_decide (NoDup o.*1) && forallb (fun kv => wf kv.2) o
  end.

Definition wfLayer (x : option object) : bool :=
  match x with Some o => wf (Obj o) | None => true end.

(** The layer defines the value [p] at the leaf [path]. *)
Definition defines (layer : object) (path : list string) (p : prim) : Prop :=
  JsObject.get (Obj layer) path = Prim p /\ p <> PUndefined.

(** The layer says nothing along [path]: walking the path ends at a
    missing property (or one that is [undefined]) before the path is
    used up. *)
Fixpoint silent (v : value) (path : list string) : bool :=
  match path with
  | [] => false
  | key :: rest =>
      match v with
      | Obj o =>
          match JsObject.getOwn key o with
          | None => true
          | Some (Prim PUndefined) => true
          | Some (Prim _) => false
          | Some (Obj _ as v') =>
              match rest with [] => false | _ => silent v' rest end
          end
      | Prim _ => false
      end
  end.

Definition wfGlobalStyles (__experimentalGlobalStyles : GlobalStyles) : bool :=
  match __experimentalGlobalStyles with
  | Some entries => forallb (fun e => wfLayer (styles e.2)) entries
  | None => true
  end.

(** The four layers [merge] receives in [globalStylesBlock], lowest
    precedence first; [specific] is the value of
    [globalBlockSpecificStyles]. *)
Definition layersOf (props : Props) (__experimentalGlobalStyles : GlobalStyles)
    (globalStylesContext : option object) (specific : object) : list object :=
  [ orEmpty (globalLayer __experimentalGlobalStyles);
    orEmpty globalStylesContext;
    specific;
    orEmpty (style (attributes props)) ].

(** ** [addSaveProps] *)

(** The props of the saved element: its [style] and everything else. *)
Record ElementProps : Type := {
  elementStyle : option object;
  elementRest : object
}.

(** [{ ...target, ...source }], one source at a time: the own properties
    of the source are assigned in order; spreading [undefined] adds
    nothing. *)
Definition spreadInto (target : object) (source : option object) : object :=
  fold_left (fun t kv => JsObject.setOwn kv.1 kv.2 t) (orEmpty source) target.

(** [const { style } = attributes], as the argument of [getInlineStyles]. *)
Definition styleAttribute (attributes : Attributes) : value :=
  match style attributes with
  | Some o => Obj o
  | None => undefined
  end.

Section BlockSupport.
(** [hasBlockSupport] and the three support keys come from modules that
    are not part of this file ([@wordpress/blocks], [./color],
    [./line-height], [./font-size]). *)
Variable BlockType : Type.
Variable hasBlockSupport : BlockType -> string -> bool.
Variables COLOR_SUPPORT_KEY LINE_HEIGHT_SUPPORT_KEY FONT_SIZE_SUPPORT_KEY : string.

Definition styleSupportKeys : list string :=
  [COLOR_SUPPORT_KEY; LINE_HEIGHT_SUPPORT_KEY; FONT_SIZE_SUPPORT_KEY].

Definition hasStyleSupport (blockType : BlockType) : bool :=
  existsb (fun key => hasBlockSupport blockType key) styleSupportKeys.

(** [props.style] is replaced in place and [props] is returned. *)
Definition addSaveProps (props : ElementProps) (blockType : BlockType)
    (attributes : Attributes) : ElementProps :=
  if negb (hasStyleSupport blockType) then props
  else
    {| elementStyle :=
         Some (spreadInto
                 (spreadInto [] (Some (getInlineStyles (styleAttribute attributes))))
                 (elementStyle props));
       elementRest := elementRest props |}.

End BlockSupport.

(** Whether the reducer takes an entry: the condition holds and nothing
    is thrown. *)
Definition contributes {L : Type} (props : PropsOf L) (selector : string) : bool :=
  match selectorMatches props selector with
  | Returns true => true
  | _ => false
  end.

(** The nesting depth of plain data. *)
Fixpoint depth (v : value) : nat :=
  match v with
  | Prim _ => 0
  | Obj o => S (fold_right (fun kv m => Nat.max (depth kv.2) m) 0 o)
  end.

(** The depth of a layer that may be absent, counted as [x || {}]. *)
Definition depthLayer (x : option object) : nat :=
  match x with Some o => depth (Obj o) | None => 1 end.

(** A bound on the depth of the layers of the entries. *)
Definition depthEntries (ps : list (string * GlobalStylesEntryOf object)) : nat :=
  fold_right (fun pe m => depthLayer (styles pe.2) + m) 0 ps.

(** ** Objects with identity: lodash [merge] in place *)

(** [merge] changes its first argument in place, and a style layer is an
    object that other parts of the editor hold as well.  Here objects live
    in a heap: a property holds a primitive or a reference, [merge] writes
    to the objects it is given, and an object literal allocates. *)
Module Heap.
Import JsObject.

Definition loc := nat.

Inductive hval : Type :=
| HPrim (p : prim)
| HRef (l : loc).

Abbreviation hobject := (list (string * hval)).
Abbreviation heap := (list (list (string * hval))).

(** An object literal: a new object after the existing ones. *)
Definition alloc (h : heap) (o : hobject) : heap * loc :=
  (h ++ [o], length h).

(** [object[key]] on the object at [l]. *)
Definition getProp (h : heap) (l : loc) (key : string) : option hval :=
  match h !! l with
  | Some o => getOwn key o
  | None => None
  end.

(** [object[key] = v] on the object at [l]. *)
Definition setProp (h : heap) (l : loc) (key : string) (v : hval) : heap :=
  match h !! l with
  | Some o => <[l := setOwn key v o]> h
  | None => h
  end.

(** [eq(object[key], value)]: primitives by value, objects by identity. *)
Definition sameValueZero (objValue : option hval) (v : hval) : bool :=
  match objValue, v with
  | Some (HPrim p), HPrim q => Lodash.prim_eqb p q
  | Some (HRef l), HRef l' => Nat.eqb l l'
  | None, HPrim q => Lodash.prim_eqb PUndefined q
  | _, _ => false
  end.

Definition assignMergeValue (h : heap) (object : loc) (key : string)
    (v : hval) : heap :=
  match v with
  | HPrim PUndefined =>
      match getProp h object key with
      | Some _ => h
      | None => setProp h object key v
      end
  | _ =>
      if sameValueZero (getProp h object key) v then h
      else setProp h object key v
  end.

(** [baseMergeDeep] for a source value that is a plain object: merge it
    into the destination's own object at [key] when there is one, into a
    new object otherwise, then assign.  [mergeFunc] is [baseMerge]. *)
Definition baseMergeDeep (mergeFunc : heap -> loc -> loc -> option heap)
    (h : heap) (object : loc) (key : string) (srcValue : loc) : option heap :=
  match getProp h object key with
  | Some (HRef objValue) =>
      match mergeFunc h objValue srcValue with
      | Some h' => Some (assignMergeValue h' object key (HRef objValue))
      | None => None
      end
  | _ =>
      let '(h1, newValue) := alloc h [] in
      match mergeFunc h1 newValue srcValue with
      | Some h2 => Some (assignMergeValue h2 object key (HRef newValue))
      | None => None
      end
  end.

(** One turn of [baseFor(source, ...)]: the value is read from the source
    when its key is visited. *)
Definition mergeProperty (mergeFunc : heap -> loc -> loc -> option heap)
    (h : heap) (object source : loc) (key : string) : option heap :=
  match getProp h source key with
  | Some (HRef srcValue) => baseMergeDeep mergeFunc h object key srcValue
  | Some (HPrim p) => Some (assignMergeValue h object key (HPrim p))
  | None => Some (assignMergeValue h object key (HPrim PUndefined))
  end.

Definition mergeProperties (mergeFunc : heap -> loc -> loc -> option heap)
    (object source : loc) (sourceKeys : list string) (h : heap) : option heap :=
  fold_left
    (fun acc key =>
       match acc with
       | Some h' => mergeProperty mergeFunc h' object source key
       | None => None
       end)
    sourceKeys (Some h).

(** [baseMerge(object, source)].  The recursion follows the nesting of the
    source; [fuel] bounds its depth, and [None] means that the bound was
    reached (or that a reference points nowhere).  lodash's stack of
    sources in progress, which only matters for cyclic data, is left
    out. *)
Fixpoint baseMerge (fuel : nat) (h : heap) (object source : loc)
  : option heap :=
  match fuel with
  | O => None
  | S fuel' =>
      if Nat.eqb object source then Some h
      else
        match h !! source with
        | Some props =>
            mergeProperties (baseMerge fuel') object source (keys props) h
        | None => None
        end
  end.

(** [merge(object, ...sources)]; an [undefined] source is passed over. *)
Definition merge (fuel : nat) (h : heap) (object : loc)
    (sources : list (option loc)) : option heap :=
  fold_left
    (fun acc source =>
       match acc, source with
       | Some h', Some s => baseMerge fuel h' object s
       | _, _ => acc
       end)
    sources (Some h).

Inductive run (A : Type) : Type :=
| Done (a : A)
| Thrown
| Stuck.
Arguments Done {A} a.
Arguments Thrown {A}.
Arguments Stuck {A}.

(** The reduction of [__experimentalGlobalStyles]: the accumulator is one
    object, changed in place by each entry that is taken. *)
Fixpoint reduceEntries (fuel : nat) (props : PropsOf loc)
    (entries : list (string * GlobalStylesEntryOf loc))
    (accumulator : loc) (h : heap) : run heap :=
  match entries with
  | [] => Done h
  | (selector, value) :: rest =>
      match selectorMatches props selector with
      | TypeError => Thrown
      | Returns false => reduceEntries fuel props rest accumulator h
      | Returns true =>
          match merge fuel h accumulator [styles value] with
          | Some h' => reduceEntries fuel props rest accumulator h'
          | None => Stuck
          end
      end
  end.

Definition runGlobalBlockSpecificStyles (fuel : nat) (props : PropsOf loc)
    (__experimentalGlobalStyles : GlobalStylesOf loc) (h : heap)
  : run (heap * loc) :=
  let '(h0, accumulator) := alloc h [] in
  match __experimentalGlobalStyles with
  | Some entries =>
      match reduceEntries fuel props entries accumulator h0 with
      | Done h1 => Done (h1, accumulator)
      | Thrown => Thrown
      | Stuck => Stuck
      end
  | None => Done (h0, accumulator)
  end.

(** [x || {}]: the layer itself, or a new empty object. *)
Definition orNew (h : heap) (x : option loc) : heap * loc :=
  match x with
  | Some l => (h, l)
  | None => alloc h []
  end.

(** The callback of [useMemo], on the heap: the heap it leaves and the
    object it returns. *)
Definition runGlobalStylesBlock (fuel : nat) (props : PropsOf loc)
    (__experimentalGlobalStyles : GlobalStylesOf loc)
    (globalStylesContext : option loc) (h : heap) : run (heap * loc) :=
  match runGlobalBlockSpecificStyles fuel props __experimentalGlobalStyles h with
  | Done (h1, specific) =>
      let '(h2, dest) := alloc h1 [] in
      let '(h3, g) := orNew h2 (globalLayer __experimentalGlobalStyles) in
      let '(h4, a) := orNew h3 globalStylesContext in
      let '(h5, l) := orNew h4 (style (attributes props)) in
      match merge fuel h5 dest [Some g; Some a; Some specific; Some l] with
      | Some h6 => Done (h6, dest)
      | None => Stuck
      end
  | Thrown => Thrown
  | Stuck => Stuck
  end.

(** The object graph under [hv] in the heap [h] is the plain data [v].
    [F] bounds the objects it is made of: every object belongs to one
    parent only, under one key only. *)
#[warnings="-register-all"]
Inductive tree (h : heap) : hval -> value -> (loc -> Prop) -> Prop :=
| tree_prim p F : tree h (HPrim p) (Prim p) F
| tree_obj l props o F (owner : string -> loc -> Prop) :
    h !! l = Some props ->
    F l ->
    NoDup (keys props) ->
    Forall2 (fun hp vp => hp.1 = vp.1 /\ tree h hp.2 vp.2 (owner hp.1)) props o ->
    (forall k x, owner k x -> F x /\ x <> l) ->
    (forall k k' x, k <> k' -> owner k x -> owner k' x -> False) ->
    tree h (HRef l) (Obj o) F.

(** A layer that may be absent, in the heap (among the objects before
    [n]) and as plain data. *)
Definition layerIs (n : nat) (h : heap) (x : option loc) (o : option object)
  : Prop :=
  match x, o with
  | Some l, Some o' => tree h (HRef l) (Obj o') (fun x => x < n)
  | None, None => True
  | _, _ => False
  end.

Definition propsAre (n : nat) (h : heap) (p : PropsOf loc) (q : Props) : Prop :=
  name p = name q
  /\ level (attributes p) = level (attributes q)
  /\ layerIs n h (style (attributes p)) (style (attributes q)).

Definition entriesAre (n : nat) (h : heap)
    (hs : list (string * GlobalStylesEntryOf loc))
    (ps : list (string * GlobalStylesEntry)) : Prop :=
  Forall2 (fun he pe => he.1 = pe.1 /\ layerIs n h (styles he.2) (styles pe.2))
    hs ps.

Definition globalStylesAre (n : nat) (h : heap) (x : GlobalStylesOf loc)
    (y : GlobalStyles) : Prop :=
  match x, y with
  | Some hs, Some ps => entriesAre n h hs ps
  | None, None => True
  | _, _ => False
  end.

(** The inputs of [globalStylesBlock] as objects of the heap [h] stand
    for the plain inputs. *)
Definition inputsAre (h : heap) (props : PropsOf loc)
    (egs : GlobalStylesOf loc) (ctx : option loc)
    (pprops : Props) (pegs : GlobalStyles) (pctx : option object) : Prop :=
  propsAre (length h) h props pprops
  /\ globalStylesAre (length h) h egs pegs
  /\ layerIs (length h) h ctx pctx.

(** The fuel covers the depth of every layer that is merged. *)
Definition enoughFuel (fuel : nat) (pprops : Props) (pegs : GlobalStyles)
    (pctx : option object) : Prop :=
  depthLayer (style (attributes pprops)) <= fuel
  /\ depthLayer pctx <= fuel
  /\ match pegs with
     | Some ps => Forall (fun pe => depthLayer (styles pe.2) <= fuel) ps
     | None => True
     end
  /\ forall specific,
       globalBlockSpecificStyles pprops pegs = Returns specific ->
       depth (Obj specific) <= fuel.

(** The properties of an object in the heap against those of plain data:
    the same keys in the same order, and under each key a [tree] within
    the bound [owner] gives for the key. *)
Definition fieldsAre (h : heap) (owner : string -> loc -> Prop)
    (props : hobject) (o : object) : Prop :=
  Forall2 (fun hp vp => hp.1 = vp.1 /\ tree h hp.2 vp.2 (owner hp.1)) props o.

(** The objects allocated between two heaps. *)
Definition fresh (h h' : heap) (x : loc) : Prop :=
  length h <= x < length h'.

(** The heap [h'] is the heap [h] after a merge into the object at [d]:
    [d] now holds [result], within its old bound and the new objects,
    and nothing outside the old bound has changed. *)
Definition mergedInto (h : heap) (d : loc) (F : loc -> Prop)
    (result : object) (h' : heap) : Prop :=
  length h <= length h'
  /\ tree h' (HRef d) (Obj result) (fun x => F x \/ fresh h h' x)
  /\ forall x, x < length h -> ~ F x -> h' !! x = h !! x.

(** [mergeFunc] merges, in place, every source of depth up to [bound]
    that is apart from the destination, as [Lodash.baseMerge] does on
    plain data. *)
Definition merges (mergeFunc : heap -> loc -> loc -> option heap)
    (bound : nat) : Prop :=
  forall vs vd h d s F Fs,
    depth (Obj vs) <= bound ->
    tree h (HRef s) (Obj vs) Fs ->
    tree h (HRef d) (Obj vd) F ->
    (forall x, Fs x -> x < length h) ->
    (forall x, F x -> x < length h) ->
    (forall x, Fs x -> F x -> False) ->
    exists h',
      mergeFunc h d s = Some h'
      /\ mergedInto h d F (Lodash.baseMerge vd vs) h'.

(** From [n] on, objects refer to objects from [n] on only. *)
Definition closedAbove (n : nat) (h : heap) : Prop :=
  forall l props k l',
    n <= l -> h !! l = Some props -> (k, HRef l') ∈ props -> n <= l'.

(** [h'] comes from [h] by writes from [n] on and by allocation. *)
Definition framed (n : nat) (h h' : heap) : Prop :=
  closedAbove n h'
  /\ length h <= length h'
  /\ forall l, l < n -> h' !! l = h !! l.

(** What the recursive calls are assumed to do, and what [baseMerge] is
    then shown to do. *)
Definition framing (n : nat) (mergeFunc : heap -> loc -> loc -> option heap)
  : Prop :=
  forall h d s h',
    n <= d -> n <= length h -> closedAbove n h ->
    mergeFunc h d s = Some h' -> framed n h h'.

End Heap.

(** ** The filters on block settings *)

(** JavaScript's truthiness, as [!] and [if] apply it. *)
Definition truthy (v : value) : bool :=
  match v with
  | Prim PUndefined => false
  | Prim PNull => false
  | Prim (PBool b) => b
  | Prim (PNum n) => negb (Z.eqb n 0)
  | Prim (PStr s) => negb (String.eqb s EmptyString)
  | Obj _ => true
  end.

(** A string with every "|" replaced by "--". *)
Fixpoint replaceBars (s : string) : string :=
  match s with
  | EmptyString => EmptyString
  | String c s' =>
      if Ascii.eqb c bar
      then String "-" (String "-" (replaceBars s'))
      else String c (replaceBars s')
  end.

Section BlockSettings.
(** As for [addSaveProps], [hasBlockSupport] and the support keys are
    taken as given. *)
Variable BlockType : Type.
Variable hasBlockSupport : BlockType -> string -> bool.
Variables COLOR_SUPPORT_KEY LINE_HEIGHT_SUPPORT_KEY FONT_SIZE_SUPPORT_KEY : string.

(** The block settings the two [blocks.registerBlockType] filters receive.
    [settingsType] is what [hasBlockSupport] looks at (the block's
    [supports]); beside it are the two properties the filters write:
    [settings.attributes] ([None] when the settings have none) and
    [settings.getEditWrapperProps] ([None] when it is [undefined]). *)
Record Settings : Type := {
  settingsType : BlockType;
  settingsAttributes : option object;
  getEditWrapperProps : option (Attributes -> ElementProps)
}.

(** [{ type: 'object' }], the definition given to the [style] attribute. *)
Definition styleAttributeDefinition : value := Obj [("type", Str "object")].

(** [settings.attributes.style], [undefined] when there is no such
    property. *)
Definition attributeStyle (attrs : object) : value :=
  match JsObject.getOwn "style" attrs with
  | Some v => v
  | None => undefined
  end.

(** [addAttribute( settings )].  Reading [settings.attributes.style] when
    [settings.attributes] is [undefined] raises a [TypeError];
    [Object.assign] writes the property in place. *)
Definition addAttribute (settings : Settings) : outcome Settings :=
  if negb (hasStyleSupport BlockType hasBlockSupport COLOR_SUPPORT_KEY
             LINE_HEIGHT_SUPPORT_KEY FONT_SIZE_SUPPORT_KEY (settingsType settings))
  then Returns settings
  else
    match settingsAttributes settings with
    | None => TypeError
    | Some attrs =>
        if negb (truthy (attributeStyle attrs))
        then Returns
               {| settingsType := settingsType settings;
                  settingsAttributes :=
                    Some (JsObject.setOwn "style" styleAttributeDefinition attrs);
                  getEditWrapperProps := getEditWrapperProps settings |}
        else Returns settings
    end.

(** [let props = {}]. *)
Definition emptyProps : ElementProps :=
  {| elementStyle := None; elementRest := [] |}.

(** The function [addEditProps] stores in [settings.getEditWrapperProps]. *)
Definition editWrapperProps (settings : Settings) (attributes : Attributes)
  : ElementProps :=
  let props :=
    match getEditWrapperProps settings with
    | Some existingGetEditWrapperProps => existingGetEditWrapperProps attributes
    | None => emptyProps
    end in
  addSaveProps BlockType hasBlockSupport COLOR_SUPPORT_KEY
    LINE_HEIGHT_SUPPORT_KEY FONT_SIZE_SUPPORT_KEY
    props (settingsType settings) attributes.

(** [addEditProps( settings )]. *)
Definition addEditProps (settings : Settings) : Settings :=
  if negb (hasStyleSupport BlockType hasBlockSupport COLOR_SUPPORT_KEY
             LINE_HEIGHT_SUPPORT_KEY FONT_SIZE_SUPPORT_KEY (settingsType settings))
  then settings
  else
    {| settingsType := settingsType settings;
       settingsAttributes := settingsAttributes settings;
       getEditWrapperProps := Some (editWrapperProps settings) |}.

End BlockSettings.

Arguments settingsType {BlockType} _.
Arguments settingsAttributes {BlockType} _.
Arguments getEditWrapperProps {BlockType} _.

(** ** The mobile toolbar of a block *)

Module BlockMobileToolbar.








End BlockMobileToolbar.

(** ** Auxiliary notions and sample data *)

(** What a source property leaves at its key, from the value the
    destination had there. *)
Definition mergedValue (objValue : option value) (srcValue : value)
  : option value :=
  match srcValue with
  | Prim PUndefined =>
      match objValue with Some _ => objValue | None => Some srcValue end
  | _ => Some (Lodash.baseMergeDeep objValue srcValue)
  end.

Definition silentLayer (x : option object) (path : list string) : bool :=
  match x with Some o => silent (Obj o) path | None => true end.

(** A layer with one leaf, [{ k1: { k2: v } }]. *)
Definition L1 (k1 k2 : string) (v : string) : object := [(k1, Obj [(k2, Str v)])].

Definition sampleHeading (lvl : Z) (local : option object) : Props :=
  {| name := "core/heading";
     attributes := {| level := Num lvl; style := local |} |}.

Definition sampleGlobalStyles : GlobalStyles :=
  Some [("global", {| styles := Some (L1 "color" "text" "red") |});
        ("core/heading", {| styles := Some (L1 "color" "text" "green") |})].

(** A block type of the editor, as far as this hook looks at it: the
    support keys it declares. *)
Definition sampleSupports (blockType : list string) (key : string) : bool :=
  existsb (String.eqb key) blockType.

Definition sampleHeap : Heap.heap :=
  [ [("color", Heap.HRef 1)];
    [("text", Heap.HPrim (PStr "purple"))];
    [("color", Heap.HRef 3)];
    [("text", Heap.HPrim (PStr "red")); ("link", Heap.HPrim (PStr "blue"))] ].

Definition sampleHeapProps : PropsOf Heap.loc :=
  {| name := "core/paragraph";
     attributes := {| level := undefined; style := Some 0 |} |}.

Definition sampleHeapStyles : GlobalStylesOf Heap.loc :=
  Some [("global", {| styles := Some 2 |})].

(** Sample settings: a block type that declares colour support, and the
    filters at the support keys the editor uses. *)
Definition sampleSettings : Settings (list string) :=
  {| settingsType := ["__experimentalColor"];
     settingsAttributes := Some [("content", Obj [("type", Str "string")])];
     getEditWrapperProps :=
       Some (fun _ => {| elementStyle := Some [("color", Str "black")];
                         elementRest := [("data-align", Str "wide")] |}) |}.

Definition sampleAddAttribute :=
  addAttribute (list string) sampleSupports
    "__experimentalColor" "__experimentalLineHeight" "__experimentalFontSize".

Definition sampleAddEditProps :=
  addEditProps (list string) sampleSupports
    "__experimentalColor" "__experimentalLineHeight" "__experimentalFontSize".

Definition sampleEditWrapperProps :=
  editWrapperProps (list string) sampleSupports
    "__experimentalColor" "__experimentalLineHeight" "__experimentalFontSize".

Definition sampleAttributes : Attributes :=
  {| level := undefined;
     style := Some [("color", Obj [("text", Str "var:a|b");
                                   ("background", Str "#fff")])] |}.

(** * Properties *)

Example compile_font_size :
  compileStyleValue (Str "var:typography|fontSize")
  = Str "var(--wp--typography--fontSize)".
Proof. reflexivity. Qed.

Example inline_styles_sample :
  getInlineStyles
    (Obj [("color", Obj [("text", Str "var:colors|primary");
                         ("background", Str "#fff")]);
          ("typography", Obj [("lineHeight", Num 2)])])
  = [("lineHeight", Num 2);
     ("backgroundColor", Str "#fff");
     ("color", Str "var(--wp--colors--primary)")].
Proof. reflexivity. Qed.

Example precedence_sample :
  globalStylesBlock
    {| name := "core/heading";
       attributes := {| level := Num 2; style := Some (L1 "color" "text" "purple") |} |}
    (Some [("global", {| styles := Some (L1 "color" "text" "red") |});
           ("core/heading/h2", {| styles := Some (L1 "color" "text" "green") |});
           ("core/heading/h3", {| styles := Some (L1 "color" "text" "yellow") |})])
    (Some (L1 "color" "text" "blue"))
  = Returns (L1 "color" "text" "purple").
Proof. reflexivity. Qed.

(** ** Strings: prefix, split and join *)

Section StringFacts.
Import JsString.

Lemma substring_0_0 s : substring 0 0 s = EmptyString.
Proof. destruct s; reflexivity. Qed.

Lemma startsWith_var_iff (s : string) :
  startsWith s VARIABLE_REFERENCE_PREFIX = true
  <-> exists rest, s = (VARIABLE_REFERENCE_PREFIX ++ rest)%string.
Proof.
  unfold startsWith, VARIABLE_REFERENCE_PREFIX. rewrite String.eqb_eq. split.
  - destruct s as [|a [|b [|c [|d rest]]]]; simpl; try discriminate.
    rewrite substring_0_0. intros [= -> -> -> ->]. now exists rest.
  - intros [rest ->]. simpl. now rewrite substring_0_0.
Qed.

Lemma slice_prefix (rest : string) :
  slice (String.length VARIABLE_REFERENCE_PREFIX)
    (VARIABLE_REFERENCE_PREFIX ++ rest)%string = rest.
Proof. reflexivity. Qed.

Lemma prefix_bar c s :
  String.prefix VARIABLE_PATH_SEPARATOR_TOKEN_ATTRIBUTE (String c s)
  = Ascii.eqb c bar.
Proof.
  unfold VARIABLE_PATH_SEPARATOR_TOKEN_ATTRIBUTE, bar. cbn [String.prefix].
  destruct (ascii_dec "|" c) as [<-|Hne].
  - now destruct s.
  - symmetry. apply Ascii.eqb_neq. congruence.
Qed.

Lemma split_cons c s :
  split VARIABLE_PATH_SEPARATOR_TOKEN_ATTRIBUTE (String c s)
  = if Ascii.eqb c bar
    then EmptyString :: split VARIABLE_PATH_SEPARATOR_TOKEN_ATTRIBUTE s
    else match split VARIABLE_PATH_SEPARATOR_TOKEN_ATTRIBUTE s with
         | [] => [String c EmptyString]
         | seg :: segs => String c seg :: segs
         end.
Proof.
  unfold split. cbn [split_from]. rewrite prefix_bar. reflexivity.
Qed.

Lemma split_free (x : string) :
  free_of bar x = true ->
  split VARIABLE_PATH_SEPARATOR_TOKEN_ATTRIBUTE x = [x].
Proof.
  induction x as [|c x IH]; [reflexivity|].
  cbn [free_of]. intros [Hc Hx]%andb_prop. rewrite split_cons.
  apply negb_true_iff in Hc. rewrite Hc, (IH Hx). reflexivity.
Qed.

Lemma append_String c (x y : string) :
  (String c x ++ y)%string = String c (x ++ y).
Proof. reflexivity. Qed.

Lemma append_bar (rest : string) :
  (EmptyString ++ VARIABLE_PATH_SEPARATOR_TOKEN_ATTRIBUTE ++ rest)%string
  = String bar rest.
Proof. reflexivity. Qed.

Lemma split_app_bar (x rest : string) :
  free_of bar x = true ->
  split VARIABLE_PATH_SEPARATOR_TOKEN_ATTRIBUTE
    (x ++ VARIABLE_PATH_SEPARATOR_TOKEN_ATTRIBUTE ++ rest)%string
  = x :: split VARIABLE_PATH_SEPARATOR_TOKEN_ATTRIBUTE rest.
Proof.
  induction x as [|c x IH].
  - intros _. rewrite append_bar. now rewrite split_cons.
  - cbn [free_of]. intros [Hc Hx]%andb_prop. rewrite append_String.
    rewrite split_cons. apply negb_true_iff in Hc. rewrite Hc, (IH Hx).
    reflexivity.
Qed.

(** Splitting undoes joining, for pieces that hold no separator. *)
Lemma split_join (segments : list string) :
  segments <> [] ->
  Forall (fun x => free_of bar x = true) segments ->
  split VARIABLE_PATH_SEPARATOR_TOKEN_ATTRIBUTE
    (join VARIABLE_PATH_SEPARATOR_TOKEN_ATTRIBUTE segments) = segments.
Proof.
  induction segments as [|x [|y rest] IH]; [congruence| |].
  - intros _ Hall. inversion Hall; subst. now apply split_free.
  - intros _ Hall. inversion Hall as [|? ? Hx Hrest]; subst.
    change (join VARIABLE_PATH_SEPARATOR_TOKEN_ATTRIBUTE (x :: y :: rest))
      with (x ++ VARIABLE_PATH_SEPARATOR_TOKEN_ATTRIBUTE
              ++ join VARIABLE_PATH_SEPARATOR_TOKEN_ATTRIBUTE (y :: rest))%string.
    rewrite (split_app_bar _ _ Hx), IH; [reflexivity|congruence|assumption].
Qed.

Lemma join_cons_char sep c seg segs :
  join sep (String c seg :: segs) = String c (join sep (seg :: segs)).
Proof. destruct segs; reflexivity. Qed.

(** Joining undoes splitting, and the pieces hold no separator. *)
Lemma join_split (s : string) :
  let segments := split VARIABLE_PATH_SEPARATOR_TOKEN_ATTRIBUTE s in
  segments <> []
  /\ Forall (fun x => free_of bar x = true) segments
  /\ join VARIABLE_PATH_SEPARATOR_TOKEN_ATTRIBUTE segments = s.
Proof.
  induction s as [|c s IH]; cbn zeta in *.
  - repeat split; [discriminate|]. constructor; [reflexivity|constructor].
  - destruct IH as (Hne & Hfree & Hjoin). rewrite split_cons.
    destruct (Ascii.eqb c bar) eqn:Hc.
    + apply Ascii.eqb_eq in Hc. subst c.
      repeat split; [discriminate| |].
      * constructor; [reflexivity|assumption].
      * destruct (split VARIABLE_PATH_SEPARATOR_TOKEN_ATTRIBUTE s) eqn:E;
          [congruence|].
        change (join VARIABLE_PATH_SEPARATOR_TOKEN_ATTRIBUTE
                  (EmptyString :: s0 :: l))
          with (String bar
                  (join VARIABLE_PATH_SEPARATOR_TOKEN_ATTRIBUTE (s0 :: l))).
        now rewrite Hjoin.
    + destruct (split VARIABLE_PATH_SEPARATOR_TOKEN_ATTRIBUTE s)
        as [|seg segs] eqn:E; [congruence|].
      repeat split; [discriminate| |].
      * inversion Hfree; subst. constructor; [|assumption].
        cbn [free_of]. now rewrite Hc.
      * rewrite join_cons_char. now rewrite Hjoin.
Qed.

End StringFacts.

(** ** [compileStyleValue] *)

(** C2.  A string that starts with "var:" is compiled by dropping the
    prefix, cutting the rest at every "|", joining the pieces with "--" and
    wrapping the result in "var(--wp--" and ")": whenever the string is
    "var:" followed by pieces joined with "|" (each piece free of "|"), the
    result is "var(--wp--", the same pieces joined with "--", and ")"; such
    pieces exist for every string with the prefix.  In particular
    "var:typography|fontSize" gives "var(--wp--typography--fontSize)" and
    the bare prefix "var:" gives "var(--wp--)". *)
Theorem compileStyleValue_reference :
  (forall s : string,
      JsString.startsWith s VARIABLE_REFERENCE_PREFIX = true ->
      exists segments : list string,
        s = (VARIABLE_REFERENCE_PREFIX
             ++ JsString.join VARIABLE_PATH_SEPARATOR_TOKEN_ATTRIBUTE segments)%string
        /\ segments <> []
        /\ Forall (fun x => JsString.free_of bar x = true) segments)
  /\ (forall segments : list string,
         segments <> [] ->
         Forall (fun x => JsString.free_of bar x = true) segments ->
         compileStyleValue
           (Str (VARIABLE_REFERENCE_PREFIX
                 ++ JsString.join VARIABLE_PATH_SEPARATOR_TOKEN_ATTRIBUTE segments))
         = Str ("var(--wp--"
                ++ JsString.join VARIABLE_PATH_SEPARATOR_TOKEN_STYLE segments
                ++ ")"))
  /\ compileStyleValue (Str "var:typography|fontSize")
     = Str "var(--wp--typography--fontSize)"
  /\ compileStyleValue (Str "var:") = Str "var(--wp--)".
Proof.
  split; [|split; [|split; reflexivity]].
  - intros s [rest ->]%startsWith_var_iff.
    destruct (join_split rest) as (Hne & Hfree & Hjoin).
    exists (JsString.split VARIABLE_PATH_SEPARATOR_TOKEN_ATTRIBUTE rest).
    now rewrite Hjoin.
  - intros segments Hne Hfree. unfold compileStyleValue.
    assert (Hp : JsString.startsWith
                   (VARIABLE_REFERENCE_PREFIX
                    ++ JsString.join VARIABLE_PATH_SEPARATOR_TOKEN_ATTRIBUTE segments)%string
                   VARIABLE_REFERENCE_PREFIX = true)
      by (apply startsWith_var_iff; eauto).
    rewrite Hp, slice_prefix, split_join by assumption. reflexivity.
Qed.

Lemma compileStyleValue_reference_witness :
  compileStyleValue (Str "var:color|brand|dark")
  = Str "var(--wp--color--brand--dark)".
Proof.
  apply (proj1 (proj2 compileStyleValue_reference) ["color"; "brand"; "dark"]).
  - discriminate.
  - repeat constructor.
Defined.

(** C3.  A string that does not start with "var:" is returned unchanged. *)
Theorem compileStyleValue_literal (s : string) :
  JsString.startsWith s VARIABLE_REFERENCE_PREFIX = false ->
  compileStyleValue (Str s) = Str s.
Proof. intros H. unfold compileStyleValue. now rewrite H. Qed.

Lemma compileStyleValue_literal_witness :
  compileStyleValue (Str "#ff0000") = Str "#ff0000".
Proof. apply compileStyleValue_literal. reflexivity. Defined.

(** Values that are not strings pass through as well. *)
Lemma compileStyleValue_not_string (v : value) :
  (forall s, v <> Str s) -> compileStyleValue v = v.
Proof. destruct v as [[]|]; try reflexivity. intros H. now destruct (H s). Qed.

(** The literal case, read on the text of the string. *)
Lemma compileStyleValue_literal_text (s : string) :
  (forall rest, s <> (VARIABLE_REFERENCE_PREFIX ++ rest)%string) ->
  compileStyleValue (Str s) = Str s.
Proof.
  intros H. unfold compileStyleValue.
  destruct (JsString.startsWith s VARIABLE_REFERENCE_PREFIX) eqn:E; [|reflexivity].
  apply startsWith_var_iff in E as [rest ->]. now destruct (H rest).
Qed.

(** ** Own properties *)

Section ObjectFacts.
Import JsObject.
Context {V : Type}.
Implicit Types (o : list (string * V)) (v w : V).

Lemma getOwn_setOwn_eq key v o :
  getOwn key (setOwn key v o) = Some v.
Proof.
  induction o as [|[k w] o IH]; cbn.
  - now rewrite String.eqb_refl.
  - destruct (String.eqb k key) eqn:E; cbn; now rewrite E.
Qed.

Lemma getOwn_setOwn_ne key key' v o :
  key <> key' -> getOwn key' (setOwn key v o) = getOwn key' o.
Proof.
  intros Hne. induction o as [|[k w] o IH]; cbn.
  - apply String.eqb_neq in Hne. now rewrite Hne.
  - destruct (String.eqb k key) eqn:E; cbn.
    + apply String.eqb_eq in E. subst k.
      apply String.eqb_neq in Hne. now rewrite Hne.
    + now rewrite IH.
Qed.

Lemma getOwn_None_keys key o :
  getOwn key o = None <-> key ∉ keys o.
Proof.
  unfold keys. induction o as [|[k w] o IH]; cbn.
  - split; [intros _; apply not_elem_of_nil|reflexivity].
  - rewrite not_elem_of_cons. destruct (String.eqb k key) eqn:E.
    + apply String.eqb_eq in E. split; [discriminate|intros []; congruence].
    + apply String.eqb_neq in E. rewrite IH. intuition congruence.
Qed.

Lemma getOwn_elem key v o :
  getOwn key o = Some v -> (key, v) ∈ o.
Proof.
  induction o as [|[k w] o IH]; cbn; [discriminate|].
  destruct (String.eqb k key) eqn:E.
  - apply String.eqb_eq in E. intros [= ->]. subst. apply elem_of_cons; auto.
  - intros H. apply elem_of_cons; auto.
Qed.

Lemma elem_getOwn key v o :
  NoDup (keys o) -> (key, v) ∈ o -> getOwn key o = Some v.
Proof.
  unfold keys. induction o as [|[k w] o IH]; cbn.
  - intros _ H. now apply elem_of_nil in H.
  - intros [Hk Hnd]%NoDup_cons [[= -> ->]|Hin]%elem_of_cons.
    + now rewrite String.eqb_refl.
    + destruct (String.eqb k key) eqn:E; [|auto].
      apply String.eqb_eq in E. subst k. destruct Hk.
      apply (list_elem_of_fmap_2 fst _ (key, v)), Hin.
Qed.

Lemma keys_setOwn key v o :
  keys (setOwn key v o)
  = if hasOwn key o then keys o else keys o ++ [key].
Proof.
  unfold hasOwn, keys. induction o as [|[k w] o IH]; cbn; [reflexivity|].
  destruct (String.eqb k key) eqn:E; cbn; [reflexivity|].
  rewrite IH. now destruct (getOwn key o).
Qed.

Lemma NoDup_keys_setOwn key v o :
  NoDup (keys o) -> NoDup (keys (setOwn key v o)).
Proof.
  intros Hnd. rewrite keys_setOwn. unfold hasOwn.
  destruct (getOwn key o) eqn:E; [assumption|].
  apply getOwn_None_keys in E.
  apply NoDup_app; repeat split; [assumption| |apply NoDup_singleton].
  intros x Hx ->%list_elem_of_singleton. contradiction.
Qed.

End ObjectFacts.

(** ** [getInlineStyles] *)

Section InlineStyles.
Import JsObject.
Variable styles : value.

Lemma inline_fold_other (table : list (string * list string)) (out : object) k :
  k ∉ table.*1 ->
  getOwn k (fold_left (inlineStyleStep styles) table out) = getOwn k out.
Proof.
  revert out. induction table as [|[styleKey objectKey] table IH];
    intros out Hk; cbn in *; [reflexivity|].
  apply not_elem_of_cons in Hk as [Hne Hk].
  rewrite IH by assumption.
  destruct (has styles objectKey); [|reflexivity].
  apply getOwn_setOwn_ne. congruence.
Qed.

Lemma inline_fold_entry (table : list (string * list string)) (out : object)
    styleKey objectKey :
  NoDup table.*1 ->
  (styleKey, objectKey) ∈ table ->
  getOwn styleKey (fold_left (inlineStyleStep styles) table out)
  = if has styles objectKey
    then Some (compileStyleValue (get styles objectKey))
    else getOwn styleKey out.
Proof.
  revert out. induction table as [|[k p] table IH]; intros out Hnd Hin;
    cbn in *; [now apply elem_of_nil in Hin|].
  apply NoDup_cons in Hnd as [Hk Hnd].
  apply elem_of_cons in Hin as [[= -> ->]|Hin].
  - rewrite inline_fold_other by assumption.
    destruct (has styles p); [|reflexivity].
    apply getOwn_setOwn_eq.
  - rewrite IH by assumption.
    destruct (has styles objectKey); [reflexivity|].
    destruct (has styles p); [|reflexivity].
    apply getOwn_setOwn_ne. intros ->. apply Hk.
    apply (list_elem_of_fmap_2 fst _ (styleKey, objectKey)), Hin.
Qed.

Lemma inline_fold_NoDup (table : list (string * list string)) (out : object) :
  NoDup (keys out) ->
  NoDup (keys (fold_left (inlineStyleStep styles) table out)).
Proof.
  revert out. induction table as [|[k p] table IH]; intros out Hnd;
    cbn; [assumption|].
  apply IH. destruct (has styles p); [|assumption].
  now apply NoDup_keys_setOwn.
Qed.

End InlineStyles.

Lemma has_default (styles : value) path :
  JsObject.has (match styles with undefined => Obj [] | _ => styles end) path
  = JsObject.has styles path.
Proof. destruct styles as [[]|]; try reflexivity. now destruct path. Qed.

Lemma get_default (styles : value) path :
  JsObject.get (match styles with undefined => Obj [] | _ => styles end) path
  = JsObject.get styles path.
Proof. destruct styles as [[]|]; try reflexivity. now destruct path. Qed.

Lemma mappings_NoDup : NoDup mappings.*1.
Proof. apply (bool_decide_unpack (NoDup mappings.*1)). vm_compute. exact I. Qed.

Lemma getInlineStyles_NoDup (styles : value) :
  NoDup (JsObject.keys (getInlineStyles styles)).
Proof. apply inline_fold_NoDup. constructor. Qed.

(** C4.  For every entry of the table the output of [getInlineStyles]
    holds the output key, with the compiled value found at the semantic
    path, exactly when the path exists in the input; a path that does not
    exist leaves no entry, no key outside the table appears, and no key
    appears twice. *)
Theorem getInlineStyles_table (styles : value) :
  (forall styleKey objectKey,
      (styleKey, objectKey) ∈ mappings ->
      JsObject.getOwn styleKey (getInlineStyles styles)
      = if JsObject.has styles objectKey
        then Some (compileStyleValue (JsObject.get styles objectKey))
        else None)
  /\ (forall key, key ∉ mappings.*1 ->
                  JsObject.getOwn key (getInlineStyles styles) = None)
  /\ NoDup (JsObject.keys (getInlineStyles styles)).
Proof.
  split; [|split; [|apply getInlineStyles_NoDup]]; unfold getInlineStyles.
  - intros styleKey objectKey Hin.
    rewrite (inline_fold_entry _ _ _ _ _ mappings_NoDup Hin).
    now rewrite has_default, get_default.
  - intros key Hkey. now rewrite inline_fold_other.
Qed.

Lemma getInlineStyles_table_witness :
  JsObject.getOwn "color"
    (getInlineStyles (Obj [("color", Obj [("text", Str "var:a|b")])]))
  = Some (Str "var(--wp--a--b)")
  /\ JsObject.getOwn "backgroundColor"
       (getInlineStyles (Obj [("color", Obj [("text", Str "var:a|b")])]))
     = None.
Proof.
  split.
  - apply (proj1 (getInlineStyles_table
                    (Obj [("color", Obj [("text", Str "var:a|b")])]))
             "color" ["color"; "text"]).
    apply list_elem_of_In. cbn. tauto.
  - apply (proj1 (getInlineStyles_table
                    (Obj [("color", Obj [("text", Str "var:a|b")])]))
             "backgroundColor" ["color"; "background"]).
    apply list_elem_of_In. cbn. tauto.
Defined.

(** ** lodash [merge] *)

Section MergeFacts.
Import JsObject Lodash.

Lemma prim_eqb_eq (a b : prim) : prim_eqb a b = true <-> a = b.
Proof.
  destruct a, b; cbn; try (split; [discriminate|congruence]);
    try (split; reflexivity).
  - rewrite Bool.eqb_true_iff. split; congruence.
  - rewrite Z.eqb_eq. split; congruence.
  - rewrite String.eqb_eq. split; congruence.
Qed.

Lemma baseMergeDeep_Obj objValue source :
  baseMergeDeep objValue (Obj source)
  = Obj (baseMerge (mergeTarget objValue) source).
Proof. reflexivity. Qed.

Lemma baseMerge_cons obj kv source :
  baseMerge obj (kv :: source) = baseMerge (mergeStep obj kv) source.
Proof. reflexivity. Qed.

Lemma getOwn_assignMergeValue_ne obj key key' v :
  key <> key' -> getOwn key' (assignMergeValue obj key v) = getOwn key' obj.
Proof.
  intros Hne. unfold assignMergeValue.
  destruct v as [[]|]; repeat case_match;
    auto using getOwn_setOwn_ne.
Qed.

Lemma getOwn_mergeStep_ne obj kv key' :
  kv.1 <> key' -> getOwn key' (mergeStep obj kv) = getOwn key' obj.
Proof. apply getOwn_assignMergeValue_ne. Qed.

Lemma getOwn_mergeStep_eq obj key srcValue :
  getOwn key (mergeStep obj (key, srcValue))
  = mergedValue (getOwn key obj) srcValue.
Proof.
  unfold mergeStep, mergedValue, assignMergeValue, hasOwn, eq_prim. cbn [fst snd].
  destruct srcValue as [p|source]; [|apply getOwn_setOwn_eq].
  destruct p.
  1: { destruct (getOwn key obj) eqn:E; [exact E|apply getOwn_setOwn_eq]. }
  all: cbn [baseMergeDeep];
    destruct (getOwn key obj) as [[q|o']|] eqn:E; cbn;
    [ destruct (prim_eqb q _) eqn:Heq;
      [apply prim_eqb_eq in Heq; subst; exact E|apply getOwn_setOwn_eq]
    | apply getOwn_setOwn_eq
    | apply getOwn_setOwn_eq ].
Qed.

Lemma getOwn_baseMerge_other obj source key :
  key ∉ keys source -> getOwn key (baseMerge obj source) = getOwn key obj.
Proof.
  unfold keys. revert obj.
  induction source as [|[k v] source IH]; intros obj Hk; [reflexivity|].
  cbn in Hk. apply not_elem_of_cons in Hk as [Hne Hk].
  rewrite baseMerge_cons, IH by assumption.
  apply getOwn_mergeStep_ne. cbn. congruence.
Qed.

(** The property a merge leaves at [key] is decided by the source's
    property at [key] and the destination's. *)
Lemma getOwn_baseMerge obj source key :
  NoDup (keys source) ->
  getOwn key (baseMerge obj source)
  = match getOwn key source with
    | Some srcValue => mergedValue (getOwn key obj) srcValue
    | None => getOwn key obj
    end.
Proof.
  unfold keys. revert obj.
  induction source as [|[k v] source IH]; intros obj Hnd; [reflexivity|].
  cbn in Hnd. apply NoDup_cons in Hnd as [Hk Hnd].
  rewrite baseMerge_cons. cbn [getOwn].
  destruct (String.eqb k key) eqn:E.
  - apply String.eqb_eq in E. subst k.
    rewrite getOwn_baseMerge_other by assumption.
    apply getOwn_mergeStep_eq.
  - apply String.eqb_neq in E.
    rewrite IH by assumption.
    now rewrite (getOwn_mergeStep_ne obj (k, v) key E).
Qed.

End MergeFacts.

(** ** Well-formed objects *)

Section WellFormed.
Import JsObject Lodash.

Lemma wf_Obj_cons k v (o : object) :
  wf (Obj ((k, v) :: o)) = true
  <-> (k ∉ keys o) /\ wf v = true /\ wf (Obj o) = true.
Proof.
  unfold keys. cbn. rewrite !andb_true_iff, !bool_decide_eq_true, NoDup_cons.
  tauto.
Qed.

Lemma wf_Obj_nil : wf (Obj []) = true.
Proof. reflexivity. Qed.

Lemma wf_NoDup (o : object) : wf (Obj o) = true -> NoDup (keys o).
Proof. cbn. now intros [H%bool_decide_eq_true _]%andb_true_iff. Qed.

Lemma wf_getOwn (o : object) key v :
  wf (Obj o) = true -> getOwn key o = Some v -> wf v = true.
Proof.
  induction o as [|[k w] o IH]; [discriminate|].
  intros (_ & Hw & Ho)%wf_Obj_cons. cbn.
  destruct (String.eqb k key); [congruence|auto].
Qed.

Lemma wf_setOwn (o : object) key v :
  wf (Obj o) = true -> wf v = true -> wf (Obj (setOwn key v o)) = true.
Proof.
  intros Ho Hv. induction o as [|[k w] o IH]; cbn [setOwn].
  - apply wf_Obj_cons. repeat split; [apply not_elem_of_nil|assumption].
  - apply wf_Obj_cons in Ho as (Hk & Hw & Ho).
    destruct (String.eqb k key) eqn:E.
    + apply wf_Obj_cons. auto.
    + apply wf_Obj_cons. repeat split; [|assumption|auto].
      rewrite keys_setOwn. destruct (hasOwn key o); [assumption|].
      rewrite elem_of_app, list_elem_of_singleton.
      apply String.eqb_neq in E. intuition.
Qed.

Lemma wf_assignMergeValue (o : object) key v :
  wf (Obj o) = true -> wf v = true ->
  wf (Obj (assignMergeValue o key v)) = true.
Proof.
  intros Ho Hv. unfold assignMergeValue.
  destruct v as [[]|]; repeat case_match; auto using wf_setOwn.
Qed.

Lemma wf_mergeTarget objValue :
  (forall v, objValue = Some v -> wf v = true) ->
  wf (Obj (mergeTarget objValue)) = true.
Proof.
  destruct objValue as [[|o]|]; cbn [mergeTarget]; intros H;
    try reflexivity.
  now apply H.
Qed.

(** Merging well-formed data gives well-formed data. *)
Lemma wf_baseMergeDeep srcValue :
  wf srcValue = true ->
  forall objValue,
    (forall v, objValue = Some v -> wf v = true) ->
    wf (baseMergeDeep objValue srcValue) = true.
Proof.
  induction srcValue using value_rect' with
    (Q := fun source =>
            wf (Obj source) = true ->
            forall obj, wf (Obj obj) = true ->
                        wf (Obj (baseMerge obj source)) = true).
  - intros H objValue _. exact H.
  - intros H objValue HobjValue. rewrite baseMergeDeep_Obj.
    apply IHsrcValue; [assumption|]. now apply wf_mergeTarget.
  - intros _ obj Hobj. exact Hobj.
  - intros (_ & Hv & Ho)%wf_Obj_cons obj Hobj. rewrite baseMerge_cons.
    apply IHsrcValue0; [assumption|].
    apply wf_assignMergeValue; [assumption|].
    apply IHsrcValue; [assumption|].
    intros w Hw. cbn in Hw. eapply wf_getOwn; eassumption.
Qed.

Lemma wf_baseMerge obj source :
  wf (Obj obj) = true -> wf (Obj source) = true ->
  wf (Obj (baseMerge obj source)) = true.
Proof.
  intros Hobj Hsource.
  change (wf (baseMergeDeep (Some (Obj obj)) (Obj source)) = true).
  apply wf_baseMergeDeep; [assumption|]. now intros v [= <-].
Qed.

Lemma wf_mergeSource obj source :
  wf (Obj obj) = true -> wfLayer source = true ->
  wf (Obj (mergeSource obj source)) = true.
Proof. destruct source; cbn [mergeSource wfLayer]; auto using wf_baseMerge. Qed.

Lemma wf_merge obj sources :
  wf (Obj obj) = true -> Forall (fun x => wfLayer x = true) sources ->
  wf (Obj (merge obj sources)) = true.
Proof.
  intros Hobj Hall. revert obj Hobj.
  induction Hall as [|x sources Hx _ IH]; intros obj Hobj; [assumption|].
  apply IH. now apply wf_mergeSource.
Qed.

Lemma setOwn_fresh (o : object) key v :
  key ∉ keys o -> setOwn key v o = o ++ [(key, v)].
Proof.
  unfold keys. induction o as [|[k w] o IH]; [reflexivity|].
  cbn. intros [Hne Hk]%not_elem_of_cons.
  destruct (String.eqb k key) eqn:E.
  - apply String.eqb_eq in E. congruence.
  - now rewrite IH.
Qed.

Lemma assignMergeValue_fresh (o : object) key v :
  key ∉ keys o -> assignMergeValue o key v = o ++ [(key, v)].
Proof.
  intros Hk. pose proof (proj2 (getOwn_None_keys key o) Hk) as E.
  unfold assignMergeValue, hasOwn, eq_prim. rewrite E.
  destruct v as [[]|]; cbn; now apply setOwn_fresh.
Qed.

(** Merging into an object that has none of the source's keys appends a
    copy of the source; into the empty object it gives the source. *)
Lemma baseMergeDeep_fresh srcValue :
  wf srcValue = true -> baseMergeDeep None srcValue = srcValue.
Proof.
  induction srcValue using value_rect' with
    (Q := fun source =>
            wf (Obj source) = true ->
            forall obj, (forall k, k ∈ keys source -> k ∉ keys obj) ->
                        baseMerge obj source = obj ++ source).
  - reflexivity.
  - intros H. rewrite baseMergeDeep_Obj. cbn [mergeTarget].
    rewrite IHsrcValue; [reflexivity|assumption|].
    intros k _. apply not_elem_of_nil.
  - intros _ obj _. cbn. now rewrite app_nil_r.
  - intros (Hk & Hv & Ho)%wf_Obj_cons obj Hdisj. rewrite baseMerge_cons.
    assert (Hfresh : k ∉ keys obj).
    { apply Hdisj. unfold keys. cbn. apply elem_of_cons. now left. }
    unfold mergeStep. cbn [fst snd].
    rewrite (proj2 (getOwn_None_keys k obj) Hfresh), IHsrcValue by assumption.
    rewrite assignMergeValue_fresh by assumption.
    rewrite IHsrcValue0; [now rewrite <- app_assoc|assumption|].
    intros k' Hk'. unfold keys. rewrite fmap_app, elem_of_app.
    intros [Hin|Hin%list_elem_of_singleton].
    + revert Hin. apply Hdisj. unfold keys. cbn. apply elem_of_cons. now right.
    + cbn in Hin. congruence.
Qed.

Lemma baseMerge_empty source :
  wf (Obj source) = true -> baseMerge [] source = source.
Proof.
  intros H. pose proof (baseMergeDeep_fresh (Obj source) H) as E.
  rewrite baseMergeDeep_Obj in E. now injection E.
Qed.

Lemma baseMerge_nil obj : baseMerge obj [] = obj.
Proof. reflexivity. Qed.

End WellFormed.

(** ** Reading a path after a merge *)

Section MergePaths.
Import JsObject Lodash.

Lemma get_Prim p path : get (Prim p) path = undefined.
Proof. now destruct path. Qed.

Lemma get_nil_object path : get (Obj []) path = undefined.
Proof. now destruct path. Qed.

(** A leaf the source defines is the leaf of the merged object. *)
Lemma get_baseMerge_defines path :
  forall source obj p,
    wf (Obj source) = true ->
    defines source path p ->
    get (Obj (baseMerge obj source)) path = Prim p.
Proof.
  induction path as [|key rest IH]; intros source obj p Hwf [Hget Hp].
  - cbn in Hget. congruence.
  - cbn [get] in *.
    rewrite getOwn_baseMerge by now apply wf_NoDup.
    destruct (getOwn key source) as [v'|] eqn:E; [|congruence].
    pose proof (wf_getOwn _ _ _ Hwf E) as Hv'.
    destruct rest as [|key' rest'].
    + subst v'. destruct p; try congruence; reflexivity.
    + destruct v' as [q|source']; [rewrite get_Prim in Hget; congruence|].
      cbn [mergedValue]. rewrite baseMergeDeep_Obj.
      apply IH; [assumption|]. now split.
Qed.

(** A source that is silent along a path leaves the path as it was. *)
Lemma get_baseMerge_silent path :
  forall source obj,
    wf (Obj source) = true ->
    silent (Obj source) path = true ->
    get (Obj (baseMerge obj source)) path = get (Obj obj) path.
Proof.
  induction path as [|key rest IH]; intros source obj Hwf Hs; [discriminate|].
  cbn [get silent] in *.
  rewrite getOwn_baseMerge by now apply wf_NoDup.
  destruct (getOwn key source) as [v'|] eqn:E; [|reflexivity].
  pose proof (wf_getOwn _ _ _ Hwf E) as Hv'.
  destruct v' as [q|source'].
  - destruct q; try discriminate. cbn [mergedValue].
    destruct (getOwn key obj); [reflexivity|].
    destruct rest; [reflexivity|apply get_Prim].
  - destruct rest as [|key' rest']; [discriminate|].
    cbn [mergedValue]. rewrite baseMergeDeep_Obj, IH by assumption.
    destruct (getOwn key obj) as [[q|obj']|]; cbn [mergeTarget];
      try reflexivity; now rewrite get_nil_object, ?get_Prim.
Qed.

Lemma get_merge_silent path sources :
  Forall (fun x => wfLayer x = true /\ silentLayer x path = true) sources ->
  forall obj, get (Obj (merge obj sources)) path = get (Obj obj) path.
Proof.
  induction 1 as [|x sources [Hwf Hs] _ IH]; intros obj; [reflexivity|].
  cbn [merge fold_left]. change (fold_left mergeSource sources ?o)
    with (merge o sources). rewrite IH.
  destruct x as [s|]; [|reflexivity]. now apply get_baseMerge_silent.
Qed.

(** In a merge of several sources the leaf of a source survives when
    the sources after it are silent along its path. *)
Lemma get_merge_defines path before source after obj p :
  wf (Obj source) = true ->
  defines source path p ->
  Forall (fun x => wfLayer x = true /\ silentLayer x path = true) after ->
  get (Obj (merge obj (before ++ Some source :: after))) path = Prim p.
Proof.
  intros Hwf Hdef Hafter. unfold merge. rewrite fold_left_app.
  cbn [fold_left mergeSource].
  change (fold_left mergeSource after ?o) with (merge o after).
  rewrite get_merge_silent by assumption.
  now apply get_baseMerge_defines.
Qed.

End MergePaths.

(** ** The merged style of a block *)

Section EffectiveStyle.
Import JsObject Lodash.

Lemma wf_orEmpty x : wfLayer x = true -> wf (Obj (orEmpty x)) = true.
Proof. now destruct x. Qed.

Lemma wf_globalLayer egs :
  wfGlobalStyles egs = true -> wfLayer (globalLayer egs) = true.
Proof.
  destruct egs as [entries|]; [|reflexivity]. cbn.
  induction entries as [|[k e] entries IH]; [reflexivity|].
  cbn. intros [He Hrest]%andb_true_iff.
  destruct (String.eqb k "global"); [exact He|auto].
Qed.

Lemma wf_reduce props entries :
  forallb (fun e => wfLayer (styles e.2)) entries = true ->
  forall accumulator specific,
    wf (Obj accumulator) = true ->
    reduce (reducer props) entries accumulator = Returns specific ->
    wf (Obj specific) = true.
Proof.
  induction entries as [|[selector e] entries IH]; cbn [forallb reduce].
  - intros _ accumulator specific Hacc [= <-]. exact Hacc.
  - intros [He Hrest]%andb_true_iff accumulator specific Hacc.
    unfold reducer at 1.
    destruct (selectorMatches props selector) as [[]|]; cbn [bind];
      [|now apply IH|discriminate].
    apply IH; [assumption|]. apply wf_merge; [assumption|].
    now repeat constructor.
Qed.

Lemma wf_globalBlockSpecificStyles props egs specific :
  wfGlobalStyles egs = true ->
  globalBlockSpecificStyles props egs = Returns specific ->
  wf (Obj specific) = true.
Proof.
  destruct egs as [entries|]; cbn.
  - intros Hwf. now apply wf_reduce.
  - now intros _ [= <-].
Qed.

Lemma globalStylesBlock_returns props egs ctx specific :
  globalBlockSpecificStyles props egs = Returns specific ->
  globalStylesBlock props egs ctx
  = Returns (merge [] (Some <$> layersOf props egs ctx specific)).
Proof. unfold globalStylesBlock. now intros ->. Qed.

Lemma wf_layersOf props egs ctx specific :
  wfGlobalStyles egs = true ->
  wfLayer ctx = true ->
  wfLayer (style (attributes props)) = true ->
  globalBlockSpecificStyles props egs = Returns specific ->
  Forall (fun layer => wf (Obj layer) = true) (layersOf props egs ctx specific).
Proof.
  intros Hegs Hctx Hlocal Hspec. unfold layersOf.
  repeat constructor; auto using wf_orEmpty, wf_globalLayer.
  eapply wf_globalBlockSpecificStyles; eassumption.
Qed.

(** The leaf of the layer at position [i] survives the merge when every
    other layer is silent along its path. *)
Lemma get_merge_lookup (layers : list object) i layer path p obj :
  Forall (fun l => wf (Obj l) = true) layers ->
  layers !! i = Some layer ->
  defines layer path p ->
  (forall j other, i < j -> layers !! j = Some other ->
                   silent (Obj other) path = true) ->
  get (Obj (merge obj (Some <$> layers))) path = Prim p.
Proof.
  intros Hwf Hi Hdef Hsilent.
  rewrite <- (take_drop_middle layers i layer Hi), fmap_app, fmap_cons.
  apply get_merge_defines; [|assumption|].
  - eapply Forall_lookup_1 in Hwf; eassumption.
  - apply Forall_fmap, Forall_lookup. intros j other Hj.
    rewrite lookup_drop in Hj. cbn. split.
    + eapply Forall_lookup_1 in Hwf; eassumption.
    + apply (Hsilent (S i + j)); [lia|assumption].
Qed.

End EffectiveStyle.

(** C1.  When the merged style of a block is computed, a leaf defined by
    the local layer is the leaf of the result whatever the other layers
    hold; a leaf of the type-specific layer wins when the local layer is
    silent along the path, a leaf of the ancestor layer when the two
    layers above it are silent, and a leaf of the global layer when the
    three layers above it are silent.  So on a collision the layer of
    higher precedence gives the value: local, then type-specific, then
    ancestor, then global. *)
Theorem effective_style_precedence
    (props : Props) (egs : GlobalStyles) (ctx : option object)
    (specific : object) (path : list string) (p : prim) :
  wfGlobalStyles egs = true ->
  wfLayer ctx = true ->
  wfLayer (style (attributes props)) = true ->
  globalBlockSpecificStyles props egs = Returns specific ->
  let glob := orEmpty (globalLayer egs) in
  let ancestor := orEmpty ctx in
  let loc := orEmpty (style (attributes props)) in
  exists effective,
    globalStylesBlock props egs ctx = Returns effective
    /\ (defines loc path p -> JsObject.get (Obj effective) path = Prim p)
    /\ (silent (Obj loc) path = true -> defines specific path p ->
        JsObject.get (Obj effective) path = Prim p)
    /\ (silent (Obj loc) path = true -> silent (Obj specific) path = true ->
        defines ancestor path p ->
        JsObject.get (Obj effective) path = Prim p)
    /\ (silent (Obj loc) path = true -> silent (Obj specific) path = true ->
        silent (Obj ancestor) path = true -> defines glob path p ->
        JsObject.get (Obj effective) path = Prim p).
Proof.
  intros Hegs Hctx Hlocal Hspec glob ancestor loc.
  pose proof (wf_layersOf _ _ _ _ Hegs Hctx Hlocal Hspec) as Hwf.
  eexists. split; [apply globalStylesBlock_returns, Hspec|].
  repeat split.
  - intros Hdef. apply (get_merge_lookup _ 3 loc); try done.
    intros [|[|[|[|j]]]] other Hj; try lia; discriminate.
  - intros Hl Hdef. apply (get_merge_lookup _ 2 specific); try done.
    intros [|[|[|[|j]]]] other Hj; try lia; [|discriminate].
    now intros [= <-].
  - intros Hl Ht Hdef. apply (get_merge_lookup _ 1 ancestor); try done.
    intros [|[|[|[|j]]]] other Hj; try lia; [| |discriminate];
      now intros [= <-].
  - intros Hl Ht Ha Hdef. apply (get_merge_lookup _ 0 glob); try done.
    intros [|[|[|[|j]]]] other Hj; try lia; [| | |discriminate];
      now intros [= <-].
Qed.

Lemma effective_style_precedence_witness :
  exists effective,
    globalStylesBlock
      (sampleHeading 2 (Some (L1 "color" "text" "purple")))
      sampleGlobalStyles
      (Some (L1 "color" "text" "blue"))
    = Returns effective
    /\ JsObject.get (Obj effective) ["color"; "text"] = Str "purple".
Proof.
  destruct (effective_style_precedence
              (sampleHeading 2 (Some (L1 "color" "text" "purple")))
              sampleGlobalStyles
              (Some (L1 "color" "text" "blue"))
              (L1 "color" "text" "green")
              ["color"; "text"] (PStr "purple")
              eq_refl eq_refl eq_refl eq_refl)
    as (effective & Hret & Hlocal & _).
  exists effective. split; [exact Hret|].
  apply Hlocal. split; [reflexivity|discriminate].
Defined.

(** C5.  The merge drops no leaf that does not collide: when two of the
    four layers each define a leaf, and every other layer is silent along
    the path of that leaf (as are two layers that hold different
    properties under a shared parent key), the merged style holds both
    leaves with their values. *)
Theorem effective_style_keeps_disjoint_leaves
    (props : Props) (egs : GlobalStyles) (ctx : option object)
    (specific : object) (i j : nat) (layerI layerJ : object)
    (pathI pathJ : list string) (pI pJ : prim) :
  wfGlobalStyles egs = true ->
  wfLayer ctx = true ->
  wfLayer (style (attributes props)) = true ->
  globalBlockSpecificStyles props egs = Returns specific ->
  let layers := layersOf props egs ctx specific in
  layers !! i = Some layerI ->
  layers !! j = Some layerJ ->
  defines layerI pathI pI ->
  defines layerJ pathJ pJ ->
  (forall k other, k <> i -> layers !! k = Some other ->
                   silent (Obj other) pathI = true) ->
  (forall k other, k <> j -> layers !! k = Some other ->
                   silent (Obj other) pathJ = true) ->
  exists effective,
    globalStylesBlock props egs ctx = Returns effective
    /\ JsObject.get (Obj effective) pathI = Prim pI
    /\ JsObject.get (Obj effective) pathJ = Prim pJ.
Proof.
  intros Hegs Hctx Hlocal Hspec layers Hi Hj HdefI HdefJ HsilI HsilJ.
  pose proof (wf_layersOf _ _ _ _ Hegs Hctx Hlocal Hspec) as Hwf.
  eexists. split; [apply globalStylesBlock_returns, Hspec|].
  split.
  - apply (get_merge_lookup _ i layerI); try done.
    intros k other Hlt. apply HsilI. lia.
  - apply (get_merge_lookup _ j layerJ); try done.
    intros k other Hlt. apply HsilJ. lia.
Qed.

Lemma effective_style_keeps_disjoint_leaves_witness :
  exists effective,
    globalStylesBlock
      (sampleHeading 2 (Some (L1 "color" "background" "white")))
      (Some [("global", {| styles := Some (L1 "color" "text" "red") |})])
      None
    = Returns effective
    /\ JsObject.get (Obj effective) ["color"; "text"] = Str "red"
    /\ JsObject.get (Obj effective) ["color"; "background"] = Str "white".
Proof.
  apply (effective_style_keeps_disjoint_leaves
           (sampleHeading 2 (Some (L1 "color" "background" "white")))
           (Some [("global", {| styles := Some (L1 "color" "text" "red") |})])
           None [] 0 3
           (L1 "color" "text" "red") (L1 "color" "background" "white")
           ["color"; "text"] ["color"; "background"]
           (PStr "red") (PStr "white")
           eq_refl eq_refl eq_refl eq_refl eq_refl eq_refl).
  - split; [reflexivity|discriminate].
  - split; [reflexivity|discriminate].
  - intros [|[|[|[|k]]]] other Hk; cbn; intros [= <-]; try reflexivity.
    now destruct Hk.
  - intros [|[|[|[|k]]]] other Hk; cbn; intros [= <-]; try reflexivity.
    now destruct Hk.
Defined.

(** C6.  Resolving a layer again with nothing around it (no global
    styles at all, or an empty [__experimentalGlobalStyles], and no
    inherited style or an empty one) gives the layer back. *)
Theorem effective_style_idempotent
    (props : Props) (egs : GlobalStyles) (ctx : option object) (layer : object) :
  style (attributes props) = Some layer ->
  wf (Obj layer) = true ->
  egs = None \/ egs = Some [] ->
  ctx = None \/ ctx = Some [] ->
  globalStylesBlock props egs ctx = Returns layer.
Proof.
  intros Hstyle Hwf Hegs Hctx.
  assert (Hspec : globalBlockSpecificStyles props egs = Returns [])
    by (destruct Hegs as [-> | ->]; reflexivity).
  rewrite (globalStylesBlock_returns _ _ _ _ Hspec). unfold layersOf.
  assert (Hg : orEmpty (globalLayer egs) = [])
    by (destruct Hegs as [-> | ->]; reflexivity).
  assert (Ha : orEmpty ctx = []) by (destruct Hctx as [-> | ->]; reflexivity).
  rewrite Hg, Ha, Hstyle. cbn [fmap list_fmap orEmpty].
  unfold Lodash.merge. cbn [fold_left Lodash.mergeSource].
  rewrite !baseMerge_nil. f_equal. now apply baseMerge_empty.
Qed.

Lemma effective_style_idempotent_witness :
  globalStylesBlock
    (sampleHeading 2
       (Some [("color", Obj [("text", Str "purple"); ("link", undefined)]);
              ("typography", Obj [("lineHeight", Num 2)])]))
    (Some []) None
  = Returns [("color", Obj [("text", Str "purple"); ("link", undefined)]);
             ("typography", Obj [("lineHeight", Num 2)])].
Proof.
  apply effective_style_idempotent.
  - reflexivity.
  - reflexivity.
  - right. reflexivity.
  - left. reflexivity.
Defined.

(** ** Which entries of the selector map are taken *)

Section Selectors.
Import JsString.

Lemma substring_0_S n c s :
  substring 0 (S n) (String c s) = String c (substring 0 n s).
Proof. reflexivity. Qed.

(** [startsWith s target] says that [s] is [target] followed by
    something. *)
Lemma startsWith_iff (target s : string) :
  startsWith s target = true <-> exists rest, s = (target ++ rest)%string.
Proof.
  unfold startsWith. rewrite String.eqb_eq. revert s.
  induction target as [|d target IH]; intros s.
  - cbn [String.length]. rewrite substring_0_0. split; [|reflexivity].
    intros _. now exists s.
  - cbn [String.length]. destruct s as [|c s].
    + split; [discriminate|]. intros [rest H]. discriminate.
    + rewrite substring_0_S. split.
      * intros [= -> H]. apply IH in H as [rest ->]. now exists rest.
      * intros [rest [= -> ->]]. f_equal. apply IH. now exists rest.
Qed.

Lemma selectorMatches_true {L : Type} (props : PropsOf L) (selector : string) :
  selectorMatches props selector = Returns true
  <-> selector = name props
      \/ (startsWith selector (name props) = true
          /\ exists predicate,
              lookupPredicate selector selectorMapping = Some predicate
              /\ predicate (attributes props) = true).
Proof.
  unfold selectorMatches.
  destruct (String.eqb selector (name props)) eqn:E.
  - apply String.eqb_eq in E. tauto.
  - apply String.eqb_neq in E.
    destruct (startsWith selector (name props)).
    + destruct (lookupPredicate selector selectorMapping) as [f|].
      * split.
        -- intros [= H]. right. split; [reflexivity|]. now exists f.
        -- intros [?|[_ (g & [= <-] & H)]]; [contradiction|]. now rewrite H.
      * split; [discriminate|].
        intros [?|[_ (g & ? & _)]]; [contradiction|discriminate].
    + split; [discriminate|]. intros [?|[? _]]; [contradiction|discriminate].
Qed.

Lemma selectorMatches_throws {L : Type} (props : PropsOf L) (selector : string) :
  selectorMatches props selector = TypeError
  <-> selector <> name props
      /\ startsWith selector (name props) = true
      /\ lookupPredicate (L := L) selector selectorMapping = None.
Proof.
  unfold selectorMatches.
  destruct (String.eqb selector (name props)) eqn:E.
  - apply String.eqb_eq in E. split; [discriminate|tauto].
  - apply String.eqb_neq in E.
    destruct (startsWith selector (name props)).
    + destruct (lookupPredicate selector selectorMapping);
        split; try discriminate; try tauto. now intros (_ & _ & ?).
    + split; [discriminate|]. now intros (_ & ? & _).
Qed.

Lemma reducer_cases (props : Props) accumulator selector e :
  reducer props accumulator (selector, e)
  = match selectorMatches props selector with
    | Returns true => Returns (Lodash.merge accumulator [styles e])
    | Returns false => Returns accumulator
    | TypeError => TypeError
    end.
Proof.
  unfold reducer. now destruct (selectorMatches props selector) as [[]|].
Qed.

(** When nothing is thrown, the reduction has merged the styles of
    the entries that are taken, in their order, and only those. *)
Lemma reduce_contributes (props : Props) entries :
  forall accumulator specific,
    reduce (reducer props) entries accumulator = Returns specific ->
    specific
    = Lodash.merge accumulator
        (map (fun e => styles e.2)
             (List.filter (fun e => contributes props e.1) entries)).
Proof.
  induction entries as [|[selector e] entries IH];
    intros accumulator specific; cbn [reduce].
  - now intros [= <-].
  - rewrite reducer_cases. cbn [List.filter fst]. unfold contributes at 1.
    destruct (selectorMatches props selector) as [[]|]; cbn [bind];
      [|apply IH|discriminate].
    intros H. apply IH in H. exact H.
Qed.

Lemma reduce_throws (props : Props) entries :
  forall accumulator,
    reduce (reducer props) entries accumulator = TypeError
    <-> exists selector e,
          (selector, e) ∈ entries
          /\ selectorMatches props selector = TypeError.
Proof.
  induction entries as [|[selector e] entries IH]; intros accumulator;
    cbn [reduce].
  - split; [discriminate|]. intros (? & ? & H%elem_of_nil & _). destruct H.
  - rewrite reducer_cases.
    destruct (selectorMatches props selector) as [[]|] eqn:E; cbn [bind].
    + rewrite IH. split.
      * intros (s' & e' & Hin & H). exists s', e'. split; [|exact H].
        apply elem_of_cons. now right.
      * intros (s' & e' & [[= -> ->]|Hin]%elem_of_cons & H);
          [congruence|]. now exists s', e'.
    + rewrite IH. split.
      * intros (s' & e' & Hin & H). exists s', e'. split; [|exact H].
        apply elem_of_cons. now right.
      * intros (s' & e' & [[= -> ->]|Hin]%elem_of_cons & H);
          [congruence|]. now exists s', e'.
    + split; [|reflexivity]. intros _. exists selector, e.
      split; [apply elem_of_cons; now left|exact E].
Qed.

End Selectors.

(** C7.  An entry of the selector map is taken by the reducer, and its
    styles merged into the type-specific layer, exactly when its selector
    is the block's name, or the selector starts with the block's name and
    the predicate that [selectorMapping] holds for the selector is true
    of the block's attributes; the type-specific layer is the merge of
    the entries taken, in order.  The selector "core/heading/h2" is taken
    for a "core/heading" block of level 2 and not for one of level 3. *)
Theorem selector_entry_contributes (props : Props) :
  (forall selector,
      contributes props selector = true
      <-> selector = name props
          \/ ((exists rest, selector = (name props ++ rest)%string)
              /\ exists predicate,
                  lookupPredicate selector selectorMapping = Some predicate
                  /\ predicate (attributes props) = true))
  /\ (forall accumulator selector e,
         contributes props selector = true ->
         reducer props accumulator (selector, e)
         = Returns (Lodash.merge accumulator [styles e]))
  /\ (forall accumulator selector e result,
         contributes props selector = false ->
         reducer props accumulator (selector, e) = Returns result ->
         result = accumulator)
  /\ (forall entries specific,
         globalBlockSpecificStyles props (Some entries) = Returns specific ->
         specific
         = Lodash.merge []
             (map (fun e => styles e.2)
                  (List.filter (fun e => contributes props e.1) entries)))
  /\ contributes (sampleHeading 2 None) "core/heading/h2" = true
  /\ contributes (sampleHeading 3 None) "core/heading/h2" = false.
Proof.
  repeat split; try reflexivity.
  - unfold contributes.
    destruct (selectorMatches props selector) as [[]|] eqn:E; try discriminate.
    intros _. apply selectorMatches_true in E as [E|[E1 E2]]; [now left|].
    right. split; [now apply startsWith_iff|exact E2].
  - intros H. unfold contributes.
    enough (selectorMatches props selector = Returns true) as -> by reflexivity.
    apply selectorMatches_true. destruct H as [H|[H1 H2]]; [now left|].
    right. split; [now apply startsWith_iff|exact H2].
  - intros accumulator selector e. unfold contributes. rewrite reducer_cases.
    now destruct (selectorMatches props selector) as [[]|].
  - intros accumulator selector e result. unfold contributes.
    rewrite reducer_cases.
    destruct (selectorMatches props selector) as [[]|]; try discriminate.
    now intros _ [= <-].
  - intros entries specific H. now apply reduce_contributes.
Qed.

Lemma selector_entry_contributes_witness :
  reducer (sampleHeading 2 None) []
    ("core/heading/h2", {| styles := Some (L1 "color" "text" "green") |})
  = Returns (L1 "color" "text" "green")
  /\ forall result,
       reducer (sampleHeading 3 None) []
         ("core/heading/h2", {| styles := Some (L1 "color" "text" "green") |})
       = Returns result ->
       result = [].
Proof.
  split.
  - apply (proj1 (proj2 (selector_entry_contributes (sampleHeading 2 None)))).
    reflexivity.
  - intros result.
    apply (proj1 (proj2 (proj2 (selector_entry_contributes (sampleHeading 3 None))))).
    reflexivity.
Defined.

(** C8 fails on the code.  A selector that starts with the block's name,
    is not the name itself and has no entry in [selectorMapping] makes the
    reducer call [undefined]: the style of a "core/column" block cannot be
    computed when the global styles hold an entry for "core/columns". *)
Theorem effective_style_throws_on_unmapped_selector :
  globalStylesBlock
    {| name := "core/column";
       attributes := {| level := undefined; style := None |} |}
    (Some [("core/columns", {| styles := Some (L1 "color" "text" "red") |})])
    None
  = TypeError.
Proof. reflexivity. Qed.

(** The computation throws exactly when the global styles hold such a
    selector. *)
Lemma globalStylesBlock_throws_iff (props : Props) entries ctx :
  globalStylesBlock props (Some entries) ctx = TypeError
  <-> exists selector e,
        (selector, e) ∈ entries
        /\ selector <> name props
        /\ JsString.startsWith selector (name props) = true
        /\ lookupPredicate (L := object) selector selectorMapping = None.
Proof.
  unfold globalStylesBlock, globalBlockSpecificStyles.
  destruct (reduce (reducer props) entries []) as [specific|] eqn:E; cbn [bind].
  - split; [discriminate|]. intros (selector & e & Hin & H).
    apply selectorMatches_throws in H.
    assert (reduce (reducer props) entries [] = TypeError)
      by (apply reduce_throws; eauto).
    congruence.
  - split; [|reflexivity]. intros _.
    apply reduce_throws in E as (selector & e & Hin & H).
    apply selectorMatches_throws in H. eauto.
Qed.

(** ** [addSaveProps] *)

Section SaveProps.
Import JsObject.
Variable BlockType : Type.
Variable hasBlockSupport : BlockType -> string -> bool.
Variables COLOR_SUPPORT_KEY LINE_HEIGHT_SUPPORT_KEY FONT_SIZE_SUPPORT_KEY : string.

Local Abbreviation styleSupported :=
  (hasStyleSupport BlockType hasBlockSupport
     COLOR_SUPPORT_KEY LINE_HEIGHT_SUPPORT_KEY FONT_SIZE_SUPPORT_KEY).
Local Abbreviation saveProps :=
  (addSaveProps BlockType hasBlockSupport
     COLOR_SUPPORT_KEY LINE_HEIGHT_SUPPORT_KEY FONT_SIZE_SUPPORT_KEY).

Lemma getOwn_spread_other (source target : object) key :
  key ∉ keys source ->
  getOwn key (spreadInto target (Some source)) = getOwn key target.
Proof.
  unfold spreadInto, keys. cbn [orEmpty]. revert target.
  induction source as [|[k v] source IH]; intros target Hk; [reflexivity|].
  cbn in Hk. apply not_elem_of_cons in Hk as [Hne Hk].
  cbn [fold_left fst snd]. rewrite IH by assumption.
  apply getOwn_setOwn_ne. congruence.
Qed.

Lemma getOwn_spread (source target : object) key :
  NoDup (keys source) ->
  getOwn key (spreadInto target (Some source))
  = match getOwn key source with
    | Some v => Some v
    | None => getOwn key target
    end.
Proof.
  unfold keys. revert target.
  induction source as [|[k v] source IH]; intros target Hnd; [reflexivity|].
  cbn in Hnd. apply NoDup_cons in Hnd as [Hk Hnd].
  cbn [getOwn]. destruct (String.eqb k key) eqn:E.
  - apply String.eqb_eq in E. subst k.
    change (spreadInto target (Some ((key, v) :: source)))
      with (spreadInto (setOwn key v target) (Some source)).
    rewrite getOwn_spread_other by assumption. apply getOwn_setOwn_eq.
  - apply String.eqb_neq in E.
    change (spreadInto target (Some ((k, v) :: source)))
      with (spreadInto (setOwn k v target) (Some source)).
    rewrite IH by assumption. now rewrite getOwn_setOwn_ne.
Qed.

Lemma spreadInto_empty (source : object) :
  NoDup (keys source) -> spreadInto [] (Some source) = source.
Proof.
  intros Hwf. unfold spreadInto. cbn [orEmpty].
  enough (forall target,
             (forall k, k ∈ keys source -> k ∉ keys target) ->
             fold_left (fun t kv => setOwn kv.1 kv.2 t) source target
             = target ++ source) as H.
  { apply (H []). intros k _. apply not_elem_of_nil. }
  unfold keys in *. induction source as [|[k v] source IH]; intros target Hdisj.
  - cbn. now rewrite app_nil_r.
  - cbn in Hwf. apply NoDup_cons in Hwf as [Hk Hnd]. cbn [fold_left fst snd].
    rewrite setOwn_fresh by (apply Hdisj; cbn; apply elem_of_cons; now left).
    rewrite IH; [now rewrite <- app_assoc|assumption|].
    intros k' Hk'. rewrite fmap_app, elem_of_app.
    intros [Hin|Hin%list_elem_of_singleton].
    + revert Hin. apply Hdisj. cbn. apply elem_of_cons. now right.
    + cbn in Hin. congruence.
Qed.

(** C10.  For a block type with style support, a key of the incoming
    [props.style] keeps its value and every other key has the value
    [getInlineStyles] computes from the block's [style] attribute; the
    rest of [props] is as it was.  For a block type without style
    support [props] is returned unchanged. *)
Theorem addSaveProps_precedence
    (props : ElementProps) (blockType : BlockType) (attributes : Attributes) :
  (styleSupported blockType = true ->
   wfLayer (elementStyle props) = true ->
   exists merged,
     elementStyle (saveProps props blockType attributes) = Some merged
     /\ elementRest (saveProps props blockType attributes)
        = elementRest props
     /\ forall key,
          getOwn key merged
          = match getOwn key (orEmpty (elementStyle props)) with
            | Some v => Some v
            | None => getOwn key (getInlineStyles (styleAttribute attributes))
            end)
  /\ (styleSupported blockType = false ->
      saveProps props blockType attributes = props).
Proof.
  split; intros Hsupport; unfold addSaveProps;
    rewrite Hsupport; cbn [negb]; [|reflexivity].
  intros Hwf. eexists. split; [reflexivity|]. split; [reflexivity|].
  intros key.
  rewrite (spreadInto_empty (getInlineStyles (styleAttribute attributes))).
  - destruct (elementStyle props) as [existing|]; [|reflexivity].
    cbn [orEmpty]. apply getOwn_spread. now apply wf_NoDup.
  - apply getInlineStyles_NoDup.
Qed.

End SaveProps.

Lemma addSaveProps_precedence_witness :
  (exists merged,
      elementStyle
        (addSaveProps (list string) sampleSupports
           "__experimentalColor" "__experimentalLineHeight"
           "__experimentalFontSize"
           {| elementStyle := Some [("color", Str "black")];
              elementRest := [("className", Str "wp-block")] |}
           ["__experimentalColor"]
           {| level := undefined;
              style := Some [("color", Obj [("text", Str "var:a|b");
                                            ("background", Str "#fff")])] |})
      = Some merged
      /\ JsObject.getOwn "color" merged = Some (Str "black")
      /\ JsObject.getOwn "backgroundColor" merged = Some (Str "#fff"))
  /\ addSaveProps (list string) sampleSupports
       "__experimentalColor" "__experimentalLineHeight"
       "__experimentalFontSize"
       {| elementStyle := Some [("color", Str "black")];
          elementRest := [("className", Str "wp-block")] |}
       ["align"]
       {| level := undefined;
          style := Some [("color", Obj [("text", Str "var:a|b")])] |}
     = {| elementStyle := Some [("color", Str "black")];
          elementRest := [("className", Str "wp-block")] |}.
Proof.
  split.
  - destruct (proj1 (addSaveProps_precedence (list string) sampleSupports
                       "__experimentalColor" "__experimentalLineHeight"
                       "__experimentalFontSize"
                       {| elementStyle := Some [("color", Str "black")];
                          elementRest := [("className", Str "wp-block")] |}
                       ["__experimentalColor"]
                       {| level := undefined;
                          style := Some [("color", Obj [("text", Str "var:a|b");
                                                        ("background", Str "#fff")])] |})
                eq_refl eq_refl) as (merged & Hstyle & _ & Hkeys).
    exists merged. split; [exact Hstyle|]. split.
    + rewrite Hkeys. reflexivity.
    + rewrite Hkeys. reflexivity.
  - apply (proj2 (addSaveProps_precedence (list string) sampleSupports
                    "__experimentalColor" "__experimentalLineHeight"
                    "__experimentalFontSize" _ ["align"] _)).
    reflexivity.
Defined.

(** ** In place: what [merge] writes to *)

Section HeapFrame.
Import JsObject Heap.
Implicit Types (h : heap) (l d s : loc) (v : hval).

Lemma elem_setOwn {V : Type} key (v : V) (o : list (string * V)) x :
  x ∈ setOwn key v o -> x ∈ o \/ x = (key, v).
Proof.
  induction o as [|[k w] o IH]; cbn.
  - intros ->%list_elem_of_singleton. now right.
  - destruct (String.eqb k key) eqn:E.
    + apply String.eqb_eq in E. subst k.
      intros [->|H]%elem_of_cons; [now right|].
      left. apply elem_of_cons. now right.
    + intros [->|H]%elem_of_cons.
      * left. apply elem_of_cons. now left.
      * destruct (IH H) as [H'|H']; [|now right].
        left. apply elem_of_cons. now right.
Qed.

Lemma framed_refl n h : closedAbove n h -> framed n h h.
Proof. intros H. repeat split; [exact H|lia]. Qed.

Lemma framed_trans n h1 h2 h3 :
  framed n h1 h2 -> framed n h2 h3 -> framed n h1 h3.
Proof.
  intros (_ & Hlen & Hsame) (Hc & Hlen' & Hsame').
  repeat split; [exact Hc|lia|].
  intros l Hl. now rewrite Hsame', Hsame.
Qed.

Lemma setProp_framed n h d key v :
  closedAbove n h -> n <= d ->
  (forall l', v = HRef l' -> n <= l') ->
  framed n h (setProp h d key v).
Proof.
  intros Hc Hd Hv. unfold setProp.
  destruct (h !! d) as [props|] eqn:E; [|now apply framed_refl].
  repeat split.
  - intros l props' k l' Hl Hlook Hin.
    destruct (decide (d = l)) as [->|Hne].
    + rewrite list_lookup_insert_eq in Hlook
        by (eapply lookup_lt_Some; eassumption).
      injection Hlook as <-.
      apply elem_setOwn in Hin as [Hin|[= _ Hv']]; [|now apply Hv].
      eapply Hc; eassumption.
    + rewrite list_lookup_insert_ne in Hlook by assumption.
      eapply Hc; eassumption.
  - now rewrite length_insert.
  - intros l Hl. apply list_lookup_insert_ne. lia.
Qed.

Lemma assignMergeValue_framed n h d key v :
  closedAbove n h -> n <= d ->
  (forall l', v = HRef l' -> n <= l') ->
  framed n h (assignMergeValue h d key v).
Proof.
  intros Hc Hd Hv. unfold assignMergeValue.
  destruct v as [[]|]; repeat case_match;
    auto using framed_refl, setProp_framed.
Qed.

Lemma alloc_framed n h :
  closedAbove n h -> n <= length h -> framed n h (h ++ [[]]).
Proof.
  intros Hc Hn. repeat split.
  - intros l props k l' Hl Hlook Hin.
    destruct (decide (l < length h)) as [Hlt|Hge].
    + rewrite lookup_app_l in Hlook by assumption. eapply Hc; eassumption.
    + rewrite lookup_app_r in Hlook by lia.
      apply list_elem_of_lookup_2, list_elem_of_singleton in Hlook. subst props.
      now apply elem_of_nil in Hin.
  - rewrite length_app. lia.
  - intros l Hl. apply lookup_app_l. lia.
Qed.

Lemma getProp_closed n h d key l' :
  closedAbove n h -> n <= d -> getProp h d key = Some (HRef l') -> n <= l'.
Proof.
  unfold getProp. intros Hc Hd H.
  destruct (h !! d) as [props|] eqn:E; [|discriminate].
  apply getOwn_elem in H. eapply Hc; eassumption.
Qed.

Lemma mergeProperty_framed n mergeFunc h d s key h' :
  framing n mergeFunc ->
  n <= d -> n <= length h -> closedAbove n h ->
  mergeProperty mergeFunc h d s key = Some h' -> framed n h h'.
Proof.
  intros Hrec Hd Hn Hc. unfold mergeProperty, baseMergeDeep.
  destruct (getProp h s key) as [[p|srcValue]|].
  - intros [= <-].
    apply (assignMergeValue_framed n h d key (HPrim p)); try assumption.
    discriminate.
  - destruct (getProp h d key) as [[q|objValue]|] eqn:Eobj.
    2: { destruct (mergeFunc h objValue srcValue) as [h1|] eqn:Erec;
           [|discriminate].
         intros [= <-].
         pose proof (getProp_closed _ _ _ _ _ Hc Hd Eobj) as Hobj.
         pose proof (Hrec _ _ _ _ Hobj Hn Hc Erec) as Hf.
         eapply framed_trans; [exact Hf|].
         apply (assignMergeValue_framed n h1 d key (HRef objValue));
           [apply Hf|assumption|].
         now intros l' [= <-]. }
    all: cbn [alloc];
      destruct (mergeFunc (h ++ [[]]) (length h) srcValue) as [h2|] eqn:Erec;
      [|discriminate];
      intros [= <-];
      pose proof (alloc_framed _ _ Hc Hn) as Ha;
      assert (Hf : framed n (h ++ [[]]) h2)
        by (eapply Hrec; [exact Hn|rewrite length_app; lia|apply Ha|exact Erec]);
      eapply framed_trans; [exact Ha|];
      eapply framed_trans; [exact Hf|];
      (apply (assignMergeValue_framed n h2 d key (HRef (length h)));
       [apply Hf|assumption|]);
      intros l' [= <-]; exact Hn.
  - intros [= <-].
    apply (assignMergeValue_framed n h d key (HPrim PUndefined)); try assumption.
    discriminate.
Qed.

Lemma mergeProperties_None mergeFunc d s sourceKeys :
  fold_left
    (fun acc key =>
       match acc with
       | Some h' => mergeProperty mergeFunc h' d s key
       | None => None
       end) sourceKeys None = None.
Proof. induction sourceKeys; [reflexivity|assumption]. Qed.

Lemma mergeProperties_cons mergeFunc d s key sourceKeys h :
  mergeProperties mergeFunc d s (key :: sourceKeys) h
  = match mergeProperty mergeFunc h d s key with
    | Some h' => mergeProperties mergeFunc d s sourceKeys h'
    | None => None
    end.
Proof.
  unfold mergeProperties. cbn [fold_left].
  destruct (mergeProperty mergeFunc h d s key); [reflexivity|].
  apply mergeProperties_None.
Qed.

Lemma mergeProperties_framed n mergeFunc d s sourceKeys :
  framing n mergeFunc -> n <= d ->
  forall h h',
    n <= length h -> closedAbove n h ->
    mergeProperties mergeFunc d s sourceKeys h = Some h' -> framed n h h'.
Proof.
  intros Hrec Hd. induction sourceKeys as [|key sourceKeys IH]; intros h h' Hn Hc.
  - intros [= <-]. now apply framed_refl.
  - rewrite mergeProperties_cons.
    destruct (mergeProperty mergeFunc h d s key) as [h1|] eqn:E; [|discriminate].
    intros Hrest.
    pose proof (mergeProperty_framed _ _ _ _ _ _ _ Hrec Hd Hn Hc E) as Hf.
    eapply framed_trans; [exact Hf|].
    apply IH; [|apply Hf|exact Hrest].
    destruct Hf as (_ & Hlen & _). lia.
Qed.

Lemma baseMerge_framed n fuel : framing n (baseMerge fuel).
Proof.
  induction fuel as [|fuel IH]; intros h d s h' Hd Hn Hc; [discriminate|].
  cbn [baseMerge]. destruct (Nat.eqb d s).
  - intros [= <-]. now apply framed_refl.
  - destruct (h !! s) as [props|]; [|discriminate].
    now apply mergeProperties_framed.
Qed.

Lemma merge_framed n fuel d sources :
  n <= d ->
  forall h h',
    n <= length h -> closedAbove n h ->
    merge fuel h d sources = Some h' -> framed n h h'.
Proof.
  intros Hd. unfold merge.
  induction sources as [|source sources IH]; intros h h' Hn Hc.
  - intros [= <-]. now apply framed_refl.
  - cbn [fold_left]. destruct source as [s|]; [|now apply IH].
    destruct (baseMerge fuel h d s) as [h1|] eqn:E.
    + intros Hrest.
      pose proof (baseMerge_framed _ _ _ _ _ _ Hd Hn Hc E) as Hf.
      eapply framed_trans; [exact Hf|].
      apply IH; [|apply Hf|exact Hrest].
      destruct Hf as (_ & Hlen & _). lia.
    + intros Hrest. exfalso. revert Hrest.
      clear. induction sources as [|[?|] ? IH]; cbn; [discriminate|exact IH..].
Qed.

Lemma reduceEntries_framed n fuel props entries accumulator :
  n <= accumulator ->
  forall h h',
    n <= length h -> closedAbove n h ->
    reduceEntries fuel props entries accumulator h = Done h' -> framed n h h'.
Proof.
  intros Hacc. induction entries as [|[selector value] entries IH];
    intros h h' Hn Hc; cbn [reduceEntries].
  - intros [= <-]. now apply framed_refl.
  - destruct (selectorMatches props selector) as [[]|]; [|now apply IH|discriminate].
    destruct (merge fuel h accumulator [styles value]) as [h1|] eqn:E;
      [|discriminate].
    intros Hrest.
    pose proof (merge_framed _ _ _ _ Hacc _ _ Hn Hc E) as Hf.
    eapply framed_trans; [exact Hf|].
    apply IH; [|apply Hf|exact Hrest].
    destruct Hf as (_ & Hlen & _). lia.
Qed.

Lemma closedAbove_length h : closedAbove (length h) h.
Proof.
  intros l props k l' Hl Hlook _. apply lookup_lt_Some in Hlook. lia.
Qed.

Lemma orNew_framed n h x h' l :
  closedAbove n h -> n <= length h ->
  orNew h x = (h', l) -> framed n h h'.
Proof.
  intros Hc Hn. destruct x as [l0|]; cbn.
  - intros [= <- _]. now apply framed_refl.
  - intros [= <- _]. now apply alloc_framed.
Qed.

(** Nothing that exists when the computation starts is written to, and
    the object returned is a new one. *)
Lemma runGlobalStylesBlock_framed fuel props egs ctx h h' result :
  runGlobalStylesBlock fuel props egs ctx h = Done (h', result) ->
  length h <= result
  /\ length h <= length h'
  /\ forall l, l < length h -> h' !! l = h !! l.
Proof.
  set (n := length h). unfold runGlobalStylesBlock, runGlobalBlockSpecificStyles.
  cbn [alloc].
  pose proof (alloc_framed n h (closedAbove_length h) (Nat.le_refl _)) as H0.
  assert (Hspec : forall h1,
             match egs with
             | Some entries =>
                 match reduceEntries fuel props entries (length h) (h ++ [[]]) with
                 | Done h1 => Done (h1, length h)
                 | Thrown => Thrown
                 | Stuck => Stuck
                 end
             | None => Done (h ++ [[]], length h)
             end = Done (h1, length h) -> framed n h h1).
  { intros h1. destruct egs as [entries|]; [|now intros [= <-]].
    destruct (reduceEntries fuel props entries (length h) (h ++ [[]]))
      as [h1'| |] eqn:E; try discriminate.
    intros [= <-]. eapply framed_trans; [exact H0|].
    eapply reduceEntries_framed; [|rewrite length_app; unfold n; lia|apply H0|exact E].
    unfold n. lia. }
  destruct (match egs with Some _ => _ | None => _ end)
    as [[h1 specific]| |] eqn:E; try discriminate.
  assert (specific = length h) as ->.
  { destruct egs as [entries|]; [|now injection E].
    destruct (reduceEntries fuel props entries (length h) (h ++ [[]]));
      try discriminate. now injection E. }
  specialize (Hspec h1 eq_refl).
  destruct (orNew (h1 ++ [[]]) (globalLayer egs)) as [h3 g] eqn:E3.
  destruct (orNew h3 ctx) as [h4 a] eqn:E4.
  destruct (orNew h4 (style (attributes props))) as [h5 l5] eqn:E5.
  destruct (merge fuel h5 (length h1) _) as [h6|] eqn:E6; [|discriminate].
  intros [= <- <-].
  assert (H2 : framed n h (h1 ++ [[]])).
  { eapply framed_trans; [exact Hspec|].
    apply alloc_framed; [apply Hspec|]. destruct Hspec as (_ & ? & _).
    unfold n. lia. }
  assert (H3 : framed n h h3).
  { eapply framed_trans; [exact H2|].
    eapply orNew_framed; [apply H2| |exact E3].
    destruct H2 as (_ & ? & _). unfold n. lia. }
  assert (H4 : framed n h h4).
  { eapply framed_trans; [exact H3|].
    eapply orNew_framed; [apply H3| |exact E4].
    destruct H3 as (_ & ? & _). unfold n. lia. }
  assert (H5 : framed n h h5).
  { eapply framed_trans; [exact H4|].
    eapply orNew_framed; [apply H4| |exact E5].
    destruct H4 as (_ & ? & _). unfold n. lia. }
  assert (H6 : framed n h h6).
  { eapply framed_trans; [exact H5|].
    eapply merge_framed; [|  |apply H5|exact E6].
    - destruct Hspec as (_ & ? & _). unfold n. lia.
    - destruct H5 as (_ & ? & _). unfold n. lia. }
  destruct Hspec as (_ & Hlen1 & _). destruct H6 as (_ & Hlen6 & Hsame).
  repeat split; [lia|lia|exact Hsame].
Qed.

End HeapFrame.

(** ** In place: what [merge] computes *)

Section HeapTrees.
Import JsObject Heap.
Implicit Types (h : heap) (l d s : loc) (hv : hval) (F G : loc -> Prop).

Lemma tree_mono h hv v F G :
  tree h hv v F -> (forall x, F x -> G x) -> tree h hv v G.
Proof.
  intros Ht Hsub. inversion Ht as [|l props o F' owner Hl HF Hnd Hf Hin Hdisj];
    subst; [constructor|].
  eapply tree_obj; try eassumption; [now apply Hsub|].
  intros k x Hx. destruct (Hin k x Hx). auto.
Qed.

(** A tree reads the heap within its bound only. *)
Lemma tree_frame h h' v :
  forall hv F,
    tree h hv v F -> (forall x, F x -> h' !! x = h !! x) -> tree h' hv v F.
Proof.
  induction v using value_rect' with
    (Q := fun o =>
            forall props owner,
              fieldsAre h owner props o ->
              (forall k x, owner k x -> h' !! x = h !! x) ->
              fieldsAre h' owner props o).
  - intros hv F Ht _. inversion Ht; subst. constructor.
  - intros hv F Ht Hsame.
    inversion Ht as [|l props o' F' owner Hl HF Hnd Hf Hin Hdisj]; subst.
    eapply tree_obj; try eassumption.
    + rewrite Hsame by assumption. exact Hl.
    + apply IHv; [exact Hf|]. intros k x Hx. apply Hsame. now apply (Hin k x).
  - intros props owner Hf _. inversion Hf; subst. constructor.
  - intros props owner Hf Hsame.
    inversion Hf as [|hp vp props' o' [Hk Ht] Hrest]; subst.
    constructor.
    + split; [exact Hk|]. apply IHv; [exact Ht|]. intros x Hx. eauto.
    + now apply IHv0.
Qed.

Lemma fieldsAre_frame h h' owner props o :
  fieldsAre h owner props o ->
  (forall k x, owner k x -> h' !! x = h !! x) ->
  fieldsAre h' owner props o.
Proof.
  intros Hf Hsame. induction Hf as [|hp vp props o [Hk Ht] _ IH]; constructor;
    [|exact IH].
  split; [exact Hk|]. eapply tree_frame; [exact Ht|]. eauto.
Qed.

Lemma fieldsAre_keys h owner props o :
  fieldsAre h owner props o -> keys props = keys o.
Proof.
  unfold keys. induction 1 as [|hp vp props o [Hk _] _ IH]; [reflexivity|].
  cbn. now rewrite Hk, IH.
Qed.

Lemma fieldsAre_getOwn_Some h owner props o key hv :
  fieldsAre h owner props o ->
  getOwn key props = Some hv ->
  exists v, getOwn key o = Some v /\ tree h hv v (owner key).
Proof.
  induction 1 as [|[k hv'] [k' v'] props o [Hk Ht] _ IH]; [discriminate|].
  cbn in Hk. subst k'. cbn [getOwn].
  destruct (String.eqb k key) eqn:E; [|exact IH].
  apply String.eqb_eq in E. subst k. intros [= <-]. now exists v'.
Qed.

Lemma fieldsAre_getOwn_None h owner props o key :
  fieldsAre h owner props o ->
  getOwn key props = None -> getOwn key o = None.
Proof.
  intros Hf. rewrite !getOwn_None_keys.
  now rewrite (fieldsAre_keys _ _ _ _ Hf).
Qed.

Lemma setOwn_same {V : Type} key (v : V) (o : list (string * V)) :
  getOwn key o = Some v -> setOwn key v o = o.
Proof.
  induction o as [|[k w] o IH]; [discriminate|]. cbn.
  destruct (String.eqb k key); [now intros [= ->]|].
  intros H. now rewrite IH.
Qed.

(** Assigning under a key, in the heap and in the plain data at once:
    the other properties keep their trees and the key takes the new one. *)
Lemma fieldsAre_setOwn h h' owner owner' props o key hv' v' :
  fieldsAre h owner props o ->
  NoDup (keys props) ->
  tree h' hv' v' (owner' key) ->
  (forall k hv v, k <> key -> tree h hv v (owner k) -> tree h' hv v (owner' k)) ->
  fieldsAre h' owner' (setOwn key hv' props) (setOwn key v' o).
Proof.
  intros Hf Hnd Hnew Hother. unfold keys in Hnd.
  induction Hf as [|[k hv] [k' v] props o [Hk Ht] Hrest IH].
  - constructor; [now split|constructor].
  - cbn in Hk, Ht. subst k'. cbn in Hnd.
    apply NoDup_cons in Hnd as [Hfirst Hnd]. cbn [setOwn].
    destruct (String.eqb k key) eqn:E.
    + apply String.eqb_eq in E. subst k. constructor; [now split|].
      clear IH. induction Hrest as [|[k hv0] [k' v0] props o [Hk Ht0] _ IH];
        constructor.
      * cbn in *. subst k'. split; [reflexivity|].
        apply Hother; [|exact Ht0]. intros ->. apply Hfirst.
        apply elem_of_cons. now left.
      * apply IH.
        -- intros Hin. apply Hfirst. apply elem_of_cons. now right.
        -- now apply NoDup_cons in Hnd as [_ ?].
    + apply String.eqb_neq in E. constructor; [|now apply IH].
      split; [reflexivity|]. cbn. now apply Hother.
Qed.

Lemma sameValueZero_true objValue hv :
  hv <> HPrim PUndefined ->
  sameValueZero objValue hv = true -> objValue = Some hv.
Proof.
  intros Hne. destruct objValue as [[p|l]|], hv as [q|l']; cbn [sameValueZero];
    try discriminate.
  - now intros ->%prim_eqb_eq.
  - now intros ->%Nat.eqb_eq.
  - intros <-%prim_eqb_eq. congruence.
Qed.

(** Skipping the assignment of a value the object already holds leaves
    what assigning it would leave. *)
Lemma assignMergeValue_insert h d props key hv :
  h !! d = Some props ->
  hv <> HPrim PUndefined ->
  assignMergeValue h d key hv = <[d := setOwn key hv props]> h.
Proof.
  intros Hd Hne.
  assert (Hset : setProp h d key hv = <[d := setOwn key hv props]> h)
    by (unfold setProp; now rewrite Hd).
  assert (Hskip : sameValueZero (getProp h d key) hv = true ->
                  h = <[d := setOwn key hv props]> h).
  { intros Heq%sameValueZero_true; [|assumption].
    unfold getProp in Heq. rewrite Hd in Heq.
    now rewrite (setOwn_same _ _ _ Heq), list_insert_id. }
  unfold assignMergeValue.
  destruct hv as [[]|]; try congruence;
    (destruct (sameValueZero _ _); [now apply Hskip|exact Hset]).
Qed.

Lemma pure_assignMergeValue_setOwn (o : object) key v :
  v <> undefined -> Lodash.assignMergeValue o key v = setOwn key v o.
Proof.
  intros Hne. unfold Lodash.assignMergeValue.
  destruct v as [p|]; [|reflexivity].
  destruct p; try congruence;
    (destruct (Lodash.eq_prim _ _) eqn:E; [|reflexivity]);
    symmetry; apply setOwn_same;
    unfold Lodash.eq_prim in E;
    destruct (getOwn key o) as [[q|]|]; try discriminate;
    apply prim_eqb_eq in E; congruence.
Qed.

(** The destination after one assignment: the object at [d] takes
    [hv'] under [key]; in between, the heap may have changed within the
    bound of that key and grown. *)
Lemma tree_setProp h h2 d props o F owner key hv' v' Fk' :
  h !! d = Some props ->
  F d ->
  NoDup (keys props) ->
  fieldsAre h owner props o ->
  (forall k x, owner k x -> F x /\ x <> d) ->
  (forall k k' x, k <> k' -> owner k x -> owner k' x -> False) ->
  (forall x, F x -> x < length h) ->
  length h <= length h2 ->
  (forall x, x < length h -> ~ owner key x -> h2 !! x = h !! x) ->
  tree h2 hv' v' Fk' ->
  (forall x, Fk' x -> owner key x \/ fresh h h2 x) ->
  tree (<[d := setOwn key hv' props]> h2) (HRef d) (Obj (setOwn key v' o))
    (fun x => F x \/ fresh h h2 x).
Proof.
  intros Hd HF Hnd Hf Hin Hdisj Hbound Hlen Hsame Hnew HFk'.
  pose proof (Hbound d HF) as Hdlt.
  set (owner' := fun k x =>
                   if String.eqb k key then owner key x \/ fresh h h2 x
                   else owner k x).
  assert (Hkey : forall x, owner' key x <-> owner key x \/ fresh h h2 x).
  { intros x. unfold owner'. now rewrite String.eqb_refl. }
  assert (Hoth : forall k x, k <> key -> owner' k x <-> owner k x).
  { intros k x Hne%String.eqb_neq. unfold owner'. now rewrite Hne. }
  apply tree_obj with (props := setOwn key hv' props) (owner := owner').
  - apply list_lookup_insert_eq. lia.
  - now left.
  - now apply NoDup_keys_setOwn.
  - apply (fieldsAre_setOwn h _ owner owner'); try assumption.
    + apply tree_frame with (h := h2).
      * eapply tree_mono; [exact Hnew|]. intros x Hx. apply Hkey. auto.
      * intros x Hx%Hkey. apply list_lookup_insert_ne.
        destruct Hx as [Hx|Hx]; [apply Hin in Hx; intuition congruence|].
        unfold fresh in Hx. lia.
    + intros k hv v Hne Ht. apply tree_frame with (h := h).
      * eapply tree_mono; [exact Ht|]. intros x Hx. now apply Hoth.
      * intros x Hx%Hoth; [|assumption].
        destruct (Hin _ _ Hx) as [HFx Hxd].
        rewrite list_lookup_insert_ne by congruence.
        apply Hsame; [now apply Hbound|]. intros Hx'. exact (Hdisj _ _ _ Hne Hx Hx').
  - intros k x Hx. destruct (String.eqb_spec k key) as [->|Hne].
    + apply Hkey in Hx as [Hx|Hx].
      * destruct (Hin _ _ Hx). auto.
      * unfold fresh in *. split; [now right|lia].
    + apply Hoth in Hx; [|assumption]. destruct (Hin _ _ Hx). auto.
  - intros k k' x Hne Hx Hx'.
    destruct (String.eqb_spec k key) as [->|Hk];
      destruct (String.eqb_spec k' key) as [->|Hk']; try congruence.
    + apply Hkey in Hx. apply Hoth in Hx'; [|assumption].
      destruct Hx as [Hx|Hx]; [exact (Hdisj _ _ _ Hne Hx Hx')|].
      destruct (Hin _ _ Hx') as [HFx _]. apply Hbound in HFx.
      unfold fresh in Hx. lia.
    + apply Hkey in Hx'. apply Hoth in Hx; [|assumption].
      destruct Hx' as [Hx'|Hx']; [exact (Hdisj _ _ _ Hne Hx Hx')|].
      destruct (Hin _ _ Hx) as [HFx _]. apply Hbound in HFx.
      unfold fresh in Hx'. lia.
    + apply Hoth in Hx, Hx'; try assumption. exact (Hdisj _ _ _ Hne Hx Hx').
Qed.

End HeapTrees.

Section HeapMerge.
Import JsObject Heap.
Implicit Types (h : heap) (l d s : loc) (hv : hval) (F G : loc -> Prop).

Lemma mergedInto_refl h d vd F :
  tree h (HRef d) (Obj vd) F -> mergedInto h d F vd h.
Proof.
  intros Ht. repeat split; [lia|].
  eapply tree_mono; [exact Ht|]. now left.
Qed.

Lemma mergedInto_trans h h1 h2 d F r1 r2 :
  mergedInto h d F r1 h1 ->
  mergedInto h1 d (fun x => F x \/ fresh h h1 x) r2 h2 ->
  mergedInto h d F r2 h2.
Proof.
  intros (Hlen & _ & Hsame) (Hlen' & Ht & Hsame'). repeat split; [lia| |].
  - eapply tree_mono; [exact Ht|]. unfold fresh. intros x [[?|?]|?]; [now left|right; lia..].
  - intros x Hx HF. rewrite Hsame' by (unfold fresh; lia || intuition lia).
    now apply Hsame.
Qed.

(** The destination after the assignment that ends a turn of the loop. *)
Lemma assign_child h h2 d props vd F owner key hv' v' Fk' :
  h !! d = Some props ->
  F d ->
  NoDup (keys props) ->
  fieldsAre h owner props vd ->
  (forall k x, owner k x -> F x /\ x <> d) ->
  (forall k k' x, k <> k' -> owner k x -> owner k' x -> False) ->
  (forall x, F x -> x < length h) ->
  length h <= length h2 ->
  (forall x, x < length h -> ~ owner key x -> h2 !! x = h !! x) ->
  tree h2 hv' v' Fk' ->
  (forall x, Fk' x -> owner key x \/ fresh h h2 x) ->
  hv' <> HPrim PUndefined ->
  v' <> undefined ->
  mergedInto h d F (Lodash.assignMergeValue vd key v')
    (assignMergeValue h2 d key hv').
Proof.
  intros Hd HF Hnd Hf Hin Hdisj Hbound Hlen Hsame Hnew HFk' Hhv Hv.
  assert (Hd2 : h2 !! d = Some props).
  { rewrite Hsame; [exact Hd|now apply Hbound|].
    intros Hx. now destruct (Hin _ _ Hx). }
  rewrite (assignMergeValue_insert _ _ _ _ _ Hd2 Hhv).
  rewrite pure_assignMergeValue_setOwn by assumption.
  repeat split.
  - now rewrite length_insert.
  - eapply tree_mono.
    + apply (tree_setProp h h2 d props vd F owner key hv' v' Fk'); assumption.
    + unfold fresh. rewrite length_insert. tauto.
  - intros x Hx HFx. rewrite list_lookup_insert_ne by congruence.
    apply Hsame; [assumption|]. intros Hx'. now destruct (Hin _ _ Hx').
Qed.

Lemma assign_prim h d vd F key p :
  tree h (HRef d) (Obj vd) F ->
  (forall x, F x -> x < length h) ->
  mergedInto h d F (Lodash.assignMergeValue vd key (Prim p))
    (assignMergeValue h d key (HPrim p)).
Proof.
  intros Ht Hbound.
  inversion Ht as [|d' props o F' owner Hd HF Hnd Hf Hin Hdisj]; subst.
  assert (p = PUndefined \/ p <> PUndefined) as [->|Hp]
    by (destruct p; auto; right; discriminate).
  - unfold assignMergeValue, Lodash.assignMergeValue, getProp, setProp, hasOwn.
    rewrite Hd. destruct (getOwn key props) as [hv|] eqn:E.
    + destruct (fieldsAre_getOwn_Some _ _ _ _ _ _ Hf E) as (v & -> & _).
      now apply mergedInto_refl.
    + rewrite (fieldsAre_getOwn_None _ _ _ _ _ Hf E).
      repeat split.
      * now rewrite length_insert.
      * eapply tree_mono.
        -- apply (tree_setProp h h d props vd F owner key (HPrim PUndefined)
                    undefined (owner key));
             first [assumption|lia|apply tree_prim|(intros; reflexivity)|tauto].
        -- unfold fresh. rewrite length_insert. tauto.
      * intros x Hx HFx. apply list_lookup_insert_ne. congruence.
  - apply (assign_child h h d props vd F owner key (HPrim p) (Prim p)
             (owner key));
      first [assumption|congruence|lia|apply tree_prim
            |(intros; reflexivity)|tauto].
Qed.

Lemma depth_children (o : object) n :
  depth (Obj o) <= S n -> Forall (fun vp => depth vp.2 <= n) o.
Proof.
  cbn [depth]. intros H%le_S_n. induction o as [|[k v] o IH]; constructor.
  - cbn in *. lia.
  - apply IH. cbn in H. lia.
Qed.

Lemma lookup_alloc h (o : hobject) : (h ++ [o]) !! length h = Some o.
Proof. now apply list_lookup_middle. Qed.

Lemma tree_empty h l :
  h !! l = Some [] -> tree h (HRef l) (Obj []) (fun x => x = l).
Proof.
  intros H. apply tree_obj with (props := []) (owner := fun _ _ => False);
    try done; constructor.
Qed.

(** One turn of the loop of [baseMerge], when the recursive call merges. *)
Lemma mergeProperty_merges mergeFunc bound h d s sprops key hv sv vd F Fs Fk :
  merges mergeFunc bound ->
  h !! s = Some sprops ->
  getOwn key sprops = Some hv ->
  tree h hv sv Fk ->
  (forall x, Fk x -> Fs x) ->
  depth sv <= bound ->
  tree h (HRef d) (Obj vd) F ->
  (forall x, Fs x -> x < length h) ->
  (forall x, F x -> x < length h) ->
  (forall x, Fs x -> F x -> False) ->
  exists h1,
    mergeProperty mergeFunc h d s key = Some h1
    /\ mergedInto h d F (Lodash.mergeStep vd (key, sv)) h1.
Proof.
  intros Hrec Hs Hread Hsv HFk Hdepth Ht HbFs HbF Hdisj.
  unfold mergeProperty, getProp. rewrite Hs, Hread.
  inversion Hsv as [p Fp|sk skprops vs_k Fsk skowner]; subst.
  { eexists. split; [reflexivity|]. now apply assign_prim. }
  inversion Ht as [|d' dprops o F' downer Hd HFd Hndd Hfd Hind Hdisjd]; subst.
  change (Lodash.mergeStep vd (key, Obj vs_k))
    with (Lodash.assignMergeValue vd key
            (Obj (Lodash.baseMerge (Lodash.mergeTarget (getOwn key vd)) vs_k))).
  unfold baseMergeDeep, getProp. rewrite Hd.
  assert (Halloc :
            Lodash.mergeTarget (getOwn key vd) = [] ->
            exists h1,
              (let '(h1, newValue) := alloc h [] in
               match mergeFunc h1 newValue sk with
               | Some h2 => Some (assignMergeValue h2 d key (HRef newValue))
               | None => None
               end) = Some h1
              /\ mergedInto h d F
                   (Lodash.assignMergeValue vd key
                      (Obj (Lodash.baseMerge (Lodash.mergeTarget (getOwn key vd)) vs_k)))
                   h1).
  { intros ->. cbn [alloc].
    assert (Hlen0 : length (h ++ [[]]) = S (length h))
      by (rewrite length_app; cbn; lia).
    assert (Hsrc0 : tree (h ++ [[]]) (HRef sk) (Obj vs_k) Fk).
    { eapply tree_frame; [exact Hsv|]. intros x Hx. apply lookup_app_l.
      auto. }
    destruct (Hrec vs_k [] (h ++ [[]]) (length h) sk
                (fun x => x = length h) Fk Hdepth Hsrc0
                (tree_empty _ _ (lookup_alloc h [])))
      as (h2 & E2 & Hlen2 & Ht2 & Hsame2).
    - intros x Hx. rewrite Hlen0. specialize (HbFs x (HFk x Hx)). lia.
    - intros x ->. lia.
    - intros x Hx ->. specialize (HbFs _ (HFk _ Hx)). lia.
    - rewrite E2. eexists. split; [reflexivity|].
      apply (assign_child h h2 d dprops vd F downer key (HRef (length h))
               (Obj (Lodash.baseMerge [] vs_k))
               (fun x => x = length h \/ fresh (h ++ [[]]) h2 x));
        try assumption; try discriminate.
      + lia.
      + intros x Hx _. rewrite Hsame2 by lia. now apply lookup_app_l.
      + intros x Hx. right. unfold fresh in *. lia. }
  destruct (getOwn key dprops) as [[q|ok]|] eqn:Eo.
  - destruct (fieldsAre_getOwn_Some _ _ _ _ _ _ Hfd Eo) as (v & Ev & Htv).
    inversion Htv; subst. apply Halloc. now rewrite Ev.
  - destruct (fieldsAre_getOwn_Some _ _ _ _ _ _ Hfd Eo) as (v & Ev & Htv).
    inversion Htv as [|? okprops vo ? ? ? ? ? ? ? ?]; subst.
    rewrite Ev. cbn [Lodash.mergeTarget].
    destruct (Hrec vs_k vo h ok sk (downer key) Fk Hdepth Hsv Htv)
      as (h2 & E2 & Hlen2 & Ht2 & Hsame2).
    + intros x Hx. auto.
    + intros x Hx. apply HbF. now apply (Hind key).
    + intros x Hx Hx'. apply (Hdisj x); [auto|]. now apply (Hind key).
    + rewrite E2. eexists. split; [reflexivity|].
      apply (assign_child h h2 d dprops vd F downer key (HRef ok)
               (Obj (Lodash.baseMerge vo vs_k))
               (fun x => downer key x \/ fresh h h2 x));
        try assumption; try discriminate. tauto.
  - apply Halloc. now rewrite (fieldsAre_getOwn_None _ _ _ _ _ Hfd Eo).
Qed.

(** The loop of [baseMerge] over the properties of the source that are
    still to be visited. *)
Lemma mergeProperties_merges mergeFunc bound s sprops Fs sowner d :
  merges mergeFunc bound ->
  (forall k x, sowner k x -> Fs x /\ x <> s) ->
  Fs s ->
  forall rest vrest h vd F,
    fieldsAre h sowner rest vrest ->
    h !! s = Some sprops ->
    (forall k hv, (k, hv) ∈ rest -> getOwn k sprops = Some hv) ->
    Forall (fun vp => depth vp.2 <= bound) vrest ->
    tree h (HRef d) (Obj vd) F ->
    (forall x, Fs x -> x < length h) ->
    (forall x, F x -> x < length h) ->
    (forall x, Fs x -> F x -> False) ->
    exists h',
      mergeProperties mergeFunc d s (keys rest) h = Some h'
      /\ mergedInto h d F (Lodash.baseMerge vd vrest) h'.
Proof.
  intros Hrec Hsin HFs.
  induction rest as [|[k hv] rest IH];
    intros vrest h vd F Hf Hs Hread Hdepth Ht HbFs HbF Hdisj.
  - inversion Hf; subst. exists h. split; [reflexivity|].
    now apply mergedInto_refl.
  - inversion Hf as [|? [k' sv] ? vrest' [Hk Hsv] Hrest]; subst.
    cbn in Hk, Hsv. subst k'.
    inversion Hdepth as [|? ? Hdk Hdrest]; subst. cbn in Hdk.
    change (keys ((k, hv) :: rest)) with (k :: keys rest).
    rewrite mergeProperties_cons.
    destruct (mergeProperty_merges mergeFunc bound h d s sprops k hv sv vd F Fs
                (sowner k) Hrec Hs)
      as (h1 & E1 & Hm1); try assumption.
    { apply Hread. apply elem_of_cons. now left. }
    { intros x Hx. now apply (Hsin k). }
    rewrite E1. pose proof Hm1 as (Hlen1 & Ht1 & Hsame1).
    assert (Hsrc : forall x, Fs x -> h1 !! x = h !! x).
    { intros x Hx. apply Hsame1; [auto|]. intros HFx. exact (Hdisj x Hx HFx). }
    destruct (IH vrest' h1 (Lodash.mergeStep vd (k, sv))
                (fun x => F x \/ fresh h h1 x))
      as (h' & E' & Hm'); try assumption.
    + eapply fieldsAre_frame; [exact Hrest|]. intros k' x Hx.
      apply Hsrc. now apply (Hsin k').
    + now rewrite Hsrc.
    + intros k' hv' Hin. apply Hread. apply elem_of_cons. now right.
    + intros x Hx. specialize (HbFs x Hx). lia.
    + unfold fresh. intros x [Hx|Hx]; [specialize (HbF x Hx)|]; lia.
    + unfold fresh. intros x Hx [HFx|Hfr]; [exact (Hdisj x Hx HFx)|].
      specialize (HbFs x Hx). lia.
    + exists h'. split; [exact E'|]. rewrite baseMerge_cons.
      eapply mergedInto_trans; eassumption.
Qed.

(** [baseMerge] in place computes [Lodash.baseMerge], for every source
    whose depth the fuel covers. *)
Lemma baseMerge_merges fuel : merges (baseMerge fuel) fuel.
Proof.
  induction fuel as [|fuel IH]; intros vs vd h d s F Fs Hdepth Hts Htd HbFs HbF Hdisj.
  - cbn in Hdepth. lia.
  - inversion Hts as [|s' sprops o Fs' sowner Hs HFs Hnds Hfs Hsin Hsdisj]; subst.
    assert (Hne : d <> s).
    { inversion Htd; subst. intros ->. eauto. }
    cbn [baseMerge]. apply Nat.eqb_neq in Hne. rewrite Hne, Hs.
    apply (mergeProperties_merges _ fuel s sprops Fs sowner d IH Hsin HFs);
      try assumption.
    + intros k hv Hin. apply elem_getOwn; assumption.
    + now apply depth_children.
Qed.

End HeapMerge.

Section HeapRun.
Import JsObject Heap.
Implicit Types (h : heap) (l d s : loc) (hv : hval) (F G : loc -> Prop).

Lemma merge_cons_Some fuel h d s rest :
  merge fuel h d (Some s :: rest)
  = match baseMerge fuel h d s with
    | Some h1 => merge fuel h1 d rest
    | None => None
    end.
Proof.
  unfold merge. cbn [fold_left].
  destruct (baseMerge fuel h d s); [reflexivity|].
  induction rest as [|[?|] ? IH]; cbn; [reflexivity|exact IH..].
Qed.

(** [merge] in place computes [Lodash.merge], for sources that are apart
    from the destination. *)
Lemma merge_sources fuel (srcs : list (loc * object)) :
  forall h d vd F,
    Forall (fun sv =>
              depth (Obj sv.2) <= fuel
              /\ exists Fs,
                  tree h (HRef sv.1) (Obj sv.2) Fs
                  /\ forall x, Fs x -> x < length h /\ ~ F x) srcs ->
    tree h (HRef d) (Obj vd) F ->
    (forall x, F x -> x < length h) ->
    exists h',
      merge fuel h d ((fun sv => Some sv.1) <$> srcs) = Some h'
      /\ mergedInto h d F
           (Lodash.merge vd ((fun sv => Some sv.2) <$> srcs)) h'.
Proof.
  induction srcs as [|[s vs] srcs IH]; intros h d vd F Hall Ht Hb.
  - exists h. split; [reflexivity|]. now apply mergedInto_refl.
  - inversion Hall as [|? ? (Hdepth & Fs & Hts & HFs) Hrest]; subst.
    cbn [fst snd] in *. rewrite !fmap_cons. cbn [fst snd].
    rewrite merge_cons_Some.
    destruct (baseMerge_merges fuel vs vd h d s F Fs Hdepth Hts Ht)
      as (h1 & E1 & Hm1); [intros x Hx; now apply HFs|assumption| |].
    { intros x Hx HF. now apply (HFs x Hx). }
    rewrite E1. pose proof Hm1 as (Hlen1 & Ht1 & Hsame1).
    destruct (IH h1 d (Lodash.baseMerge vd vs) (fun x => F x \/ fresh h h1 x))
      as (h' & E' & Hm'); [|assumption| |].
    + eapply Forall_impl; [exact Hrest|].
      intros [s' vs'] (Hd' & Fs' & Hts' & HFs'). cbn [fst snd] in *.
      split; [assumption|]. exists Fs'. split.
      * eapply tree_frame; [exact Hts'|]. intros x Hx.
        destruct (HFs' x Hx). now apply Hsame1.
      * intros x Hx. destruct (HFs' x Hx) as [Hlt HnF].
        unfold fresh. split; [lia|]. intros [?|?]; [contradiction|lia].
    + unfold fresh. intros x [Hx|Hx]; [specialize (Hb x Hx)|]; lia.
    + exists h'. split; [exact E'|].
      change (Lodash.merge vd (Some vs :: ((fun sv => Some sv.2) <$> srcs)))
        with (Lodash.merge (Lodash.baseMerge vd vs)
                ((fun sv => Some sv.2) <$> srcs)).
      eapply mergedInto_trans; eassumption.
Qed.

(** The predicates of [selectorMapping] look at the level only. *)
Lemma selectorMatches_agree (props : PropsOf loc) (pprops : Props) selector :
  name props = name pprops ->
  level (attributes props) = level (attributes pprops) ->
  selectorMatches props selector = selectorMatches pprops selector.
Proof.
  intros Hname Hlevel. unfold selectorMatches. rewrite Hname.
  destruct (String.eqb selector (name pprops)); [reflexivity|].
  destruct (JsString.startsWith selector (name pprops)); [|reflexivity].
  unfold selectorMapping. cbn [lookupPredicate].
  repeat (destruct (String.eqb _ selector); [now rewrite Hlevel|]).
  reflexivity.
Qed.

Lemma layerIs_frame n h h' x o :
  layerIs n h x o -> (forall y, y < n -> h' !! y = h !! y) -> layerIs n h' x o.
Proof.
  destruct x, o; cbn; try done. intros Ht Hsame.
  eapply tree_frame; [exact Ht|]. exact Hsame.
Qed.

Lemma entriesAre_frame n h h' hs ps :
  entriesAre n h hs ps -> (forall y, y < n -> h' !! y = h !! y) ->
  entriesAre n h' hs ps.
Proof.
  intros H Hsame. eapply Forall2_impl; [exact H|].
  intros he pe [Hk Hl]. split; [exact Hk|]. eapply layerIs_frame; eassumption.
Qed.

(** [merge( accumulator, value.styles )] in the reducer. *)
Lemma merge_layer fuel n h acc vacc F x o :
  layerIs n h x o ->
  depthLayer o <= fuel ->
  tree h (HRef acc) (Obj vacc) F ->
  (forall y, F y -> n <= y < length h) ->
  n <= length h ->
  exists h1,
    merge fuel h acc [x] = Some h1
    /\ mergedInto h acc F (Lodash.merge vacc [o]) h1.
Proof.
  intros Hl Hdepth Ht HF Hn. destruct x as [l|], o as [o|]; cbn in Hl; try done.
  - apply (merge_sources fuel [(l, o)]); [|assumption|].
    + constructor; [|constructor]. split; [exact Hdepth|].
      exists (fun y => y < n). split; [exact Hl|].
      intros y Hy. split; [lia|]. intros HFy. specialize (HF y HFy). lia.
    + intros y Hy. specialize (HF y Hy). lia.
  - exists h. split; [reflexivity|]. now apply mergedInto_refl.
Qed.

Lemma reduceEntries_refines fuel n props pprops acc :
  name props = name pprops ->
  level (attributes props) = level (attributes pprops) ->
  forall entries pentries h vacc F,
    entriesAre n h entries pentries ->
    Forall (fun pe => depthLayer (styles pe.2) <= fuel) pentries ->
    tree h (HRef acc) (Obj vacc) F ->
    (forall y, F y -> n <= y < length h) ->
    n <= length h ->
    match reduce (reducer pprops) pentries vacc with
    | Returns r =>
        exists h',
          reduceEntries fuel props entries acc h = Done h'
          /\ mergedInto h acc F r h'
    | TypeError => reduceEntries fuel props entries acc h = Thrown
    end.
Proof.
  intros Hname Hlevel.
  induction entries as [|[selector he] entries IH];
    intros pentries h vacc F Hent Hdepth Ht HF Hn.
  - inversion Hent; subst. cbn. exists h. split; [reflexivity|].
    now apply mergedInto_refl.
  - inversion Hent as [|? [selector' pe] ? pentries' [Hk Hl] Hrest]; subst.
    cbn in Hk, Hl. subst selector'.
    inversion Hdepth as [|? ? Hd Hdrest]; subst. cbn in Hd.
    cbn [reduce reduceEntries]. rewrite reducer_cases.
    rewrite (selectorMatches_agree props pprops selector Hname Hlevel).
    destruct (selectorMatches pprops selector) as [[]|]; cbn [bind];
      [|now apply IH|reflexivity].
    destruct (merge_layer fuel n h acc vacc F _ _ Hl Hd Ht HF Hn)
      as (h1 & E1 & Hm1).
    rewrite E1. pose proof Hm1 as (Hlen1 & Ht1 & Hsame1).
    assert (Hent1 : entriesAre n h1 entries pentries').
    { eapply entriesAre_frame; [exact Hrest|]. intros y Hy.
      apply Hsame1; [lia|]. intros HFy. specialize (HF y HFy). lia. }
    specialize (IH pentries' h1 (Lodash.merge vacc [styles pe])
                  (fun y => F y \/ fresh h h1 y) Hent1 Hdrest Ht1).
    destruct (reduce (reducer pprops) pentries' (Lodash.merge vacc [styles pe]))
      as [r|].
    + destruct IH as (h' & E' & Hm').
      * unfold fresh. intros y [Hy|Hy]; [specialize (HF y Hy)|]; lia.
      * lia.
      * exists h'. split; [exact E'|]. eapply mergedInto_trans; eassumption.
    + apply IH; [|lia].
      unfold fresh. intros y [Hy|Hy]; [specialize (HF y Hy)|]; lia.
Qed.

Lemma lookup_app_below h (o : hobject) y :
  y < length h -> (h ++ [o]) !! y = h !! y.
Proof. apply lookup_app_l. Qed.

Lemma runGlobalBlockSpecificStyles_refines fuel h props egs pprops pegs :
  name props = name pprops ->
  level (attributes props) = level (attributes pprops) ->
  globalStylesAre (length h) h egs pegs ->
  match pegs with
  | Some ps => Forall (fun pe => depthLayer (styles pe.2) <= fuel) ps
  | None => True
  end ->
  match globalBlockSpecificStyles pprops pegs with
  | Returns specific =>
      exists h1,
        runGlobalBlockSpecificStyles fuel props egs h = Done (h1, length h)
        /\ length h < length h1
        /\ tree h1 (HRef (length h)) (Obj specific)
             (fun y => length h <= y < length h1)
        /\ forall y, y < length h -> h1 !! y = h !! y
  | TypeError => runGlobalBlockSpecificStyles fuel props egs h = Thrown
  end.
Proof.
  intros Hname Hlevel Hegs Hdepth.
  unfold globalBlockSpecificStyles, runGlobalBlockSpecificStyles. cbn [alloc].
  assert (Hlen0 : length (h ++ [[]]) = S (length h))
    by (rewrite length_app; cbn; lia).
  destruct egs as [entries|], pegs as [ps|]; cbn in Hegs; try done.
  - assert (Hent : entriesAre (length h) (h ++ [[]]) entries ps).
    { eapply entriesAre_frame; [exact Hegs|]. intros y Hy.
      now apply lookup_app_below. }
    assert (Hacc : tree (h ++ [[]]) (HRef (length h)) (Obj [])
                     (fun y => y = length h))
      by apply tree_empty, lookup_alloc.
    assert (HF : forall y, y = length h -> length h <= y < length (h ++ [[]]))
      by (intros y ->; lia).
    assert (Hn : length h <= length (h ++ [[]])) by lia.
    pose proof (reduceEntries_refines fuel (length h) props pprops (length h)
                  Hname Hlevel entries ps (h ++ [[]]) []
                  (fun y => y = length h) Hent Hdepth Hacc HF Hn) as H.
    destruct (reduce (reducer pprops) ps []) as [r|].
    + destruct H as (h1 & E1 & Hlen1 & Ht1 & Hsame1).
      rewrite E1. exists h1. split; [reflexivity|]. split; [lia|]. split.
      * eapply tree_mono; [exact Ht1|]. unfold fresh. intros y [->|?]; lia.
      * intros y Hy. rewrite Hsame1 by lia. now apply lookup_app_below.
    + now rewrite H.
  - exists (h ++ [[]]). split; [reflexivity|]. split; [lia|]. split.
    + eapply tree_mono; [apply tree_empty, lookup_alloc|]. intros y ->. lia.
    + intros y Hy. now apply lookup_app_below.
Qed.

(** [x || {}]: the layer, or a new empty object, as a source of the last
    merge. *)
Lemma orNew_layer n h x o h' l :
  layerIs n h x o ->
  n <= length h ->
  orNew h x = (h', l) ->
  length h <= length h'
  /\ (forall y, y < length h -> h' !! y = h !! y)
  /\ exists Fs,
      tree h' (HRef l) (Obj (orEmpty o)) Fs
      /\ forall y, Fs y -> y < length h' /\ (y < n \/ length h <= y).
Proof.
  intros Hl Hn. destruct x as [l0|], o as [o0|]; cbn in Hl; try done; cbn.
  - intros [= <- <-]. split; [lia|]. split; [reflexivity|].
    exists (fun y => y < n). split; [exact Hl|]. intros y Hy. lia.
  - intros [= <- <-]. rewrite length_app. cbn. split; [lia|].
    split; [intros y Hy; now apply lookup_app_below|].
    exists (fun y => y = length h). split; [apply tree_empty, lookup_alloc|].
    intros y ->. lia.
Qed.

Lemma globalLayer_are n h egs pegs :
  globalStylesAre n h egs pegs ->
  layerIs n h (globalLayer egs) (globalLayer pegs).
Proof.
  destruct egs as [entries|], pegs as [ps|]; cbn; try done.
  induction 1 as [|[k he] [k' pe] entries ps [Hk Hl] _ IH]; [done|].
  cbn in Hk, Hl. subst k'. cbn [entryOf].
  destruct (String.eqb k "global"); [exact Hl|exact IH].
Qed.

Lemma depth_globalLayer fuel (pegs : GlobalStyles) :
  1 <= fuel ->
  match pegs with
  | Some ps => Forall (fun pe => depthLayer (styles pe.2) <= fuel) ps
  | None => True
  end ->
  depthLayer (globalLayer pegs) <= fuel.
Proof.
  intros Hfuel. destruct pegs as [ps|]; [|intros _; exact Hfuel]. cbn.
  induction 1 as [|[k pe] ps Hpe _ IH]; [exact Hfuel|]. cbn [entryOf].
  destruct (String.eqb k "global"); [exact Hpe|exact IH].
Qed.

Lemma depthLayer_pos x : 1 <= depthLayer x.
Proof. destruct x; cbn; lia. Qed.

Lemma depthLayer_orEmpty x : depth (Obj (orEmpty x)) = depthLayer x.
Proof. now destruct x. Qed.

(** The computation in place gives what the computation on plain data
    gives: a new object that holds the merged style, or the same
    [TypeError]. *)
Lemma runGlobalStylesBlock_refines fuel h props egs ctx pprops pegs pctx :
  inputsAre h props egs ctx pprops pegs pctx ->
  enoughFuel fuel pprops pegs pctx ->
  match globalStylesBlock pprops pegs pctx with
  | Returns r =>
      exists h' l,
        runGlobalStylesBlock fuel props egs ctx h = Done (h', l)
        /\ tree h' (HRef l) (Obj r) (fresh h h')
  | TypeError => runGlobalStylesBlock fuel props egs ctx h = Thrown
  end.
Proof.
  intros ((Hname & Hlevel & Hlocal) & Hegs & Hctx)
         (Hdlocal & Hdctx & Hdegs & Hdspec).
  pose proof (runGlobalBlockSpecificStyles_refines fuel h props egs pprops pegs
                Hname Hlevel Hegs Hdegs) as Hspec.
  unfold globalStylesBlock, runGlobalStylesBlock.
  destruct (globalBlockSpecificStyles pprops pegs) as [specific|] eqn:Espec;
    cbn [bind]; [|now rewrite Hspec].
  destruct Hspec as (h1 & E1 & Hlt1 & Htspec & Hsame1). rewrite E1.
  cbn [alloc]. set (n := length h) in *. set (dest := length h1).
  assert (Hlen2 : length (h1 ++ [[]]) = S dest)
    by (rewrite length_app; cbn; unfold dest; lia).
  assert (Hsame2 : forall y, y < n -> (h1 ++ [[]]) !! y = h !! y).
  { intros y Hy. rewrite lookup_app_below by lia. now apply Hsame1. }
  destruct (orNew (h1 ++ [[]]) (globalLayer egs)) as [h3 g] eqn:E3.
  destruct (orNew_layer n _ _ (globalLayer pegs) _ _
              (layerIs_frame _ _ _ _ _ (globalLayer_are _ _ _ _ Hegs) Hsame2)
              ltac:(lia) E3)
    as (Hlen3 & Hext3 & Fg & Htg & HFg).
  assert (Hsame3 : forall y, y < n -> h3 !! y = h !! y).
  { intros y Hy. rewrite Hext3 by lia. now apply Hsame2. }
  destruct (orNew h3 ctx) as [h4 a] eqn:E4.
  destruct (orNew_layer n _ _ pctx _ _
              (layerIs_frame _ _ _ _ _ Hctx Hsame3) ltac:(lia) E4)
    as (Hlen4 & Hext4 & Fa & Hta & HFa).
  assert (Hsame4 : forall y, y < n -> h4 !! y = h !! y).
  { intros y Hy. rewrite Hext4 by lia. now apply Hsame3. }
  destruct (orNew h4 (style (attributes props))) as [h5 l5] eqn:E5.
  destruct (orNew_layer n _ _ (style (attributes pprops)) _ _
              (layerIs_frame _ _ _ _ _ Hlocal Hsame4) ltac:(lia) E5)
    as (Hlen5 & Hext5 & Fl & Htl & HFl).
  assert (Hfuel : 1 <= fuel).
  { pose proof (depthLayer_pos pctx). lia. }
  destruct (merge_sources fuel
              [(g, orEmpty (globalLayer pegs)); (a, orEmpty pctx);
               (n, specific); (l5, orEmpty (style (attributes pprops)))]
              h5 dest [] (fun y => y = dest))
    as (h6 & E6 & Hlen6 & Ht6 & Hsame6).
  - repeat constructor; cbn [fst snd].
    + rewrite depthLayer_orEmpty. now apply depth_globalLayer.
    + exists Fg. split.
      * eapply tree_frame; [exact Htg|]. intros y Hy. destruct (HFg y Hy).
        rewrite Hext5 by lia. apply Hext4. lia.
      * intros y Hy. destruct (HFg y Hy). unfold dest in *. lia.
    + now rewrite depthLayer_orEmpty.
    + exists Fa. split.
      * eapply tree_frame; [exact Hta|]. intros y Hy. destruct (HFa y Hy).
        apply Hext5. lia.
      * intros y Hy. destruct (HFa y Hy). unfold dest in *. lia.
    + now apply Hdspec.
    + exists (fun y => n <= y < length h1). split.
      * eapply tree_frame; [exact Htspec|]. intros y Hy.
        rewrite Hext5, Hext4, Hext3 by lia. apply lookup_app_below. lia.
      * intros y Hy. unfold dest in *. lia.
    + now rewrite depthLayer_orEmpty.
    + exists Fl. split; [exact Htl|].
      intros y Hy. destruct (HFl y Hy). unfold dest in *. lia.
  - apply tree_empty. rewrite Hext5, Hext4, Hext3 by lia. apply lookup_alloc.
  - intros y ->. lia.
  - cbn [fmap list_fmap fst snd] in E6. rewrite E6.
    exists h6, dest. split; [reflexivity|].
    eapply tree_mono; [exact Ht6|].
    unfold fresh, dest. intros y [->|?]; lia.
Qed.

Lemma depthEntries_bound (ps : list (string * GlobalStylesEntry)) fuel :
  depthEntries ps <= fuel ->
  Forall (fun pe => depthLayer (styles pe.2) <= fuel) ps.
Proof.
  induction ps as [|pe ps IH]; intros H; constructor;
    unfold depthEntries in *; cbn [fold_right] in H; [lia|].
  apply IH. lia.
Qed.

(** Some amount of fuel is enough, and then so is every larger one. *)
Lemma enoughFuel_exists pprops pegs pctx :
  exists fuel0, forall fuel, fuel0 <= fuel -> enoughFuel fuel pprops pegs pctx.
Proof.
  exists (depthLayer (style (attributes pprops)) + depthLayer pctx
          + match pegs with Some ps => depthEntries ps | None => 0 end
          + match globalBlockSpecificStyles pprops pegs with
            | Returns specific => depth (Obj specific)
            | TypeError => 0
            end).
  intros fuel Hfuel. repeat split; try lia.
  - destruct pegs as [ps|]; [|exact I]. apply depthEntries_bound. lia.
  - intros specific E. rewrite E in Hfuel. lia.
Qed.

End HeapRun.

Section Purity.
Import Heap.

Lemma inputsAre_after h h' props egs ctx pprops pegs pctx :
  inputsAre h props egs ctx pprops pegs pctx ->
  length h <= length h' ->
  (forall l, l < length h -> h' !! l = h !! l) ->
  inputsAre h' props egs ctx pprops pegs pctx.
Proof.
  assert (Hlayer : forall x o,
             layerIs (length h) h x o ->
             length h <= length h' ->
             (forall l, l < length h -> h' !! l = h !! l) ->
             layerIs (length h') h' x o).
  { intros [l|] [o|]; cbn; try done. intros Ht Hlen Hsame.
    eapply tree_mono; [eapply tree_frame; [exact Ht|exact Hsame]|].
    cbn. intros y Hy. lia. }
  intros ((Hname & Hlevel & Hlocal) & Hegs & Hctx) Hlen Hsame.
  repeat split; try assumption; try (now apply Hlayer).
  destruct egs as [entries|], pegs as [ps|]; cbn in *; try done.
  eapply Forall2_impl; [exact Hegs|].
  intros he pe [Hk Hl]. split; [exact Hk|]. now apply Hlayer.
Qed.

End Purity.

(** C9.  The computation of the merged style, run on objects that other
    code holds too, writes to none of the objects that exist when it
    starts (the local layer, the selector map, the global layer and the
    inherited style among them) and returns a new object; after it, the
    same objects stand for the same inputs.  Its result is a function of
    the contents of its inputs: two runs (in any two heaps, such as before
    and after a first run) on inputs with equal contents both return an
    object with the same contents, or both throw. *)
Theorem effective_style_pure :
  (forall fuel props egs ctx h h' result,
      Heap.runGlobalStylesBlock fuel props egs ctx h = Heap.Done (h', result) ->
      length h <= result
      /\ forall l, l < length h -> h' !! l = h !! l)
  /\ (forall fuel props egs ctx h h' result pprops pegs pctx,
         Heap.inputsAre h props egs ctx pprops pegs pctx ->
         Heap.runGlobalStylesBlock fuel props egs ctx h = Heap.Done (h', result) ->
         Heap.inputsAre h' props egs ctx pprops pegs pctx)
  /\ (forall h1 props1 egs1 ctx1 h2 props2 egs2 ctx2 pprops pegs pctx,
         Heap.inputsAre h1 props1 egs1 ctx1 pprops pegs pctx ->
         Heap.inputsAre h2 props2 egs2 ctx2 pprops pegs pctx ->
         exists fuel0, forall fuel, fuel0 <= fuel ->
           (exists r h1' l1 h2' l2,
               globalStylesBlock pprops pegs pctx = Returns r
               /\ Heap.runGlobalStylesBlock fuel props1 egs1 ctx1 h1
                  = Heap.Done (h1', l1)
               /\ Heap.runGlobalStylesBlock fuel props2 egs2 ctx2 h2
                  = Heap.Done (h2', l2)
               /\ Heap.tree h1' (Heap.HRef l1) (Obj r) (Heap.fresh h1 h1')
               /\ Heap.tree h2' (Heap.HRef l2) (Obj r) (Heap.fresh h2 h2'))
           \/ (globalStylesBlock pprops pegs pctx = TypeError
               /\ Heap.runGlobalStylesBlock fuel props1 egs1 ctx1 h1 = Heap.Thrown
               /\ Heap.runGlobalStylesBlock fuel props2 egs2 ctx2 h2 = Heap.Thrown)).
Proof.
  split; [|split].
  - intros fuel props egs ctx h h' result Hrun.
    destruct (runGlobalStylesBlock_framed _ _ _ _ _ _ _ Hrun) as (H1 & _ & H2).
    now split.
  - intros fuel props egs ctx h h' result pprops pegs pctx Hin Hrun.
    destruct (runGlobalStylesBlock_framed _ _ _ _ _ _ _ Hrun) as (_ & H1 & H2).
    eapply inputsAre_after; eassumption.
  - intros h1 props1 egs1 ctx1 h2 props2 egs2 ctx2 pprops pegs pctx Hin1 Hin2.
    destruct (enoughFuel_exists pprops pegs pctx) as (fuel0 & Hfuel0).
    exists fuel0. intros fuel Hfuel. specialize (Hfuel0 fuel Hfuel).
    pose proof (runGlobalStylesBlock_refines fuel _ _ _ _ _ _ _ Hin1 Hfuel0) as R1.
    pose proof (runGlobalStylesBlock_refines fuel _ _ _ _ _ _ _ Hin2 Hfuel0) as R2.
    destruct (globalStylesBlock pprops pegs pctx) as [r|].
    + left. destruct R1 as (h1' & l1 & E1 & T1). destruct R2 as (h2' & l2 & E2 & T2).
      exists r, h1', l1, h2', l2. auto.
    + right. auto.
Qed.

Lemma effective_style_pure_witness :
  exists h' result,
    Heap.runGlobalStylesBlock 3 sampleHeapProps sampleHeapStyles None sampleHeap
    = Heap.Done (h', result)
    /\ length sampleHeap <= result
    /\ forall l, l < length sampleHeap -> h' !! l = sampleHeap !! l.
Proof.
  eexists. eexists. split; [vm_compute; reflexivity|].
  apply (proj1 effective_style_pure 3 sampleHeapProps sampleHeapStyles None).
  vm_compute. reflexivity.
Defined.

(** * Further properties of the code *)

(** ** [compileStyleValue], continued *)

Section CompileFacts.
Import JsString.

Lemma join_cons2 sep x y rest :
  join sep (x :: y :: rest) = (x ++ sep ++ join sep (y :: rest))%string.
Proof. reflexivity. Qed.

(** Cutting at every "|" and joining with "--" replaces each "|" by
    "--". *)
Lemma join_split_replaceBars (s : string) :
  join VARIABLE_PATH_SEPARATOR_TOKEN_STYLE
    (split VARIABLE_PATH_SEPARATOR_TOKEN_ATTRIBUTE s)
  = replaceBars s.
Proof.
  induction s as [|c s IH]; [reflexivity|].
  rewrite split_cons. cbn [replaceBars].
  destruct (join_split s) as (Hne & _ & _). cbn zeta in Hne.
  destruct (split VARIABLE_PATH_SEPARATOR_TOKEN_ATTRIBUTE s) as [|seg segs] eqn:E;
    [congruence|].
  destruct (Ascii.eqb c bar).
  - rewrite join_cons2, IH. reflexivity.
  - rewrite join_cons_char, IH. reflexivity.
Qed.

Lemma replaceBars_app (a b : string) :
  replaceBars (a ++ b) = (replaceBars a ++ replaceBars b)%string.
Proof.
  induction a as [|c a IH]; [reflexivity|].
  rewrite append_String. cbn [replaceBars].
  destruct (Ascii.eqb c bar); rewrite IH; reflexivity.
Qed.

Lemma replaceBars_free (s : string) : free_of bar (replaceBars s) = true.
Proof.
  induction s as [|c s IH]; [reflexivity|]. cbn [replaceBars].
  destruct (Ascii.eqb c bar) eqn:E.
  - cbn [free_of]. now rewrite IH.
  - cbn [free_of]. now rewrite E, IH.
Qed.

Lemma compileStyleValue_prefixed (rest : string) :
  compileStyleValue (Str (VARIABLE_REFERENCE_PREFIX ++ rest))
  = Str ("var(--wp--" ++ replaceBars rest ++ ")").
Proof.
  unfold compileStyleValue.
  assert (Hp : startsWith (VARIABLE_REFERENCE_PREFIX ++ rest)%string
                 VARIABLE_REFERENCE_PREFIX = true)
    by (apply startsWith_var_iff; eauto).
  now rewrite Hp, slice_prefix, join_split_replaceBars.
Qed.

Lemma free_of_app c (a b : string) :
  free_of c (a ++ b) = free_of c a && free_of c b.
Proof.
  induction a as [|d a IH]; [reflexivity|].
  rewrite append_String. cbn [free_of]. rewrite IH. now rewrite andb_assoc.
Qed.

End CompileFacts.

(** X1.  Compiling is idempotent: a compiled value is not compiled
    again, since what a reference compiles to starts with "var(" and not
    with "var:". *)
Theorem compileStyleValue_idempotent (v : value) :
  compileStyleValue (compileStyleValue v) = compileStyleValue v.
Proof.
  destruct v as [[| | | |s]|]; try reflexivity.
  destruct (JsString.startsWith s VARIABLE_REFERENCE_PREFIX) eqn:E.
  - apply startsWith_var_iff in E as [rest ->].
    rewrite compileStyleValue_prefixed. reflexivity.
  - unfold compileStyleValue at 2. rewrite E.
    unfold compileStyleValue. now rewrite E.
Qed.

(** X2.  What a reference compiles to holds no "|": it is "var(--wp--",
    a text free of "|", and ")". *)
Theorem compileStyleValue_reference_no_bar (s : string) :
  JsString.startsWith s VARIABLE_REFERENCE_PREFIX = true ->
  exists body,
    compileStyleValue (Str s) = Str ("var(--wp--" ++ body ++ ")")
    /\ JsString.free_of bar body = true
    /\ JsString.free_of bar ("var(--wp--" ++ body ++ ")") = true.
Proof.
  intros [rest ->]%startsWith_var_iff. exists (replaceBars rest).
  split; [apply compileStyleValue_prefixed|].
  split; [apply replaceBars_free|].
  rewrite !free_of_app, replaceBars_free. reflexivity.
Qed.

Lemma compileStyleValue_reference_no_bar_witness :
  exists body,
    compileStyleValue (Str "var:a|b||c") = Str ("var(--wp--" ++ body ++ ")")
    /\ JsString.free_of bar body = true
    /\ JsString.free_of bar ("var(--wp--" ++ body ++ ")") = true.
Proof. apply compileStyleValue_reference_no_bar. reflexivity. Defined.

(** X3.  Compiling is not one to one on references: a path written with
    "|" and the same path written with "--" compile to the same text. *)
Theorem compileStyleValue_bar_dashes_collide (a b : string) :
  compileStyleValue
    (Str (VARIABLE_REFERENCE_PREFIX
          ++ a ++ VARIABLE_PATH_SEPARATOR_TOKEN_ATTRIBUTE ++ b))
  = compileStyleValue
      (Str (VARIABLE_REFERENCE_PREFIX
            ++ a ++ VARIABLE_PATH_SEPARATOR_TOKEN_STYLE ++ b)).
Proof.
  rewrite !compileStyleValue_prefixed, !replaceBars_app. reflexivity.
Qed.

(** ** [getInlineStyles], continued *)

Section InlineStylesOrder.
Import JsObject.
Variable styles : value.

Lemma inline_fold_app (table : list (string * list string)) :
  NoDup table.*1 ->
  forall out : object,
    (forall k, k ∈ table.*1 -> k ∉ keys out) ->
    fold_left (inlineStyleStep styles) table out
    = out ++ omap (fun entry =>
                     if has styles entry.2
                     then Some (entry.1, compileStyleValue (get styles entry.2))
                     else None) table.
Proof.
  induction table as [|[k p] table IH]; intros Hnd out Hfresh.
  - cbn. now rewrite app_nil_r.
  - cbn in Hnd. apply NoDup_cons in Hnd as [Hk Hnd].
    cbn [fold_left inlineStyleStep omap list_omap fst snd].
    assert (Hkout : k ∉ keys out).
    { apply Hfresh. cbn. apply elem_of_cons. now left. }
    destruct (has styles p).
    + rewrite setOwn_fresh by assumption. rewrite IH; [|assumption|].
      * now rewrite <- app_assoc.
      * intros k' Hk'. unfold keys. rewrite fmap_app, elem_of_app.
        intros [Hin|Hin%list_elem_of_singleton].
        -- revert Hin. apply Hfresh. cbn. apply elem_of_cons. now right.
        -- cbn in Hin. congruence.
    + apply IH; [assumption|]. intros k' Hk'. apply Hfresh. cbn.
      apply elem_of_cons. now right.
Qed.

End InlineStylesOrder.

(** The entry of the output for an entry of the table, if any. *)
Lemma omap_pointwise {A B : Type} (f g : A -> option B) (l : list A) :
  (forall x, f x = g x) -> omap f l = omap g l.
Proof.
  intros H. induction l as [|x l IH]; [reflexivity|].
  cbn. now rewrite H, IH.
Qed.

Lemma getInlineStyles_omap (styles : value) :
  getInlineStyles styles
  = omap (fun entry =>
            if JsObject.has styles entry.2
            then Some (entry.1, compileStyleValue (JsObject.get styles entry.2))
            else None) mappings.
Proof.
  unfold getInlineStyles.
  rewrite inline_fold_app; [|apply mappings_NoDup|intros k _; apply not_elem_of_nil].
  cbn [app]. apply omap_pointwise. intros entry.
  now rewrite has_default, get_default.
Qed.

(** X4.  The output of [getInlineStyles] is the list of the entries of
    the table whose path exists in the input, in the order of the table
    (whatever the order of the properties in the input), each under its
    output key with the compiled value. *)
Theorem getInlineStyles_in_table_order (styles : value) :
  getInlineStyles styles
  = map (fun entry => (entry.1, compileStyleValue (JsObject.get styles entry.2)))
        (List.filter (fun entry => JsObject.has styles entry.2) mappings).
Proof.
  rewrite getInlineStyles_omap. generalize mappings. intros table.
  induction table as [|[k p] table IH]; [reflexivity|].
  cbn [omap list_omap List.filter fst snd].
  destruct (JsObject.has styles p); cbn [map fst snd]; now rewrite IH.
Qed.

(** X5.  The output is empty exactly when none of the six paths of the
    table exists in the input. *)
Theorem getInlineStyles_empty_iff (styles : value) :
  getInlineStyles styles = []
  <-> forall styleKey objectKey,
        (styleKey, objectKey) ∈ mappings -> JsObject.has styles objectKey = false.
Proof.
  rewrite getInlineStyles_omap. generalize mappings. intros table.
  induction table as [|[k p] table IH].
  - split; [|reflexivity]. intros _ ? ? H. now apply elem_of_nil in H.
  - cbn [omap list_omap fst snd]. destruct (JsObject.has styles p) eqn:E.
    + split; [discriminate|]. intros H.
      rewrite (H k p) in E by (apply elem_of_cons; now left). discriminate.
    + rewrite IH. split.
      * intros H k' p' [[= -> ->]|Hin]%elem_of_cons; [exact E|eauto].
      * intros H k' p' Hin. apply (H k' p'). apply elem_of_cons. now right.
Qed.

Lemma getInlineStyles_empty_iff_witness :
  getInlineStyles (Obj [("spacing", Obj [("padding", Str "1em")])]) = [].
Proof.
  apply getInlineStyles_empty_iff. intros styleKey objectKey Hin.
  apply list_elem_of_In in Hin. cbn in Hin.
  repeat (destruct Hin as [[= <- <-]|Hin]; [reflexivity|]). destruct Hin.
Defined.

(** X6.  Only the [typography] and [color] properties of the input
    count: two style objects that agree on these two give the same
    output. *)
Theorem getInlineStyles_reads_two_properties (o1 o2 : object) :
  JsObject.getOwn "typography" o1 = JsObject.getOwn "typography" o2 ->
  JsObject.getOwn "color" o1 = JsObject.getOwn "color" o2 ->
  getInlineStyles (Obj o1) = getInlineStyles (Obj o2).
Proof.
  intros Ht Hc. rewrite !getInlineStyles_omap. unfold mappings.
  cbn [omap list_omap fst snd JsObject.has JsObject.get].
  rewrite Ht, Hc. reflexivity.
Qed.

Lemma getInlineStyles_reads_two_properties_witness :
  getInlineStyles
    (Obj [("spacing", Obj [("padding", Str "1em")]);
          ("color", Obj [("text", Str "red")])])
  = getInlineStyles (Obj [("color", Obj [("text", Str "red")])]).
Proof. apply getInlineStyles_reads_two_properties; reflexivity. Defined.

(** ** [addSaveProps], continued *)

Section AssocLists.
Import JsObject.
Context {V : Type}.
Implicit Types (o t s : list (string * V)).

(** Two objects with the same keys in the same order and the same
    property under each key are the same object. *)
Lemma object_ext o1 o2 :
  NoDup (keys o1) ->
  keys o1 = keys o2 ->
  (forall k, getOwn k o1 = getOwn k o2) ->
  o1 = o2.
Proof.
  unfold keys. revert o2.
  induction o1 as [|[k v] o1 IH]; intros [|[k' v'] o2] Hnd Hkeys Hget;
    try discriminate; [reflexivity|].
  cbn in Hnd, Hkeys. apply NoDup_cons in Hnd as [Hk Hnd].
  injection Hkeys as <- Hkeys.
  pose proof (Hget k) as Hv. cbn in Hv. rewrite String.eqb_refl in Hv.
  injection Hv as <-. f_equal. apply IH; [assumption..|].
  intros k0. specialize (Hget k0). cbn in Hget.
  destruct (String.eqb k k0) eqn:E; [|exact Hget].
  apply String.eqb_eq in E. subst k0.
  rewrite (proj2 (getOwn_None_keys k o1)) by exact Hk.
  symmetry. apply getOwn_None_keys. unfold keys. now rewrite <- Hkeys.
Qed.

Lemma hasOwn_keys key o : hasOwn key o = true <-> key ∈ keys o.
Proof.
  unfold hasOwn. pose proof (getOwn_None_keys key o) as H.
  destruct (getOwn key o).
  - split; [|reflexivity]. intros _.
    destruct (decide (key ∈ keys o)) as [Hin|Hout]; [exact Hin|].
    apply H in Hout. discriminate.
  - split; [discriminate|]. intros Hin. now apply H in Hin.
Qed.

End AssocLists.

Section SpreadFacts.
Import JsObject.
Implicit Types (t s : object).

Lemma spreadInto_cons t k v s :
  spreadInto t (Some ((k, v) :: s)) = spreadInto (setOwn k v t) (Some s).
Proof. reflexivity. Qed.

Lemma keys_spreadInto s :
  NoDup (keys s) ->
  forall t,
    keys (spreadInto t (Some s))
    = keys t ++ List.filter (fun k => negb (hasOwn k t)) (keys s).
Proof.
  unfold keys. induction s as [|[k v] s IH]; intros Hnd t.
  - cbn. now rewrite app_nil_r.
  - cbn in Hnd. apply NoDup_cons in Hnd as [Hk Hnd].
    rewrite spreadInto_cons, IH by assumption. fold (keys (setOwn k v t)).
    rewrite keys_setOwn. cbn [fmap list_fmap List.filter fst].
    assert (Hsame : forall t',
               (forall k', k' <> k -> hasOwn k' t' = hasOwn k' t) ->
               List.filter (fun k' => negb (hasOwn k' t')) s.*1
               = List.filter (fun k' => negb (hasOwn k' t)) s.*1).
    { intros t' Ht'. apply List.filter_ext_in. intros k' Hin.
      rewrite Ht'; [reflexivity|]. intros ->. apply Hk.
      now apply list_elem_of_In. }
    destruct (hasOwn k t) eqn:E; cbn [negb].
    + f_equal. apply Hsame. intros k' Hne. unfold hasOwn.
      now rewrite getOwn_setOwn_ne by congruence.
    + rewrite <- app_assoc. cbn [app]. do 2 f_equal. apply Hsame.
      intros k' Hne. unfold hasOwn. now rewrite getOwn_setOwn_ne by congruence.
Qed.

Lemma NoDup_keys_spreadInto s :
  forall t, NoDup (keys t) -> NoDup (keys (spreadInto t (Some s))).
Proof.
  induction s as [|[k v] s IH]; intros t Ht; [exact Ht|].
  rewrite spreadInto_cons. apply IH. now apply NoDup_keys_setOwn.
Qed.

Lemma filter_twice {A : Type} (f : A -> bool) (l : list A) :
  List.filter f (List.filter f l) = List.filter f l.
Proof.
  induction l as [|x l IH]; [reflexivity|]. cbn [List.filter].
  destruct (f x) eqn:E; [|exact IH]. cbn [List.filter]. now rewrite E, IH.
Qed.

Lemma filter_own_keys t :
  List.filter (fun k => negb (hasOwn k t)) (keys t) = [].
Proof.
  assert (H : forall l, (forall k, k ∈ l -> k ∈ keys t) ->
                        List.filter (fun k => negb (hasOwn k t)) l = []).
  { induction l as [|k l IH]; intros Hl; [reflexivity|]. cbn [List.filter].
    rewrite (proj2 (hasOwn_keys k t)) by (apply Hl, elem_of_cons; now left).
    cbn [negb]. apply IH. intros k' Hk'. apply Hl, elem_of_cons. now right. }
  now apply H.
Qed.

(** Spreading an object over what already holds its spread changes
    nothing. *)
Lemma spreadInto_again t s :
  NoDup (keys t) -> NoDup (keys s) ->
  spreadInto t (Some (spreadInto t (Some s))) = spreadInto t (Some s).
Proof.
  intros Ht Hs.
  pose proof (NoDup_keys_spreadInto s t Ht) as Hts.
  apply object_ext.
  - now apply NoDup_keys_spreadInto.
  - rewrite (keys_spreadInto _ Hts t), (keys_spreadInto _ Hs t).
    rewrite List.filter_app, filter_own_keys, filter_twice. reflexivity.
  - intros k. rewrite (getOwn_spread _ _ _ Hts), (getOwn_spread _ _ _ Hs).
    now destruct (getOwn k s), (getOwn k t).
Qed.

Lemma spreadInto_self t :
  NoDup (keys t) -> spreadInto t (Some t) = t.
Proof.
  intros Ht. apply object_ext.
  - now apply NoDup_keys_spreadInto.
  - rewrite (keys_spreadInto _ Ht t), filter_own_keys. apply app_nil_r.
  - intros k. rewrite (getOwn_spread _ _ _ Ht). now destruct (getOwn k t).
Qed.

End SpreadFacts.

Section SavePropsMore.
Import JsObject.
Variable BlockType : Type.
Variable hasBlockSupport : BlockType -> string -> bool.
Variables COLOR_SUPPORT_KEY LINE_HEIGHT_SUPPORT_KEY FONT_SIZE_SUPPORT_KEY : string.

Local Abbreviation styleSupported :=
  (hasStyleSupport BlockType hasBlockSupport
     COLOR_SUPPORT_KEY LINE_HEIGHT_SUPPORT_KEY FONT_SIZE_SUPPORT_KEY).
Local Abbreviation saveProps :=
  (addSaveProps BlockType hasBlockSupport
     COLOR_SUPPORT_KEY LINE_HEIGHT_SUPPORT_KEY FONT_SIZE_SUPPORT_KEY).

Lemma saveProps_supported props blockType attributes :
  styleSupported blockType = true ->
  saveProps props blockType attributes
  = {| elementStyle :=
         Some (spreadInto (getInlineStyles (styleAttribute attributes))
                 (elementStyle props));
       elementRest := elementRest props |}.
Proof.
  intros H. unfold addSaveProps. rewrite H. cbn [negb].
  now rewrite spreadInto_empty by apply getInlineStyles_NoDup.
Qed.

Lemma saveProps_twice props blockType attributes :
  wfLayer (elementStyle props) = true ->
  saveProps (saveProps props blockType attributes) blockType attributes
  = saveProps props blockType attributes.
Proof.
  intros Hwf. destruct (styleSupported blockType) eqn:E.
  - rewrite !saveProps_supported by assumption. cbn [elementStyle elementRest].
    f_equal. f_equal.
    destruct (elementStyle props) as [existing|].
    + apply spreadInto_again; [apply getInlineStyles_NoDup|now apply wf_NoDup].
    + change (spreadInto ?t None) with t.
      apply spreadInto_self, getInlineStyles_NoDup.
  - unfold addSaveProps. now rewrite !E.
Qed.

(** X7.  Filtering the props a second time changes nothing: the props
    [addSaveProps] returns are a fixed point of [addSaveProps]. *)
Theorem addSaveProps_idempotent
    (props : ElementProps) (blockType : BlockType) (attributes : Attributes) :
  wfLayer (elementStyle props) = true ->
  saveProps (saveProps props blockType attributes) blockType attributes
  = saveProps props blockType attributes.
Proof. apply saveProps_twice. Qed.


End SavePropsMore.

Lemma addSaveProps_idempotent_witness :
  let props :=
    addSaveProps (list string) sampleSupports
      "__experimentalColor" "__experimentalLineHeight" "__experimentalFontSize"
      {| elementStyle := Some [("margin", Str "0"); ("color", Str "black")];
         elementRest := [] |}
      ["__experimentalColor"]
      {| level := undefined;
         style := Some [("color", Obj [("text", Str "var:a|b");
                                       ("background", Str "#fff")])] |} in
  addSaveProps (list string) sampleSupports
    "__experimentalColor" "__experimentalLineHeight" "__experimentalFontSize"
    props ["__experimentalColor"]
    {| level := undefined;
       style := Some [("color", Obj [("text", Str "var:a|b");
                                     ("background", Str "#fff")])] |}
  = props.
Proof.
  cbn zeta. apply addSaveProps_idempotent. reflexivity.
Defined.


(** ** [addAttribute] and [addEditProps] *)

Section SettingsFacts.
Import JsObject.
Variable BlockType : Type.
Variable hasBlockSupport : BlockType -> string -> bool.
Variables COLOR_SUPPORT_KEY LINE_HEIGHT_SUPPORT_KEY FONT_SIZE_SUPPORT_KEY : string.

Local Abbreviation styleSupported :=
  (hasStyleSupport BlockType hasBlockSupport
     COLOR_SUPPORT_KEY LINE_HEIGHT_SUPPORT_KEY FONT_SIZE_SUPPORT_KEY).
Local Abbreviation saveProps :=
  (addSaveProps BlockType hasBlockSupport
     COLOR_SUPPORT_KEY LINE_HEIGHT_SUPPORT_KEY FONT_SIZE_SUPPORT_KEY).
Local Abbreviation attributeFilter :=
  (addAttribute BlockType hasBlockSupport
     COLOR_SUPPORT_KEY LINE_HEIGHT_SUPPORT_KEY FONT_SIZE_SUPPORT_KEY).
Local Abbreviation editFilter :=
  (addEditProps BlockType hasBlockSupport
     COLOR_SUPPORT_KEY LINE_HEIGHT_SUPPORT_KEY FONT_SIZE_SUPPORT_KEY).
Local Abbreviation wrapperOf :=
  (editWrapperProps BlockType hasBlockSupport
     COLOR_SUPPORT_KEY LINE_HEIGHT_SUPPORT_KEY FONT_SIZE_SUPPORT_KEY).
Implicit Types (settings : Settings BlockType).

Lemma attributeStyle_setOwn (attrs : object) :
  attributeStyle (setOwn "style" styleAttributeDefinition attrs)
  = styleAttributeDefinition.
Proof. unfold attributeStyle. now rewrite getOwn_setOwn_eq. Qed.

(** X9.  For a block type with style support whose settings have
    attributes, [addAttribute] returns settings in which the [style]
    attribute is declared; every other attribute is as it was, a [style]
    attribute the block declares itself is kept, and nothing else in the
    settings changes. *)
Theorem addAttribute_declares_style settings (attrs : object) :
  styleSupported (settingsType settings) = true ->
  settingsAttributes settings = Some attrs ->
  exists attrs',
    attributeFilter settings
    = Returns {| settingsType := settingsType settings;
                 settingsAttributes := Some attrs';
                 getEditWrapperProps := getEditWrapperProps settings |}
    /\ truthy (attributeStyle attrs') = true
    /\ (forall key, key <> "style" -> getOwn key attrs' = getOwn key attrs)
    /\ (truthy (attributeStyle attrs) = true -> attrs' = attrs)
    /\ (truthy (attributeStyle attrs) = false ->
        getOwn "style" attrs' = Some styleAttributeDefinition).
Proof.
  intros Hs Hattrs. unfold addAttribute. rewrite Hs, Hattrs. cbn [negb].
  destruct (truthy (attributeStyle attrs)) eqn:E; cbn [negb].
  - exists attrs. split; [destruct settings; cbn in *; now subst|].
    repeat split; try done; congruence.
  - exists (setOwn "style" styleAttributeDefinition attrs).
    split; [reflexivity|]. split; [now rewrite attributeStyle_setOwn|].
    split; [|split; [discriminate|]].
    + intros key Hne. apply getOwn_setOwn_ne. congruence.
    + intros _. apply getOwn_setOwn_eq.
Qed.

(** X10.  [addAttribute] fails exactly for a block type with style
    support whose settings have no attributes; a block type without style
    support gets its settings back unchanged, attributes or not. *)
Theorem addAttribute_throws_iff settings :
  (addAttribute BlockType hasBlockSupport COLOR_SUPPORT_KEY
     LINE_HEIGHT_SUPPORT_KEY FONT_SIZE_SUPPORT_KEY settings = TypeError
   <-> hasStyleSupport BlockType hasBlockSupport COLOR_SUPPORT_KEY
         LINE_HEIGHT_SUPPORT_KEY FONT_SIZE_SUPPORT_KEY (settingsType settings)
       = true
       /\ settingsAttributes settings = None)
  /\ (hasStyleSupport BlockType hasBlockSupport COLOR_SUPPORT_KEY
        LINE_HEIGHT_SUPPORT_KEY FONT_SIZE_SUPPORT_KEY (settingsType settings)
      = false ->
      addAttribute BlockType hasBlockSupport COLOR_SUPPORT_KEY
        LINE_HEIGHT_SUPPORT_KEY FONT_SIZE_SUPPORT_KEY settings
      = Returns settings).
Proof.
  unfold addAttribute.
  destruct (styleSupported (settingsType settings)); cbn [negb].
  - split; [|discriminate].
    destruct (settingsAttributes settings) as [attrs|].
    + destruct (truthy (attributeStyle attrs)); cbn [negb];
        split; try discriminate; now intros [_ ?].
    + split; [now split|reflexivity].
  - split; [|reflexivity]. split; [discriminate|]. now intros [? _].
Qed.

(** X11.  Registering twice is harmless: [addAttribute] leaves the
    settings it has returned as they are. *)
Theorem addAttribute_idempotent settings settings' :
  addAttribute BlockType hasBlockSupport COLOR_SUPPORT_KEY
    LINE_HEIGHT_SUPPORT_KEY FONT_SIZE_SUPPORT_KEY settings
  = Returns settings' ->
  addAttribute BlockType hasBlockSupport COLOR_SUPPORT_KEY
    LINE_HEIGHT_SUPPORT_KEY FONT_SIZE_SUPPORT_KEY settings'
  = Returns settings'.
Proof.
  unfold addAttribute.
  destruct (styleSupported (settingsType settings)) eqn:Hs; cbn [negb].
  - destruct (settingsAttributes settings) as [attrs|] eqn:Ha; [|discriminate].
    destruct (truthy (attributeStyle attrs)) eqn:E; cbn [negb];
      intros [= <-]; cbn [settingsType settingsAttributes].
    + now rewrite Hs, Ha, E.
    + rewrite Hs, attributeStyle_setOwn. reflexivity.
  - intros [= <-]. now rewrite Hs.
Qed.

Lemma wrapperOf_supported settings attributes :
  styleSupported (settingsType settings) = true ->
  wrapperOf settings attributes
  = let props :=
      match getEditWrapperProps settings with
      | Some existing => existing attributes
      | None => emptyProps
      end in
    {| elementStyle :=
         Some (spreadInto (getInlineStyles (styleAttribute attributes))
                 (elementStyle props));
       elementRest := elementRest props |}.
Proof.
  intros Hs. unfold editWrapperProps. cbn zeta.
  now apply saveProps_supported.
Qed.

(** X12.  For a block type with style support, [addEditProps] stores a
    wrapper whose props, for every attributes, keep the style keys and
    the other props of the wrapper the block had (or of the empty props
    when it had none) and add the inline styles computed from the [style]
    attribute under the keys the block's wrapper does not set. *)
Theorem addEditProps_wrapper settings (attributes : Attributes) :
  styleSupported (settingsType settings) = true ->
  let existing :=
    match getEditWrapperProps settings with
    | Some existingGetEditWrapperProps => existingGetEditWrapperProps attributes
    | None => emptyProps
    end in
  wfLayer (elementStyle existing) = true ->
  exists wrapper merged,
    getEditWrapperProps (editFilter settings) = Some wrapper
    /\ settingsType (editFilter settings) = settingsType settings
    /\ settingsAttributes (editFilter settings) = settingsAttributes settings
    /\ elementStyle (wrapper attributes) = Some merged
    /\ elementRest (wrapper attributes) = elementRest existing
    /\ forall key,
         getOwn key merged
         = match getOwn key (orEmpty (elementStyle existing)) with
           | Some v => Some v
           | None => getOwn key (getInlineStyles (styleAttribute attributes))
           end.
Proof.
  intros Hs existing Hwf. unfold addEditProps. rewrite Hs. cbn [negb].
  eexists. eexists. split; [reflexivity|]. split; [reflexivity|].
  split; [reflexivity|]. rewrite wrapperOf_supported by assumption.
  cbn zeta. fold existing. split; [reflexivity|]. split; [reflexivity|].
  intros key. destruct (elementStyle existing) as [o|]; [|reflexivity].
  cbn [orEmpty]. apply getOwn_spread. now apply wf_NoDup.
Qed.

(** X13.  Filtering the settings twice gives the wrapper that filtering
    once gives: for every attributes the two wrappers return the same
    props.  A block type without style support keeps its settings. *)
Theorem addEditProps_idempotent settings :
  (styleSupported (settingsType settings) = true ->
   forall attributes,
     wfLayer
       (elementStyle
          match getEditWrapperProps settings with
          | Some existing => existing attributes
          | None => emptyProps
          end) = true ->
     wrapperOf (editFilter settings) attributes = wrapperOf settings attributes)
  /\ (styleSupported (settingsType settings) = false ->
      editFilter settings = settings).
Proof.
  split; intros Hs; unfold addEditProps; rewrite Hs; cbn [negb]; [|reflexivity].
  intros attributes Hwf.
  unfold editWrapperProps at 1. cbn [getEditWrapperProps settingsType].
  unfold editWrapperProps. now apply saveProps_twice.
Qed.

End SettingsFacts.

Lemma addAttribute_declares_style_witness :
  exists attrs',
    sampleAddAttribute sampleSettings
    = Returns {| settingsType := settingsType sampleSettings;
                 settingsAttributes := Some attrs';
                 getEditWrapperProps := getEditWrapperProps sampleSettings |}
    /\ JsObject.getOwn "style" attrs' = Some styleAttributeDefinition
    /\ JsObject.getOwn "content" attrs' = Some (Obj [("type", Str "string")]).
Proof.
  destruct (addAttribute_declares_style (list string) sampleSupports
              "__experimentalColor" "__experimentalLineHeight"
              "__experimentalFontSize" sampleSettings
              [("content", Obj [("type", Str "string")])] eq_refl eq_refl)
    as (attrs' & Hret & _ & Hother & _ & Hstyle).
  exists attrs'. split; [exact Hret|]. split.
  - apply Hstyle. reflexivity.
  - rewrite Hother by discriminate. reflexivity.
Defined.

Lemma addAttribute_throws_iff_witness :
  sampleAddAttribute
    {| settingsType := ["__experimentalColor"];
       settingsAttributes := None;
       getEditWrapperProps := None |}
  = TypeError.
Proof.
  apply (proj1 (addAttribute_throws_iff (list string) sampleSupports
                  "__experimentalColor" "__experimentalLineHeight"
                  "__experimentalFontSize" _)).
  split; reflexivity.
Defined.

Lemma addAttribute_idempotent_witness :
  sampleAddAttribute
    {| settingsType := settingsType sampleSettings;
       settingsAttributes :=
         Some [("content", Obj [("type", Str "string")]);
               ("style", styleAttributeDefinition)];
       getEditWrapperProps := getEditWrapperProps sampleSettings |}
  = Returns
      {| settingsType := settingsType sampleSettings;
         settingsAttributes :=
           Some [("content", Obj [("type", Str "string")]);
                 ("style", styleAttributeDefinition)];
         getEditWrapperProps := getEditWrapperProps sampleSettings |}.
Proof.
  apply (addAttribute_idempotent (list string) sampleSupports
           "__experimentalColor" "__experimentalLineHeight"
           "__experimentalFontSize" sampleSettings).
  reflexivity.
Defined.

Lemma addEditProps_wrapper_witness :
  exists wrapper merged,
    getEditWrapperProps (sampleAddEditProps sampleSettings) = Some wrapper
    /\ elementStyle (wrapper sampleAttributes) = Some merged
    /\ elementRest (wrapper sampleAttributes) = [("data-align", Str "wide")]
    /\ JsObject.getOwn "color" merged = Some (Str "black")
    /\ JsObject.getOwn "backgroundColor" merged = Some (Str "#fff").
Proof.
  destruct (addEditProps_wrapper (list string) sampleSupports
              "__experimentalColor" "__experimentalLineHeight"
              "__experimentalFontSize" sampleSettings sampleAttributes
              eq_refl eq_refl)
    as (wrapper & merged & Hw & _ & _ & Hstyle & Hrest & Hkeys).
  exists wrapper, merged. split; [exact Hw|]. split; [exact Hstyle|].
  split; [exact Hrest|]. split; rewrite Hkeys; reflexivity.
Defined.

Lemma addEditProps_idempotent_witness :
  sampleEditWrapperProps (sampleAddEditProps sampleSettings) sampleAttributes
  = sampleEditWrapperProps sampleSettings sampleAttributes.
Proof.
  apply (proj1 (addEditProps_idempotent (list string) sampleSupports
                  "__experimentalColor" "__experimentalLineHeight"
                  "__experimentalFontSize" sampleSettings));
    reflexivity.
Defined.

(** ** Where the leaves of the merged style come from *)

Section MergeOrigin.
Import JsObject Lodash.

(** A leaf of a merged object is a leaf of the source or of the
    destination. *)
Lemma get_baseMerge_origin path :
  forall source obj p,
    wf (Obj source) = true ->
    get (Obj (baseMerge obj source)) path = Prim p ->
    p <> PUndefined ->
    defines source path p \/ defines obj path p.
Proof.
  induction path as [|key rest IH]; intros source obj p Hwf Hget Hp.
  - cbn in Hget. congruence.
  - unfold defines. cbn [get] in *.
    rewrite getOwn_baseMerge in Hget by now apply wf_NoDup.
    destruct (getOwn key source) as [v'|] eqn:E; [|now right].
    pose proof (wf_getOwn _ _ _ Hwf E) as Hv'.
    destruct v' as [q|source'].
    + destruct q; cbn [mergedValue baseMergeDeep] in Hget;
        try (left; destruct rest; [now split|rewrite get_Prim in Hget; congruence]).
      destruct (getOwn key obj) eqn:Eo; [now right|].
      destruct rest; [congruence|rewrite get_Prim in Hget; congruence].
    + cbn [mergedValue] in Hget. rewrite baseMergeDeep_Obj in Hget.
      destruct rest as [|key' rest']; [discriminate|].
      apply IH in Hget as [[H1 H2]|[H1 H2]]; try assumption; [now left|].
      right. destruct (getOwn key obj) as [[q|o]|]; cbn [mergeTarget] in H1;
        [rewrite get_nil_object in H1; congruence
        |now split
        |rewrite get_nil_object in H1; congruence].
Qed.

Lemma get_merge_origin path sources :
  Forall (fun x => wfLayer x = true) sources ->
  forall obj p,
    get (Obj (merge obj sources)) path = Prim p ->
    p <> PUndefined ->
    defines obj path p \/ exists s, In (Some s) sources /\ defines s path p.
Proof.
  induction 1 as [|x sources Hx _ IH]; intros obj p Hget Hp.
  - left. now split.
  - cbn [merge fold_left] in Hget.
    change (fold_left mergeSource sources ?o) with (merge o sources) in Hget.
    apply IH in Hget as [[H1 H2]|(s & Hin & Hs)]; try assumption.
    + destruct x as [s|]; cbn [mergeSource] in H1; [|left; now split].
      apply get_baseMerge_origin in H1 as [H1|H1]; try assumption.
      * right. exists s. split; [now left|assumption].
      * now left.
    + right. exists s. split; [now right|assumption].
Qed.

(** A leaf of the type-specific layer is a leaf of an entry that the
    reducer has taken. *)
Lemma reduce_origin (props : Props) entries specific path p :
  forallb (fun e => wfLayer (styles e.2)) entries = true ->
  reduce (reducer props) entries [] = Returns specific ->
  defines specific path p ->
  exists selector e layer,
    In (selector, e) entries
    /\ contributes props selector = true
    /\ styles e = Some layer
    /\ defines layer path p.
Proof.
  intros Hwf Hred [Hget Hp]. apply reduce_contributes in Hred. subst specific.
  apply get_merge_origin in Hget as [[H1 H2]|(s & Hin & Hs)]; try assumption.
  - rewrite get_nil_object in H1. congruence.
  - apply in_map_iff in Hin as ([selector e] & Hstyles & Hin).
    apply filter_In in Hin as [Hin Hc]. now exists selector, e, s.
  - apply Forall_forall. intros x ([selector e] & <- & Hin)%list_elem_of_In%in_map_iff.
    apply filter_In in Hin as [Hin _].
    rewrite forallb_forall in Hwf. exact (Hwf _ Hin).
Qed.

End MergeOrigin.

(** X14.  The merge invents nothing: every leaf of the merged style of
    a block (a primitive other than [undefined] at the end of a path) is a
    leaf, at the same path, of the block's local style, of the inherited
    style, of the global layer, or of the styles of an entry of the global
    styles that the reducer takes for the block. *)
Theorem effective_style_leaf_origin
    (props : Props) (egs : GlobalStyles) (ctx : option object)
    (effective : object) (path : list string) (p : prim) :
  wfGlobalStyles egs = true ->
  wfLayer ctx = true ->
  wfLayer (style (attributes props)) = true ->
  globalStylesBlock props egs ctx = Returns effective ->
  defines effective path p ->
  defines (orEmpty (style (attributes props))) path p
  \/ defines (orEmpty ctx) path p
  \/ defines (orEmpty (globalLayer egs)) path p
  \/ exists entries selector e layer,
       egs = Some entries
       /\ In (selector, e) entries
       /\ contributes props selector = true
       /\ styles e = Some layer
       /\ defines layer path p.
Proof.
  intros Hegs Hctx Hlocal Hret [Hget Hp].
  destruct (globalBlockSpecificStyles props egs) as [specific|] eqn:Hspec;
    [|unfold globalStylesBlock in Hret; rewrite Hspec in Hret; discriminate].
  rewrite (globalStylesBlock_returns _ _ _ _ Hspec) in Hret.
  injection Hret as <-.
  pose proof (wf_layersOf _ _ _ _ Hegs Hctx Hlocal Hspec) as Hwf.
  change (JsObject.get
            (Obj (Lodash.merge [] (Some <$> layersOf props egs ctx specific)))
            path = Prim p) in Hget.
  apply get_merge_origin in Hget as [[H1 H2]|(s & Hin & Hs)]; try assumption.
  - rewrite get_nil_object in H1. congruence.
  - cbn in Hin. destruct Hin as [[= <-]|[[= <-]|[[= <-]|[[= <-]|[]]]]]; auto.
    right. right. right. destruct egs as [entries|]; cbn in Hspec.
    + destruct (reduce_origin props entries specific path p Hegs Hspec Hs)
        as (selector & e & layer & H); exists entries, selector, e, layer.
      now split.
    + injection Hspec as <-. destruct Hs as [H1 H2].
      rewrite get_nil_object in H1. congruence.
  - apply Forall_fmap. eapply Forall_impl; [exact Hwf|]. now intros l Hl.
Qed.

Lemma effective_style_leaf_origin_witness :
  let props := sampleHeading 2 (Some (L1 "color" "text" "purple")) in
  let ctx := Some (L1 "typography" "fontSize" "12px") in
  defines (orEmpty (style (attributes props))) ["typography"; "fontSize"] (PStr "12px")
  \/ defines (orEmpty ctx) ["typography"; "fontSize"] (PStr "12px")
  \/ defines (orEmpty (globalLayer sampleGlobalStyles))
       ["typography"; "fontSize"] (PStr "12px")
  \/ exists entries selector e layer,
       sampleGlobalStyles = Some entries
       /\ In (selector, e) entries
       /\ contributes props selector = true
       /\ styles e = Some layer
       /\ defines layer ["typography"; "fontSize"] (PStr "12px").
Proof.
  apply (effective_style_leaf_origin
           (sampleHeading 2 (Some (L1 "color" "text" "purple")))
           sampleGlobalStyles
           (Some (L1 "typography" "fontSize" "12px"))
           [("color", Obj [("text", Str "purple")]);
            ("typography", Obj [("fontSize", Str "12px")])]
           ["typography"; "fontSize"] (PStr "12px")
           eq_refl eq_refl eq_refl eq_refl).
  split; [reflexivity|discriminate].
Defined.

(** ** When the computation throws, and what it reads *)

Section SelectorFacts.
Import JsString.

Lemma lookupPredicate_None {L : Type} (selector : string)
    (table : list (string * (AttributesOf L -> bool))) :
  lookupPredicate selector table = None <-> ~ In selector (map fst table).
Proof.
  induction table as [|[k f] table IH]; cbn.
  - tauto.
  - destruct (String.eqb k selector) eqn:E.
    + apply String.eqb_eq in E. split; [discriminate|]. intros H. destruct H. now left.
    + apply String.eqb_neq in E. rewrite IH. tauto.
Qed.

(** The predicate [selectorMapping] holds for a selector is true of the
    attributes only when [level] is the number of the heading the selector
    names. *)
Lemma lookupPredicate_level {L : Type} (selector : string)
    (predicate : AttributesOf L -> bool) (a : AttributesOf L) :
  lookupPredicate selector selectorMapping = Some predicate ->
  predicate a = true ->
  exists n,
    level a = Num n
    /\ In (selector, n)
         [ ("core/heading/h1", 1%Z); ("core/heading/h2", 2%Z);
           ("core/heading/h3", 3%Z); ("core/heading/h4", 4%Z);
           ("core/heading/h5", 5%Z); ("core/heading/h6", 6%Z) ].
Proof.
  unfold selectorMapping. cbn [lookupPredicate].
  repeat match goal with
  | |- context [String.eqb ?k selector] =>
      destruct (String.eqb k selector) eqn:?E;
      [apply String.eqb_eq in E; subst selector|clear E]
  end; try discriminate;
    intros [= <-]; unfold strictEqNum;
    destruct (level a) as [[| | |m|]|]; try discriminate;
    intros ->%Z.eqb_eq; eexists; (split; [reflexivity|]); cbn; tauto.
Qed.

Lemma append_empty (s : string) : (s ++ "")%string = s.
Proof.
  induction s as [|c s IH]; [reflexivity|]. now rewrite append_String, IH.
Qed.

Lemma startsWith_self (s : string) : startsWith s s = true.
Proof. apply startsWith_iff. exists ""%string. now rewrite append_empty. Qed.

(** An entry whose selector does not start with the block's name leaves
    the accumulator as it is. *)
Lemma reducer_skips (props : Props) accumulator selector e :
  startsWith selector (name props) = false ->
  reducer props accumulator (selector, e) = Returns accumulator.
Proof.
  intros H. rewrite reducer_cases. unfold selectorMatches. rewrite H.
  destruct (String.eqb selector (name props)) eqn:E; [|reflexivity].
  apply String.eqb_eq in E. rewrite E, startsWith_self in H. discriminate.
Qed.

Lemma reduce_filter (props : Props) (keep : string -> bool) entries :
  (forall selector, keep selector = false ->
                    startsWith selector (name props) = false) ->
  forall accumulator,
    reduce (reducer props)
      (List.filter (fun entry => keep entry.1) entries) accumulator
    = reduce (reducer props) entries accumulator.
Proof.
  intros Hkeep. induction entries as [|[selector e] entries IH];
    intros accumulator; [reflexivity|].
  cbn [List.filter fst]. destruct (keep selector) eqn:E; cbn [reduce].
  - destruct (reducer props accumulator (selector, e)); cbn [bind];
      [apply IH|reflexivity].
  - rewrite reducer_skips by auto. cbn [bind]. apply IH.
Qed.

Lemma entryOf_filter {L : Type} (key : string) (keep : string -> bool)
    (entries : list (string * GlobalStylesEntryOf L)) :
  keep key = true ->
  entryOf key (List.filter (fun entry => keep entry.1) entries)
  = entryOf key entries.
Proof.
  intros Hkey. induction entries as [|[k e] entries IH]; [reflexivity|].
  cbn [List.filter fst]. destruct (keep k) eqn:E; cbn [entryOf].
  - now rewrite IH.
  - destruct (String.eqb k key) eqn:Ek; [|exact IH].
    apply String.eqb_eq in Ek. congruence.
Qed.

End SelectorFacts.

(** X15.  The merged style of a block cannot be computed exactly when
    the global styles hold an entry whose selector starts with the block's
    name, is not the name itself and is none of the six heading selectors
    of [selectorMapping]; without global styles nothing is thrown. *)
Theorem effective_style_throws_iff
    (props : Props) (egs : GlobalStyles) (ctx : option object) :
  globalStylesBlock props egs ctx = TypeError
  <-> exists entries selector e,
        egs = Some entries
        /\ In (selector, e) entries
        /\ selector <> name props
        /\ (exists rest, selector = (name props ++ rest)%string)
        /\ ~ In selector
             [ "core/heading/h1"; "core/heading/h2"; "core/heading/h3";
               "core/heading/h4"; "core/heading/h5"; "core/heading/h6" ].
Proof.
  destruct egs as [entries|].
  - rewrite globalStylesBlock_throws_iff. split.
    + intros (selector & e & Hin & Hne & Hs & Hl).
      exists entries, selector, e. split; [reflexivity|].
      split; [now apply list_elem_of_In|]. split; [assumption|].
      split; [now apply startsWith_iff|].
      now apply (lookupPredicate_None (L := object)) in Hl.
    + intros (entries' & selector & e & [= <-] & Hin & Hne & Hs & Hl).
      exists selector, e. split; [now apply list_elem_of_In|].
      split; [assumption|]. split; [now apply startsWith_iff|].
      now apply (lookupPredicate_None (L := object)).
  - split; [discriminate|]. now intros (entries & ? & ? & [=] & _).
Qed.

Lemma effective_style_throws_iff_witness :
  globalStylesBlock
    {| name := "core/button";
       attributes := {| level := undefined; style := None |} |}
    (Some [("global", {| styles := Some (L1 "color" "text" "red") |});
           ("core/buttons", {| styles := None |})])
    (Some (L1 "color" "text" "blue"))
  = TypeError.
Proof.
  apply (proj2 (effective_style_throws_iff _ _ _)).
  exists [("global", {| styles := Some (L1 "color" "text" "red") |});
          ("core/buttons", {| styles := None |})],
         "core/buttons"%string, {| styles := None |}.
  split; [reflexivity|]. split; [right; now left|].
  split; [discriminate|]. split; [now exists "s"%string|].
  cbn. intros H. repeat (destruct H as [H|H]; [discriminate|]). exact H.
Defined.

Lemma variant_selectors_same (props : Props) (s1 s2 : string) :
  contributes props s1 = true ->
  contributes props s2 = true ->
  s1 <> name props ->
  s2 <> name props ->
  s1 = s2.
Proof.
  unfold contributes. intros H1 H2 Hn1 Hn2.
  destruct (selectorMatches props s1) as [[]|] eqn:E1; try discriminate.
  destruct (selectorMatches props s2) as [[]|] eqn:E2; try discriminate.
  apply selectorMatches_true in E1 as [?|[_ (f1 & Hl1 & Hf1)]]; [contradiction|].
  apply selectorMatches_true in E2 as [?|[_ (f2 & Hl2 & Hf2)]]; [contradiction|].
  destruct (lookupPredicate_level _ _ _ Hl1 Hf1) as (n1 & Hlevel1 & Hin1).
  destruct (lookupPredicate_level _ _ _ Hl2 Hf2) as (n2 & Hlevel2 & Hin2).
  assert (n1 = n2) as <- by congruence.
  cbn in Hin1, Hin2. intuition congruence.
Qed.

(** X16.  Besides the entry under the block's own name, at most one
    entry is taken for a block: once an entry under another selector is
    taken, no entry under a third selector is. *)
Theorem variant_selectors_exclusive (props : Props) (s1 s2 : string) :
  contributes props s1 = true ->
  s1 <> name props ->
  s2 <> name props ->
  s2 <> s1 ->
  contributes props s2 = false.
Proof.
  intros H1 Hn1 Hn2 Hne.
  destruct (contributes props s2) eqn:H2; [|reflexivity].
  destruct Hne. symmetry. now apply (variant_selectors_same props).
Qed.

Lemma variant_selectors_exclusive_witness :
  contributes (sampleHeading 2 None) "core/heading/h3" = false.
Proof.
  apply (variant_selectors_exclusive (sampleHeading 2 None) "core/heading/h2");
    [reflexivity|discriminate..].
Defined.

(** X17.  The merged style of a block depends on the global styles only
    through the entry "global" and the entries whose selector starts with
    the block's name: the other entries can be left out. *)
Theorem effective_style_reads_matching_entries
    (props : Props) (entries : list (string * GlobalStylesEntry))
    (ctx : option object) :
  globalStylesBlock props
    (Some (List.filter
             (fun entry =>
                String.eqb entry.1 "global"
                || JsString.startsWith entry.1 (name props))
             entries))
    ctx
  = globalStylesBlock props (Some entries) ctx.
Proof.
  unfold globalStylesBlock, globalBlockSpecificStyles, globalLayer.
  rewrite (reduce_filter props
             (fun s => String.eqb s "global" || JsString.startsWith s (name props)))
    by (now intros selector [_ H]%orb_false_iff).
  rewrite (entryOf_filter "global"
             (fun s => String.eqb s "global" || JsString.startsWith s (name props)))
    by reflexivity.
  reflexivity.
Qed.

(** ** The order of the entries, and inheritance *)

Section EntryOrder.
Import JsObject Lodash.

Lemma filter_app_cons {A : Type} (f : A -> bool) (before after : list A) x :
  f x = true ->
  List.filter f (before ++ x :: after)
  = List.filter f before ++ x :: List.filter f after.
Proof. intros H. rewrite List.filter_app. cbn. now rewrite H. Qed.

Lemma wf_globalStylesBlock (props : Props) egs ctx effective :
  wfGlobalStyles egs = true ->
  wfLayer ctx = true ->
  wfLayer (style (attributes props)) = true ->
  globalStylesBlock props egs ctx = Returns effective ->
  wf (Obj effective) = true.
Proof.
  intros Hegs Hctx Hlocal Hret.
  destruct (globalBlockSpecificStyles props egs) as [specific|] eqn:Hspec;
    [|unfold globalStylesBlock in Hret; rewrite Hspec in Hret; discriminate].
  rewrite (globalStylesBlock_returns _ _ _ _ Hspec) in Hret.
  injection Hret as <-.
  pose proof (wf_layersOf _ _ _ _ Hegs Hctx Hlocal Hspec) as Hwf.
  change (wf (Obj (merge [] (Some <$> layersOf props egs ctx specific))) = true).
  apply wf_merge; [reflexivity|].
  apply Forall_fmap. eapply Forall_impl; [exact Hwf|]. now intros l Hl.
Qed.

End EntryOrder.

(** X18.  Among the entries taken for a block the one that comes last
    in the global styles gives the value, whichever selector it is under:
    a leaf of an entry that is taken is the leaf of the type-specific layer
    when the entries taken after it are silent along its path. *)
Theorem specific_layer_last_entry_wins
    (props : Props) (before after : list (string * GlobalStylesEntry))
    (selector : string) (e : GlobalStylesEntry) (layer specific : object)
    (path : list string) (p : prim) :
  wfGlobalStyles (Some (before ++ (selector, e) :: after)) = true ->
  globalBlockSpecificStyles props (Some (before ++ (selector, e) :: after))
  = Returns specific ->
  contributes props selector = true ->
  styles e = Some layer ->
  defines layer path p ->
  (forall selector' e',
      In (selector', e') after -> contributes props selector' = true ->
      silentLayer (styles e') path = true) ->
  JsObject.get (Obj specific) path = Prim p.
Proof.
  intros Hwf Hred Hc Hstyles Hdef Hafter.
  cbn [globalBlockSpecificStyles] in Hred.
  apply reduce_contributes in Hred. subst specific.
  rewrite (filter_app_cons (fun e => contributes props e.1)) by exact Hc.
  rewrite map_app. cbn [map snd]. rewrite Hstyles.
  cbn [wfGlobalStyles] in Hwf. rewrite forallb_forall in Hwf.
  apply get_merge_defines; [|assumption|].
  - pose proof (Hwf (selector, e)) as H. cbn [snd] in H. rewrite Hstyles in H.
    apply H. apply in_or_app. right. now left.
  - apply Forall_forall.
    intros x ([selector' e'] & <- & Hin)%list_elem_of_In%in_map_iff.
    apply filter_In in Hin as [Hin Hc']. split.
    + apply (Hwf (selector', e')). apply in_or_app. right. now right.
    + now apply (Hafter selector' e').
Qed.

Lemma specific_layer_last_entry_wins_witness :
  exists specific,
    globalBlockSpecificStyles (sampleHeading 2 None)
      (Some [("core/heading/h2", {| styles := Some (L1 "color" "text" "green") |});
             ("core/heading", {| styles := Some (L1 "color" "text" "red") |});
             ("core/paragraph", {| styles := Some (L1 "color" "text" "blue") |})])
    = Returns specific
    /\ JsObject.get (Obj specific) ["color"; "text"] = Str "red".
Proof.
  exists [("color", Obj [("text", Str "red")])]. split; [reflexivity|].
  apply (specific_layer_last_entry_wins (sampleHeading 2 None)
           [("core/heading/h2", {| styles := Some (L1 "color" "text" "green") |})]
           [("core/paragraph", {| styles := Some (L1 "color" "text" "blue") |})]
           "core/heading" {| styles := Some (L1 "color" "text" "red") |}
           (L1 "color" "text" "red") [("color", Obj [("text", Str "red")])]
           ["color"; "text"] (PStr "red")
           eq_refl eq_refl eq_refl eq_refl).
  - split; [reflexivity|discriminate].
  - intros selector' e' [[= <- <-]|[]]. discriminate.
Defined.

(** X19.  What a block hands down is inherited: when the merged style of
    a block is the inherited style of a block inside it, a leaf of the
    outer block's merged style is a leaf of the inner block's merged style
    wherever the inner block's local style and its type-specific layer are
    silent, whatever the global layer holds there. *)
Theorem effective_style_inherited
    (outer inner : Props) (egs : GlobalStyles) (ctx : option object)
    (effective specific : object) (path : list string) (p : prim) :
  wfGlobalStyles egs = true ->
  wfLayer ctx = true ->
  wfLayer (style (attributes outer)) = true ->
  wfLayer (style (attributes inner)) = true ->
  globalStylesBlock outer egs ctx = Returns effective ->
  defines effective path p ->
  globalBlockSpecificStyles inner egs = Returns specific ->
  silent (Obj specific) path = true ->
  silent (Obj (orEmpty (style (attributes inner)))) path = true ->
  exists effective',
    globalStylesBlock inner egs (Some effective) = Returns effective'
    /\ JsObject.get (Obj effective') path = Prim p.
Proof.
  intros Hegs Hctx Houter Hinner Hret Hdef Hspec Hs Hl.
  pose proof (wf_globalStylesBlock _ _ _ _ Hegs Hctx Houter Hret) as Hwf.
  pose proof (wf_layersOf inner egs (Some effective) specific
                Hegs Hwf Hinner Hspec) as Hlayers.
  eexists. split; [apply globalStylesBlock_returns, Hspec|].
  apply (get_merge_lookup _ 1 effective); try done.
  intros [|[|[|[|j]]]] other Hj; try lia; [| |discriminate]; now intros [= <-].
Qed.

Lemma effective_style_inherited_witness :
  exists effective',
    globalStylesBlock
      {| name := "core/paragraph";
         attributes := {| level := undefined;
                          style := Some (L1 "color" "background" "white") |} |}
      sampleGlobalStyles
      (Some [("color", Obj [("text", Str "purple")])])
    = Returns effective'
    /\ JsObject.get (Obj effective') ["color"; "text"] = Str "purple".
Proof.
  apply (effective_style_inherited
           (sampleHeading 2 (Some (L1 "color" "text" "purple")))
           {| name := "core/paragraph";
              attributes := {| level := undefined;
                               style := Some (L1 "color" "background" "white") |} |}
           sampleGlobalStyles None
           [("color", Obj [("text", Str "purple")])] []
           ["color"; "text"] (PStr "purple")
           eq_refl eq_refl eq_refl eq_refl eq_refl).
  - split; [reflexivity|discriminate].
  - reflexivity.
  - reflexivity.
  - reflexivity.
Defined.

(** ** The mobile toolbar of a block *)

Section ToolbarFacts.
Import BlockMobileToolbar.



End ToolbarFacts.


